(** * RealStatePro1: the valuation engine of [utils.py]

    A shallow embedding of the six functions of [utils.py] (the engine the
    Streamlit page [main.py] calls) and the properties of its specification.

    The functions are plain Python arithmetic on numbers.  A Python number is
    an [int] (unbounded, here [Z]) or a [float] (IEEE 754 binary64, here the
    kernel's primitive [float], whose operations round to nearest, ties to
    even, as CPython's do).  Mixed arithmetic converts the [int] operand to a
    [float] first; a failing operation raises an exception, which the
    embedding carries in an error monad.

    Layout: the Python arithmetic ([Py]), the engine, NumPy's [linspace]
    ([Np]); then a theory of binary64 rounding over the reals ([Binary64]),
    derived from the specification of the primitive floats; then the
    properties of the engine. *)

From Stdlib Require Import ZArith Floats List String Lia Bool.
From Stdlib Require Import Reals Lra Psatz.
From stdpp Require Import base option gmap strings.

Set Warnings "-inexact-float".

(** ** Python numbers and their arithmetic *)

Module Py.

(** The exceptions the engine's operations can raise. *)
Inductive exn : Type :=
| KeyError
| ZeroDivisionError
| OverflowError
| ValueError.

(** A call either returns a value or raises. *)
Inductive result (A : Type) : Type :=
| Ok (a : A)
| Raise (e : exn).
Arguments Ok {A} a.
Arguments Raise {A} e.

#[global] Instance result_ret : MRet result := fun A a => Ok a.
#[global] Instance result_bind : MBind result := fun A B f m =>
  match m with
  | Ok a => f a
  | Raise e => Raise e
  end.

Definition returns {A} (r : result A) : Prop := exists a, r = Ok a.

(** A number: [int] or [float]. *)
Inductive num : Type :=
| Int (z : Z)
| Float (f : float).

(** An integer as an (unnormalised) binary number. *)
Definition Z2SF (z : Z) : spec_float :=
  match z with
  | Z0 => S754_zero false
  | Zpos p => S754_finite false p 0
  | Zneg p => S754_finite true p 0
  end.

(** The nearest binary64 to an integer (ties to even); [infinity] when the
    rounded value is out of range. *)
Definition of_Z (z : Z) : float :=
  SF2Prim (binary_normalize prec emax z 0 false).

(** [float(z)], as mixed arithmetic calls it: [OverflowError] ("int too
    large to convert to float") when the rounded value is out of range. *)
Definition int_to_float (z : Z) : result float :=
  let f := of_Z z in
  if is_infinity f then Raise OverflowError else Ok f.

Definition to_float (x : num) : result float :=
  match x with
  | Int z => int_to_float z
  | Float f => Ok f
  end.

(** [a / b] on two [int]s: the correctly rounded quotient;
    [ZeroDivisionError] for [b = 0], [OverflowError] ("integer division
    result too large for a float") when it is out of range. *)
Definition int_truediv (a b : Z) : result float :=
  if (b =? 0)%Z then Raise ZeroDivisionError
  else
    let q := SF2Prim (SFdiv prec emax (Z2SF a) (Z2SF b)) in
    if is_infinity q then Raise OverflowError else Ok q.

(** [x / y] on two [float]s raises on a zero divisor (of either sign). *)
Definition float_truediv (x y : float) : result float :=
  if is_zero y then Raise ZeroDivisionError else Ok (x / y)%float.

(** A binary operator: exact on two [int]s, otherwise on the operands
    converted to [float], the left one first. *)
Definition binop (fz : Z -> Z -> Z) (ff : float -> float -> float)
           (x y : num) : result num :=
  match x, y with
  | Int a, Int b => Ok (Int (fz a b))
  | _, _ =>
      a ← to_float x;
      b ← to_float y;
      Ok (Float (ff a b))
  end.

Definition add : num -> num -> result num := binop Z.add PrimFloat.add.
Definition sub : num -> num -> result num := binop Z.sub PrimFloat.sub.
Definition mul : num -> num -> result num := binop Z.mul PrimFloat.mul.

Definition truediv (x y : num) : result num :=
  match x, y with
  | Int a, Int b => q ← int_truediv a b; Ok (Float q)
  | _, _ =>
      a ← to_float x;
      b ← to_float y;
      q ← float_truediv a b;
      Ok (Float q)
  end.

(** Comparison of a [float] with an [int] is exact (no conversion). *)
Definition SFcompare_Z (x : spec_float) (z : Z) : option comparison :=
  match x with
  | S754_nan => None
  | S754_infinity s => Some (if s then Lt else Gt)
  | S754_zero _ => Some (0 ?= z)%Z
  | S754_finite s m e =>
      let v := cond_Zopp s (Zpos m) in
      if (0 <=? e)%Z then Some (v * 2 ^ e ?= z)%Z
      else Some (v ?= z * 2 ^ (- e))%Z
  end.

Definition compare (x y : num) : option comparison :=
  match x, y with
  | Int a, Int b => Some (a ?= b)%Z
  | Float f, Float g => SFcompare (Prim2SF f) (Prim2SF g)
  | Float f, Int b => SFcompare_Z (Prim2SF f) b
  | Int a, Float g => option_map CompOpp (SFcompare_Z (Prim2SF g) a)
  end.

(** Python's [==], [<] and [<=] on numbers. *)
Definition eqb (x y : num) : bool :=
  match compare x y with Some Eq => true | _ => false end.
Definition ltb (x y : num) : bool :=
  match compare x y with Some Lt => true | _ => false end.
Definition leb (x y : num) : bool :=
  match compare x y with Some (Lt | Eq) => true | _ => false end.

End Py.

Import Py.

Declare Scope py_scope.
Delimit Scope py_scope with py.
Notation "x == y" := (Py.eqb x y = true) (at level 70, no associativity) : py_scope.
Notation "x < y" := (Py.ltb x y = true) : py_scope.
Notation "x <= y" := (Py.leb x y = true) : py_scope.

(** ** The engine: [utils.py] *)

(** The dictionaries the functions return have fixed literal keys; each is a
    record with the keys as fields. *)
Record DubaiFees : Type := {
  dld_fee : num;
  broker_fee : num;
  title_deed_fee : num;
  conveyance_fee : num;
  total_fees : num
}.

Record PropertyValues : Type := {
  conservative : num;
  moderate : num;
  optimistic : num
}.

Record RoiSplit : Type := {
  total_profit : num;
  investor_profit : num;
  company_profit : num;
  annual_roi : num
}.

Record ShareInvestment : Type := {
  share_percentage : num;
  monthly_returns : num;
  total_returns : num;
  effective_annual_return : num
}.

(** [base_costs_aed], AED per square foot. *)
Definition base_costs_aed : gmap string Z :=
  <["basic" := 300%Z]> (<["medium" := 380%Z]> (<["luxury" := 780%Z]> ∅)).

(** Subscription of a dict raises [KeyError] on a missing key. *)
Definition getitem (d : gmap string Z) (k : string) : result num :=
  match d !! k with
  | Some v => Ok (Int v)
  | None => Raise KeyError
  end.

Definition calculate_total_cost (square_feet : num) (quality_level : string)
  : result num :=
  rate ← getitem base_costs_aed quality_level;
  mul square_feet rate.

Definition calculate_dubai_fees (property_value : num) : result DubaiFees :=
  dld ← mul property_value (Float 0.04);
  broker ← mul property_value (Float 0.02);
  let title_deed := Int 430 in
  let conveyance := Int 7350 in
  s1 ← add dld broker;
  s2 ← add s1 title_deed;
  total ← add s2 conveyance;
  Ok {| dld_fee := dld;
        broker_fee := broker;
        title_deed_fee := title_deed;
        conveyance_fee := conveyance;
        total_fees := total |}.

(** The local [base_value] of [estimate_property_values]. *)
Definition base_value (initial_value total_cost market_factor : num) : result num :=
  growth ← add (Int 1) market_factor;
  value_increase ← mul total_cost growth;
  add initial_value value_increase.

Definition estimate_property_values (initial_value total_cost market_factor : num)
  : result PropertyValues :=
  growth ← add (Int 1) market_factor;
  value_increase ← mul total_cost growth;
  base_value ← add initial_value value_increase;
  k_conservative ← add (Float 1.15) market_factor;
  v_conservative ← mul base_value k_conservative;
  k_moderate ← add (Float 1.25) market_factor;
  v_moderate ← mul base_value k_moderate;
  k_optimistic ← add (Float 1.35) market_factor;
  v_optimistic ← mul base_value k_optimistic;
  Ok {| conservative := v_conservative;
        moderate := v_moderate;
        optimistic := v_optimistic |}.

Definition calculate_roi_with_split
           (initial_investment final_value total_cost holding_period : num)
  : result RoiSplit :=
  total_investment ← add initial_investment total_cost;
  profit ← sub final_value total_investment;
  investor ← mul profit (Float 0.88);
  company ← mul profit (Float 0.12);
  yield ← truediv investor total_investment;
  per_year ← truediv (Int 12) holding_period;
  scaled ← mul yield per_year;
  roi ← mul scaled (Int 100);
  Ok {| total_profit := profit;
        investor_profit := investor;
        company_profit := company;
        annual_roi := roi |}.

Definition calculate_share_investment
           (total_investment share_amount holding_period : num)
  : result ShareInvestment :=
  fraction ← truediv share_amount total_investment;
  percentage ← mul fraction (Int 100);
  let monthly_return_rate := Float 0.005 in
  monthly ← mul share_amount monthly_return_rate;
  total ← mul monthly holding_period;
  yearly ← mul monthly_return_rate (Int 12);
  effective ← mul yearly (Int 100);
  Ok {| share_percentage := percentage;
        monthly_returns := monthly;
        total_returns := total;
        effective_annual_return := effective |}.

(** ** [numpy.linspace]

    [generate_monthly_projection] is a call of NumPy's [linspace] with its
    defaults ([endpoint=True], result of type [float64]).  The model follows
    the implementation of NumPy 1.x: the sample count is checked, then the
    two end points are converted ([asanyarray(start) * 1.0], the start
    first); the samples are [arange(0, num)] scaled by the step and shifted
    by [start], and the last one is then overwritten with [stop].  NumPy's
    [float64] arithmetic never raises (it yields infinities and NaNs); the
    conversion of a Python [int] does, when the [int] is too large for a
    [float].  The properties below are stated for the arguments on which the
    conversion is plain: a [float], or an [int] that NumPy holds in a machine
    integer ([scalar]); and for sample counts below [2 ^ 63]. *)

Module Np.

(** The [float64] an argument converts to. *)
Definition float64 (x : num) : float :=
  match x with
  | Int z => of_Z z
  | Float f => f
  end.

(** An argument NumPy holds in a machine number. *)
Definition scalar (x : num) : Prop :=
  match x with
  | Int z => (- 2 ^ 63 <= z < 2 ^ 64)%Z
  | Float _ => True
  end.

(** [asanyarray(x) * 1.0]: [OverflowError] ("int too large to convert to
    float") on an [int] beyond the range of [float]. *)
Definition as_float (x : num) : result float := to_float x.

(** [arange(0, n, dtype=float64)]. *)
Definition arange (n : nat) : list float :=
  map (fun i => of_Z (Z.of_nat i)) (seq 0 n).

Definition linspace (start stop : num) (samples : Z) : result (list float) :=
  if (samples <? 0)%Z then Raise ValueError
  else
    let div := (samples - 1)%Z in
    start ← as_float start;
    stop ← as_float stop;
    let delta := (stop - start)%float in
    let y := arange (Z.to_nat samples) in
    let y :=
      if (0 <? div)%Z then
        let step := (delta / of_Z div)%float in
        if (step =? 0)%float
        then map (fun v => (v / of_Z div * delta)%float) y
        else map (fun v => (v * step)%float) y
      else map (fun v => (v * delta)%float) y in
    let y := map (fun v => (v + start)%float) y in
    let y := if (1 <? samples)%Z then <[pred (length y) := stop]> y else y in
    Ok y.

End Np.

Definition generate_monthly_projection (initial_value final_value : num) (months : Z)
  : result (list float) :=
  Np.linspace initial_value final_value months.


(** ** The page: [main.py]

    The script reads seven widgets, calls the engine in a fixed order and
    displays what it computed.  The embedding takes the values of the
    widgets as its input and returns every value the script computes, in the
    script's order, so that an exception raised on the way stops it where it
    stops the script.  The display calls ([st.metric], [st.info], the charts)
    only format these values and are left out. *)

Module Page.

(** The widgets: the number inputs and the sliders have [int] bounds and
    steps, so each yields an [int]; the select box and the radio yield one of
    their options. *)
Record Widgets : Type := {
  initial_investment : Z;
  square_feet : Z;
  quality_level : string;
  market_appreciation : Z;
  holding_period : Z;
  selected_scenario : string;
  share_amount : Z
}.

(** The ranges the widgets enforce.  The upper bound of [share_amount] is
    computed by the script, [int(total_investment)]: the initial investment
    plus the square footage times the rate of the level. *)
Definition admissible (w : Widgets) : Prop :=
  (200000 <= initial_investment w <= 50000000)%Z /\
  (500 <= square_feet w <= 10000)%Z /\
  In (quality_level w) ["basic"; "medium"; "luxury"] /\
  (0 <= market_appreciation w <= 100)%Z /\
  (1 <= holding_period w <= 60)%Z /\
  In (selected_scenario w) ["conservative"; "moderate"; "optimistic"] /\
  (100000 <= share_amount w)%Z /\
  (forall rate : Z,
     base_costs_aed !! quality_level w = Some rate ->
     share_amount w <= initial_investment w + square_feet w * rate)%Z.

(** [int(x)]: the identity on an [int], truncation towards zero on a
    [float]. *)
Definition int (x : num) : result Z :=
  match x with
  | Int z => Ok z
  | Float f =>
      match Prim2SF f with
      | S754_nan => Raise ValueError
      | S754_infinity _ => Raise OverflowError
      | S754_zero _ => Ok 0%Z
      | S754_finite s m e =>
          Ok (cond_Zopp s (if (0 <=? e)%Z then Zpos m * 2 ^ e else Zpos m / 2 ^ (- e)))%Z
      end
  end.

(** The dictionary [estimate_property_values] returns: its items in
    insertion order, and its subscription. *)
Definition items (r : PropertyValues) : list (string * num) :=
  [("conservative", conservative r); ("moderate", moderate r);
   ("optimistic", optimistic r)].

Fixpoint getitem (d : list (string * num)) (k : string) : result num :=
  match d with
  | [] => Raise KeyError
  | (k', v) :: d' => if String.eqb k k' then Ok v else getitem d' k
  end.

(** A [for] loop whose body may raise. *)
Fixpoint for_each {A B : Type} (body : A -> result B) (l : list A) : result (list B) :=
  match l with
  | [] => Ok []
  | a :: l' => b ← body a; bs ← for_each body l'; Ok (b :: bs)
  end.

(** What the loop over the scenarios computes for one of them. *)
Record Estimate : Type := {
  scenario : string;
  total_markup : num;
  value : num;
  gain : num
}.

(** Everything the script computes. *)
Record Values : Type := {
  market_factor : num;
  total_cost : num;
  package_rate : num;
  property_values : PropertyValues;
  estimates : list Estimate;
  dubai_fees : DubaiFees;
  roi_data : RoiSplit;
  total_investment : num;
  share_max : Z;
  share_data : ShareInvestment;
  monthly_values : list float;
  months : list Z
}.

Definition run (w : Widgets) : result Values :=
  market_factor ← truediv (Int (market_appreciation w)) (Int 100);
  total_cost ← calculate_total_cost (Int (square_feet w)) (quality_level w);
  package_rate ← truediv total_cost (Int (square_feet w));
  property_values ←
    estimate_property_values (Int (initial_investment w)) total_cost market_factor;
  estimates ←
    for_each (fun '(scenario, value) =>
      let base_markup :=
        if String.eqb scenario "conservative" then 15%Z
        else if String.eqb scenario "moderate" then 25%Z else 35%Z in
      percent ← mul market_factor (Int 100);
      total_markup ← add (Int base_markup) percent;
      gain ← sub value (Int (initial_investment w));
      Ok {| scenario := scenario; total_markup := total_markup;
            value := value; gain := gain |})
      (items property_values);
  selected ← getitem (items property_values) (selected_scenario w);
  dubai_fees ← calculate_dubai_fees selected;
  roi_data ←
    calculate_roi_with_split (Int (initial_investment w)) selected total_cost
                             (Int (holding_period w));
  total_investment ← add (Int (initial_investment w)) total_cost;
  share_max ← int total_investment;
  share_data ←
    calculate_share_investment total_investment (Int (share_amount w))
                               (Int (holding_period w));
  monthly_values ←
    generate_monthly_projection (Int (initial_investment w)) selected (holding_period w);
  let months := map Z.of_nat (seq 1 (Z.to_nat (holding_period w))) in
  Ok {| market_factor := market_factor;
        total_cost := total_cost;
        package_rate := package_rate;
        property_values := property_values;
        estimates := estimates;
        dubai_fees := dubai_fees;
        roi_data := roi_data;
        total_investment := total_investment;
        share_max := share_max;
        share_data := share_data;
        monthly_values := monthly_values;
        months := months |}.

End Page.
(** ** Binary64 rounding over the reals

    The primitive floats are specified by [Prim2SF] and the operations of
    [SpecFloat] ([mul_spec], [add_spec], ...).  This module derives from that
    specification what the properties below need: an operation on finite
    numbers whose exact result is below [2 ^ 1023] yields a finite number
    within half a unit in the last place of the exact result. *)

Module Binary64.
Open Scope Z_scope.

Lemma digits2_pos_bounds (p : positive) :
  2 ^ (Zpos (digits2_pos p) - 1) <= Zpos p < 2 ^ Zpos (digits2_pos p).
Proof.
  induction p as [p IH | p IH |]; cbn [digits2_pos].
  - rewrite Pos2Z.inj_succ, (Pos2Z.inj_xI p).
    replace (Z.succ (Zpos (digits2_pos p)) - 1) with (Z.succ (Zpos (digits2_pos p) - 1)) by lia.
    rewrite !Z.pow_succ_r by lia.
    generalize dependent (2 ^ (Zpos (digits2_pos p) - 1)).
    generalize dependent (2 ^ Zpos (digits2_pos p)). intros; lia.
  - rewrite Pos2Z.inj_succ, (Pos2Z.inj_xO p).
    replace (Z.succ (Zpos (digits2_pos p)) - 1) with (Z.succ (Zpos (digits2_pos p) - 1)) by lia.
    rewrite !Z.pow_succ_r by lia.
    generalize dependent (2 ^ (Zpos (digits2_pos p) - 1)).
    generalize dependent (2 ^ Zpos (digits2_pos p)). intros; lia.
  - cbn. lia.
Qed.

Lemma digits2_pos_unique (p : positive) (k : Z) :
  2 ^ (k - 1) <= Zpos p < 2 ^ k -> Zpos (digits2_pos p) = k.
Proof.
  intros [Hl Hu].
  pose proof (digits2_pos_bounds p) as [Hl' Hu'].
  assert (0 < k).
  { destruct k as [|k|k]; [cbn in Hu; lia | lia | rewrite Z.pow_neg_r in Hu by lia; lia]. }
  destruct (Z.lt_trichotomy (Zpos (digits2_pos p)) k) as [Hlt | [Heq | Hgt]]; [|exact Heq|].
  - assert (2 ^ Zpos (digits2_pos p) <= 2 ^ (k - 1)) by (apply Z.pow_le_mono_r; lia). lia.
  - assert (2 ^ k <= 2 ^ (Zpos (digits2_pos p) - 1)) by (apply Z.pow_le_mono_r; lia). lia.
Qed.

(** The state of a right shift by [k] bits of [m]: the quotient, and where
    the bits shifted out lie with respect to one half. *)
Definition shifted (m k : Z) (mrs : shr_record) : Prop :=
  exists rem,
    m = shr_m mrs * 2 ^ k + rem /\ 0 <= rem < 2 ^ k /\ 0 <= shr_m mrs /\
    (shr_r mrs = true <-> 2 ^ k <= 2 * rem) /\
    (shr_s mrs = true <-> rem <> 0 /\ 2 * rem <> 2 ^ k).

Lemma shifted_0 (m : Z) : 0 <= m -> shifted m 0 (Build_shr_record m false false).
Proof.
  intros Hm. exists 0. cbn. repeat split; try lia; try discriminate.
Qed.

Lemma shifted_shr_1 (m k : Z) (mrs : shr_record) :
  0 <= k -> shifted m k mrs -> shifted m (k + 1) (shr_1 mrs).
Proof.
  intros Hk (rem & Hm & Hrem & Hpos & Hr & Hs).
  destruct mrs as [mk r s]. cbn [shr_m shr_r shr_s] in *.
  assert (Hp : 0 < 2 ^ k) by (apply Z.pow_pos_nonneg; lia).
  assert (Hrs : orb r s = true <-> rem <> 0).
  { rewrite orb_true_iff, Hr, Hs. lia. }
  unfold shifted. rewrite Z.pow_add_r by lia. change (2 ^ 1) with 2.
  remember (2 ^ k) as pk eqn:Hpk; clear Hpk.
  destruct mk as [| [p | p |] | p]; cbn [shr_1 shr_m shr_r shr_s]; try lia.
  - exists rem. rewrite Hrs. repeat split; try lia; try discriminate.
  - exists (pk + rem). rewrite (Pos2Z.inj_xI p) in Hm. rewrite Hrs.
    repeat split; try lia.
  - exists rem. rewrite (Pos2Z.inj_xO p) in Hm. rewrite Hrs.
    repeat split; try lia; try discriminate.
  - exists (pk + rem). rewrite Hrs.
    repeat split; try lia.
Qed.

Lemma shifted_iter_pos (m k : Z) (p : positive) (mrs : shr_record) :
  0 <= k -> shifted m k mrs -> shifted m (k + Zpos p) (SpecFloat.iter_pos shr_1 p mrs).
Proof.
  revert k mrs. induction p as [p IH | p IH |]; intros k mrs Hk H; cbn [SpecFloat.iter_pos].
  - replace (k + Zpos p~1) with (k + 1 + Zpos p + Zpos p) by lia.
    apply IH; [lia|]. apply IH; [lia|]. now apply shifted_shr_1.
  - replace (k + Zpos p~0) with (k + Zpos p + Zpos p) by lia.
    apply IH; [lia|]. now apply IH.
  - now apply shifted_shr_1.
Qed.

(** Rounding the shifted mantissa to nearest: at most half a unit away. *)
Lemma round_nearest_even_shifted (m k : Z) (mrs : shr_record) :
  shifted m k mrs ->
  let m' := round_nearest_even (shr_m mrs) (loc_of_shr_record mrs) in
  shr_m mrs <= m' <= shr_m mrs + 1 /\
  2 * Z.abs (m' * 2 ^ k - m) <= 2 ^ k /\
  (k = 0 -> m' = m).
Proof.
  intros (rem & Hm & Hrem & Hpos & Hr & Hs).
  assert (Hk0 : k = 0 -> 2 ^ k = 1) by (intros ->; reflexivity).
  remember (2 ^ k) as pk eqn:Hpk; clear Hpk.
  destruct mrs as [mk r s]; cbn [shr_m shr_r shr_s loc_of_shr_record] in *.
  assert (Hr1 : r = true -> pk <= 2 * rem) by apply Hr.
  assert (Hr0 : r = false -> 2 * rem < pk).
  { intros ->. destruct (Z_lt_le_dec (2 * rem) pk) as [|Hle]; [assumption|].
    apply Hr in Hle. discriminate. }
  assert (Hs1 : s = true -> rem <> 0 /\ 2 * rem <> pk) by apply Hs.
  assert (Hs0 : s = false -> rem = 0 \/ 2 * rem = pk).
  { intros ->. destruct (Z.eq_dec rem 0) as [|Hn0]; [now left|].
    destruct (Z.eq_dec (2 * rem) pk) as [|Hne]; [now right|].
    assert (false = true) by (apply Hs; split; assumption). discriminate. }
  clear Hr Hs.
  destruct r, s; cbn [round_nearest_even];
    specialize (Hr1 eq_refl) || specialize (Hr0 eq_refl);
    specialize (Hs1 eq_refl) || specialize (Hs0 eq_refl);
    try destruct (Z.even mk); repeat split; try lia.
Qed.


Lemma fexp_eq (e : Z) : fexp prec emax e = Z.max (e - 53) (-1074).
Proof. reflexivity. Qed.

(** [r] is a valid finite number of sign [s] and magnitude [m * 2 ^ e]. *)
Definition represents (s : bool) (m e : Z) (r : spec_float) : Prop :=
  valid_binary r = true /\
  match r with
  | S754_zero s' => s' = s /\ m = 0
  | S754_finite s' m' e' => s' = s /\ e <= e' /\ m = Zpos m' * 2 ^ (e' - e)
  | _ => False
  end.

Lemma shr_nonpos (mrs : shr_record) (e n : Z) : n <= 0 -> shr mrs e n = (mrs, e).
Proof. destruct n; [reflexivity | lia | reflexivity]. Qed.

Lemma valid_finite (s : bool) (m : positive) (e : Z) :
  fexp prec emax (Zpos (digits2_pos m) + e) = e -> e <= 971 ->
  valid_binary (S754_finite s m e) = true.
Proof.
  intros Hc He. cbn [SpecFloat.valid_binary]. unfold SpecFloat.bounded, canonical_mantissa.
  rewrite Hc, Z.eqb_refl. cbn [andb]. apply Z.leb_le. exact He.
Qed.

Lemma binary_round_aux_spec (sx : bool) (mx : positive) (ex : Z) :
  let d := Zpos (digits2_pos mx) in
  let e1 := fexp prec emax (d + ex) in
  ex <= e1 ->
  d + ex <= 1023 ->
  exists m' : Z,
    0 <= m' /\
    2 * Z.abs (m' * 2 ^ (e1 - ex) - Zpos mx) <= 2 ^ (e1 - ex) /\
    (e1 = ex -> m' = Zpos mx) /\
    represents sx m' e1 (binary_round_aux prec emax sx (Zpos mx) ex loc_Exact).
Proof.
  intros d e1 Hex Hov.
  pose proof (digits2_pos_bounds mx) as Hd. fold d in Hd.
  assert (He1 : e1 = Z.max (d + ex - 53) (-1074)) by apply fexp_eq.
  unfold binary_round_aux. change (emax - prec) with 971.
  unfold shr_fexp at 1. cbn [Zdigits2 shr_record_of_loc]. fold d. fold e1.
  destruct (Z.eq_dec e1 ex) as [Heq | Hne].
  - (* enough room: nothing is shifted out *)
    rewrite shr_nonpos by lia. cbn [shr_m loc_of_shr_record round_nearest_even].
    unfold shr_fexp. cbn [Zdigits2 shr_record_of_loc]. fold d. fold e1.
    rewrite shr_nonpos by lia. cbn [shr_m].
    assert (Hle : ex <= 971) by lia.
    replace (ex <=? 971) with true by (symmetry; apply Z.leb_le; exact Hle).
    exists (Zpos mx). rewrite Heq, Z.sub_diag. cbn [Z.pow].
    repeat split; try lia.
    + apply valid_finite; [fold d; fold e1; exact Heq | exact Hle].
    + rewrite Z.sub_diag. cbn. lia.
  - (* [e1 - ex] bits are shifted out and the mantissa is rounded *)
    assert (Hn : 0 < e1 - ex) by lia.
    destruct (e1 - ex) as [| p |] eqn:Hp; try lia.
    cbn [shr]. rewrite <- Hp. replace (ex + (e1 - ex)) with e1 by lia.
    pose proof (shifted_iter_pos (Zpos mx) 0 p _ (Z.le_refl 0)
                  (shifted_0 (Zpos mx) (Pos2Z.is_nonneg mx))) as Hsh.
    rewrite Z.add_0_l, <- Hp in Hsh.
    set (mrs := SpecFloat.iter_pos shr_1 p _) in *.
    pose proof (round_nearest_even_shifted _ _ _ Hsh) as (Hm1 & Hm2 & _).
    set (m' := round_nearest_even (shr_m mrs) (loc_of_shr_record mrs)) in *.
    destruct Hsh as (rem & Hmx & Hrem & Hmk & _).
    assert (Hpk : 0 < 2 ^ (e1 - ex)) by (apply Z.pow_pos_nonneg; lia).
    exists m'. split; [lia|]. split; [exact Hm2|]. split; [lia|].
    unfold shr_fexp. cbn [shr_record_of_loc].
    destruct (Z_lt_le_dec (d + ex - 53) (-1074)) as [Hsub | Hnor].
    + (* subnormal range *)
      assert (He : e1 = -1074) by lia.
      assert (Hlt : shr_m mrs < 2 ^ 52).
      { assert (2 ^ d <= 2 ^ (52 + (e1 - ex))) by (apply Z.pow_le_mono_r; lia).
        rewrite Z.pow_add_r in H by lia. nia. }
      destruct m' as [| q |] eqn:Hq; try lia.
      * cbn [Zdigits2]. rewrite shr_nonpos by (rewrite fexp_eq; lia).
        cbn [shr_m]. split; [reflexivity|]. split; reflexivity.
      * cbn [Zdigits2].
        pose proof (digits2_pos_bounds q) as Hdq.
        assert (Hd53 : Zpos (digits2_pos q) <= 53).
        { destruct (Z_lt_le_dec 53 (Zpos (digits2_pos q))) as [H53|]; [|lia].
          assert (2 ^ 53 <= 2 ^ (Zpos (digits2_pos q) - 1)) by (apply Z.pow_le_mono_r; lia).
          lia. }
        rewrite shr_nonpos by (rewrite fexp_eq; lia). cbn [shr_m].
        replace (e1 <=? 971) with true by (symmetry; apply Z.leb_le; lia).
        split.
        -- apply valid_finite; [rewrite fexp_eq; lia | lia].
        -- rewrite Z.sub_diag. cbn [Z.pow]. repeat split; lia.
    + (* normal range *)
      assert (He : e1 = d + ex - 53) by lia.
      assert (Hb : 2 ^ 52 <= shr_m mrs < 2 ^ 53).
      { assert (H1 : 2 ^ d = 2 ^ 53 * 2 ^ (e1 - ex)) by (rewrite <- Z.pow_add_r by lia; f_equal; lia).
        assert (H2 : 2 ^ (d - 1) = 2 ^ 52 * 2 ^ (e1 - ex)) by (rewrite <- Z.pow_add_r by lia; f_equal; lia).
        rewrite H1, H2 in Hd. nia. }
      destruct (Z.eq_dec m' (2 ^ 53)) as [Hcarry | Hnc].
      * rewrite Hcarry. change (2 ^ 53) with 9007199254740992.
        change (Zdigits2 9007199254740992) with 54.
        rewrite fexp_eq. replace (Z.max (54 + e1 - 53) (-1074) - e1) with 1 by lia.
        cbn [shr SpecFloat.iter_pos shr_1 shr_m].
        replace (e1 + 1 <=? 971) with true by (symmetry; apply Z.leb_le; lia).
        split.
        -- apply valid_finite; [| lia].
           change (Zpos (digits2_pos 4503599627370496)) with 53.
           rewrite fexp_eq; lia.
        -- replace (e1 + 1 - e1) with 1 by lia. repeat split; lia.
      * destruct m' as [| q |] eqn:Hq; try lia.
        cbn [Zdigits2].
        assert (Hdq : Zpos (digits2_pos q) = 53) by (apply digits2_pos_unique; lia).
        rewrite Hdq. rewrite shr_nonpos by (rewrite fexp_eq; lia). cbn [shr_m].
        replace (e1 <=? 971) with true by (symmetry; apply Z.leb_le; lia).
        split.
        -- apply valid_finite; [rewrite Hdq, fexp_eq; lia | lia].
        -- rewrite Z.sub_diag. cbn [Z.pow]. repeat split; lia.
Qed.


(** *** Real values *)

Definition bpow (e : Z) : R := powerRZ 2 e.

Lemma bpow_pos (e : Z) : (0 < bpow e)%R.
Proof. apply powerRZ_lt. lra. Qed.

Lemma bpow_add (a b : Z) : bpow (a + b) = (bpow a * bpow b)%R.
Proof. apply powerRZ_add. lra. Qed.

Lemma bpow_IZR (e : Z) : 0 <= e -> bpow e = IZR (2 ^ e).
Proof.
  intros He. destruct e as [| p | p]; [reflexivity | | lia].
  symmetry. exact (Zpower_pos_powerRZ 2 p).
Qed.

Lemma bpow_le (a b : Z) : a <= b -> (bpow a <= bpow b)%R.
Proof.
  intros Hab. replace b with (a + (b - a)) by lia. rewrite bpow_add.
  assert (H1 : (1 <= bpow (b - a))%R).
  { rewrite bpow_IZR by lia. apply IZR_le.
    assert (0 < 2 ^ (b - a)) by (apply Z.pow_pos_nonneg; lia). lia. }
  pose proof (bpow_pos a). nra.
Qed.

Lemma bpow_lt (a b : Z) : a < b -> (bpow a < bpow b)%R.
Proof.
  intros Hab. replace b with (a + (b - a)) by lia. rewrite bpow_add.
  assert (H1 : (2 <= bpow (b - a))%R).
  { rewrite bpow_IZR by lia. apply IZR_le.
    change 2 with (2 ^ 1) at 1. apply Z.pow_le_mono_r; lia. }
  pose proof (bpow_pos a). nra.
Qed.

Lemma bpow_lt_inv (a b : Z) : (bpow a < bpow b)%R -> a < b.
Proof.
  intros H. destruct (Z_lt_le_dec a b) as [|Hle]; [assumption|].
  apply bpow_le in Hle. lra.
Qed.

Lemma bpow_1 : bpow 1 = 2%R.
Proof. exact (powerRZ_1 2). Qed.

Lemma bpow_pred (e : Z) : bpow (e - 1) = (bpow e / 2)%R.
Proof.
  replace e with ((e - 1) + 1) at 2 by lia. rewrite bpow_add, bpow_1. field.
Qed.

Definition SF2R (x : spec_float) : R :=
  match x with
  | S754_finite s m e => (IZR (cond_Zopp s (Zpos m)) * bpow e)%R
  | _ => 0%R
  end.

Definition is_finite_SF (x : spec_float) : bool :=
  match x with
  | S754_finite _ _ _ | S754_zero _ => true
  | _ => false
  end.

Lemma IZR_cond_Zopp (s : bool) (m : Z) :
  IZR (cond_Zopp s m) = ((if s then -1 else 1) * IZR m)%R.
Proof. destruct s; cbn [cond_Zopp]; [rewrite opp_IZR|]; lra. Qed.

Lemma Rabs_sign (s : bool) (x : R) : Rabs ((if s then -1 else 1) * x) = Rabs x.
Proof.
  destruct s; [replace (-1 * x)%R with (- x)%R by ring; apply Rabs_Ropp | f_equal; ring].
Qed.

Lemma represents_SF2R (s : bool) (m e : Z) (r : spec_float) :
  represents s m e r ->
  valid_binary r = true /\ is_finite_SF r = true /\
  SF2R r = (IZR (cond_Zopp s m) * bpow e)%R.
Proof.
  intros [Hv Hr]. split; [exact Hv|].
  destruct r as [s' | s' | | s' m' e']; try contradiction.
  - destruct Hr as [-> ->]. split; [reflexivity|]. cbn [SF2R].
    rewrite IZR_cond_Zopp. lra.
  - destruct Hr as (-> & He & ->). split; [reflexivity|]. cbn [SF2R].
    rewrite !IZR_cond_Zopp, mult_IZR, <- bpow_IZR by lia.
    replace e' with ((e' - e) + e) at 1 by lia. rewrite bpow_add. ring.
Qed.

(** [r] is a correct rounding of the real [v]: a valid finite number of the
    same sign, within half a unit in the last place. *)
Record rounded (v : R) (r : spec_float) : Prop := {
  rounded_valid : valid_binary r = true;
  rounded_finite : is_finite_SF r = true;
  rounded_normal :
    (bpow (-1022) <= Rabs v -> Rabs (SF2R r - v) <= bpow (-53) * Rabs v)%R;
  rounded_subnormal :
    (Rabs v < bpow (-1022) -> Rabs (SF2R r - v) <= bpow (-1075))%R;
  rounded_nonneg : (0 <= v -> 0 <= SF2R r)%R;
  rounded_nonpos : (v <= 0 -> SF2R r <= 0)%R
}.

Lemma binary_round_aux_rounded (sx : bool) (mx : positive) (ex : Z) :
  ex <= fexp prec emax (Zpos (digits2_pos mx) + ex) ->
  (IZR (Zpos mx) * bpow ex < bpow 1023)%R ->
  rounded (IZR (cond_Zopp sx (Zpos mx)) * bpow ex)
          (binary_round_aux prec emax sx (Zpos mx) ex loc_Exact).
Proof.
  intros Hex Hov.
  pose proof (digits2_pos_bounds mx) as [Hd1 Hd2].
  set (d := Zpos (digits2_pos mx)) in *.
  assert (Hlow : (bpow (d - 1 + ex) <= IZR (Zpos mx) * bpow ex)%R).
  { rewrite bpow_add, (bpow_IZR (d - 1)) by lia. apply IZR_le in Hd1.
    pose proof (bpow_pos ex). nra. }
  assert (Hupp : (IZR (Zpos mx) * bpow ex < bpow (d + ex))%R).
  { rewrite bpow_add, (bpow_IZR d) by lia. apply IZR_lt in Hd2.
    pose proof (bpow_pos ex). nra. }
  assert (Hov' : d + ex <= 1023).
  { assert (d - 1 + ex < 1023) by (apply bpow_lt_inv; lra). lia. }
  destruct (binary_round_aux_spec sx mx ex Hex Hov') as (m' & Hm' & Herr & _ & Hrep).
  fold d in Herr, Hrep. set (e1 := fexp prec emax (d + ex)) in *.
  apply represents_SF2R in Hrep. destruct Hrep as (Hv & Hf & Hval).
  assert (He1 : e1 = Z.max (d + ex - 53) (-1074)) by apply fexp_eq.
  assert (Hmag : (Rabs (IZR m' * bpow e1 - IZR (Zpos mx) * bpow ex) <= bpow e1 / 2)%R).
  { replace e1 with ((e1 - ex) + ex) by lia. rewrite bpow_add.
    replace (IZR m' * (bpow (e1 - ex) * bpow ex) - IZR (Zpos mx) * bpow ex)%R
      with ((IZR m' * bpow (e1 - ex) - IZR (Zpos mx)) * bpow ex)%R by ring.
    rewrite Rabs_mult, (Rabs_pos_eq (bpow ex)) by (left; apply bpow_pos).
    rewrite (bpow_IZR (e1 - ex)) by lia. rewrite <- mult_IZR, <- minus_IZR, <- abs_IZR.
    apply IZR_le in Herr. rewrite mult_IZR in Herr.
    pose proof (bpow_pos ex). nra. }
  assert (Habs : Rabs (IZR (cond_Zopp sx (Zpos mx)) * bpow ex) = (IZR (Zpos mx) * bpow ex)%R).
  { rewrite IZR_cond_Zopp, Rmult_assoc, Rabs_sign. pose proof (bpow_pos ex).
    assert (0 < IZR (Zpos mx))%R by (apply IZR_lt; lia).
    apply Rabs_pos_eq; nra. }
  assert (Hdiff : Rabs (SF2R (binary_round_aux prec emax sx (Zpos mx) ex loc_Exact)
                        - IZR (cond_Zopp sx (Zpos mx)) * bpow ex)
                  = Rabs (IZR m' * bpow e1 - IZR (Zpos mx) * bpow ex)).
  { rewrite Hval, !IZR_cond_Zopp.
    replace ((if sx then -1 else 1) * IZR m' * bpow e1
             - (if sx then -1 else 1) * IZR (Zpos mx) * bpow ex)%R
      with ((if sx then -1 else 1) * (IZR m' * bpow e1 - IZR (Zpos mx) * bpow ex))%R by ring.
    apply Rabs_sign. }
  split; try assumption.
  - rewrite Habs, Hdiff. intros Hn.
    assert (-1022 < d + ex) by (apply bpow_lt_inv; lra).
    assert (He : e1 = (-53) + (d - 1 + ex) + 1) by lia.
    eapply Rle_trans; [exact Hmag|].
    rewrite He, (bpow_add (-53 + (d - 1 + ex)) 1), (bpow_add (-53) (d - 1 + ex)), bpow_1.
    pose proof (bpow_pos (-53)). nra.
  - rewrite Habs, Hdiff. intros Hs.
    assert (d - 1 + ex < -1022) by (apply bpow_lt_inv; lra).
    assert (He : e1 = -1074) by lia.
    eapply Rle_trans; [exact Hmag|]. rewrite He.
    rewrite <- bpow_pred. apply Rle_refl.
  - rewrite Hval, !IZR_cond_Zopp. intros H0.
    pose proof (bpow_pos ex). pose proof (bpow_pos e1).
    assert (0 < IZR (Zpos mx))%R by (apply IZR_lt; lia).
    assert (0 <= IZR m')%R by (apply IZR_le; lia).
    destruct sx; nra.
  - rewrite Hval, !IZR_cond_Zopp. intros H0.
    pose proof (bpow_pos ex). pose proof (bpow_pos e1).
    assert (0 < IZR (Zpos mx))%R by (apply IZR_lt; lia).
    assert (0 <= IZR m')%R by (apply IZR_le; lia).
    destruct sx; nra.
Qed.


Lemma rounded_zero (s : bool) : rounded 0 (S754_zero s).
Proof.
  split; cbn [SF2R is_finite_SF]; try reflexivity; intros;
    rewrite ?Rminus_0_r, ?Rabs_R0; try lra.
  left. apply bpow_pos.
Qed.

Lemma rounded_exact (r : spec_float) :
  valid_binary r = true -> is_finite_SF r = true -> rounded (SF2R r) r.
Proof.
  intros Hv Hf. split; try assumption; intros; try lra;
    rewrite Rminus_diag, Rabs_R0.
  - pose proof (bpow_pos (-53)). pose proof (Rabs_pos (SF2R r)). nra.
  - left. apply bpow_pos.
Qed.

Lemma rounded_ext (v w : R) (r : spec_float) : v = w -> rounded v r -> rounded w r.
Proof. now intros ->. Qed.

(** Both regimes at once. *)
Lemma rounded_bound (v : R) (r : spec_float) :
  rounded v r -> (Rabs (SF2R r - v) <= bpow (-53) * Rabs v + bpow (-1075))%R.
Proof.
  intros H. pose proof (bpow_pos (-53)). pose proof (bpow_pos (-1075)).
  pose proof (Rabs_pos v).
  destruct (Rle_lt_dec (bpow (-1022)) (Rabs v)) as [Hn | Hs].
  - apply (rounded_normal _ _ H) in Hn. nra.
  - apply (rounded_subnormal _ _ H) in Hs. nra.
Qed.

Lemma valid_finite_inv (s : bool) (m : positive) (e : Z) :
  valid_binary (S754_finite s m e) = true ->
  e = Z.max (Zpos (digits2_pos m) + e - 53) (-1074) /\ e <= 971.
Proof.
  cbn [SpecFloat.valid_binary]. unfold SpecFloat.bounded, canonical_mantissa.
  rewrite andb_true_iff, Z.eqb_eq, Z.leb_le, fexp_eq. change (emax - prec) with 971. lia.
Qed.

Lemma pos_iter_xO (m d : positive) : Zpos (Pos.iter xO m d) = Zpos m * 2 ^ Zpos d.
Proof.
  induction d as [| d IH] using Pos.peano_ind.
  - cbn. lia.
  - rewrite Pos.iter_succ, (Pos2Z.inj_xO (Pos.iter xO m d)), IH, Pos2Z.inj_succ, Z.pow_succ_r by lia.
    ring.
Qed.

Lemma shl_align_spec (mx : positive) (ex ez : Z) :
  ez <= ex ->
  shl_align mx ex ez = (Z.to_pos (Zpos mx * 2 ^ (ex - ez)), ez) /\
  Zpos (fst (shl_align mx ex ez)) = Zpos mx * 2 ^ (ex - ez).
Proof.
  intros Hle. unfold shl_align.
  destruct (ez - ex) as [| d | d] eqn:Hd; try lia.
  - assert (ez = ex) by lia. subst ez. rewrite Z.sub_diag. cbn [Z.pow fst].
    rewrite Z.mul_1_r. cbn [Z.to_pos]. split; [reflexivity | lia].
  - replace (ex - ez) with (Zpos d) by lia. cbn [fst].
    rewrite <- pos_iter_xO. cbn [Z.to_pos]. split; reflexivity.
Qed.

Lemma digits2_pos_shift (m : positive) (k : Z) (q : positive) :
  0 <= k -> Zpos q = Zpos m * 2 ^ k ->
  Zpos (digits2_pos q) = Zpos (digits2_pos m) + k.
Proof.
  intros Hk Hq. apply digits2_pos_unique. rewrite Hq.
  pose proof (digits2_pos_bounds m) as [H1 H2].
  assert (0 < 2 ^ k) by (apply Z.pow_pos_nonneg; lia).
  replace (Zpos (digits2_pos m) + k - 1) with ((Zpos (digits2_pos m) - 1) + k) by lia.
  rewrite !Z.pow_add_r by lia. nia.
Qed.

Lemma binary_round_rounded (s : bool) (m : positive) (e : Z) :
  (IZR (Zpos m) * bpow e < bpow 1023)%R ->
  rounded (IZR (cond_Zopp s (Zpos m)) * bpow e) (binary_round prec emax s m e).
Proof.
  intros Hov. unfold binary_round.
  set (fe := fexp prec emax (Zpos (digits2_pos m) + e)).
  destruct (Z_lt_le_dec fe e) as [Hlt | Hle].
  - destruct (shl_align_spec m e fe ltac:(lia)) as [Heq _]. rewrite Heq.
    set (q := Z.to_pos (Zpos m * 2 ^ (e - fe))).
    assert (Hq : Zpos q = Zpos m * 2 ^ (e - fe)).
    { unfold q. rewrite Z2Pos.id; [reflexivity|].
      assert (0 < 2 ^ (e - fe)) by (apply Z.pow_pos_nonneg; lia). lia. }
    assert (Hval : forall b : bool,
               (IZR (cond_Zopp b (Zpos q)) * bpow fe = IZR (cond_Zopp b (Zpos m)) * bpow e)%R).
    { intros b. rewrite !IZR_cond_Zopp, Hq, mult_IZR, <- bpow_IZR by lia.
      replace e with ((e - fe) + fe) at 2 by lia. rewrite bpow_add. ring. }
    apply (rounded_ext _ _ _ (Hval s)). apply binary_round_aux_rounded.
    + rewrite (digits2_pos_shift m (e - fe) q) by (assumption || lia).
      replace (Zpos (digits2_pos m) + (e - fe) + fe) with (Zpos (digits2_pos m) + e) by lia.
      fold fe. lia.
    + specialize (Hval false). cbn [cond_Zopp] in Hval. rewrite Hval. exact Hov.
  - unfold shl_align. destruct (fe - e) as [| d | d] eqn:Hd; try lia;
      apply binary_round_aux_rounded; fold fe; (lia || assumption).
Qed.

Lemma binary_normalize_rounded (z e : Z) :
  (Rabs (IZR z * bpow e) < bpow 1023)%R ->
  rounded (IZR z * bpow e) (binary_normalize prec emax z e false).
Proof.
  intros Hov. pose proof (bpow_pos e) as He.
  destruct z as [| m | m]; cbn [binary_normalize].
  - rewrite Rmult_0_l. apply rounded_zero.
  - apply (binary_round_rounded false). rewrite Rabs_pos_eq in Hov; [exact Hov|].
    assert (0 < IZR (Zpos m))%R by (apply IZR_lt; lia). nra.
  - apply (binary_round_rounded true).
    change (Zneg m) with (- Zpos m) in Hov. rewrite opp_IZR in Hov.
    replace (- IZR (Zpos m) * bpow e)%R with (- (IZR (Zpos m) * bpow e))%R in Hov by ring.
    rewrite Rabs_Ropp, Rabs_pos_eq in Hov; [exact Hov|].
    assert (0 < IZR (Zpos m))%R by (apply IZR_lt; lia). nra.
Qed.


(** *** The operations of the specification *)

Lemma SF2R_finite_abs (s : bool) (m : positive) (e : Z) :
  Rabs (SF2R (S754_finite s m e)) = (IZR (Zpos m) * bpow e)%R.
Proof.
  cbn [SF2R]. rewrite IZR_cond_Zopp, Rmult_assoc, Rabs_sign.
  apply Rabs_pos_eq. pose proof (bpow_pos e).
  assert (0 < IZR (Zpos m))%R by (apply IZR_lt; lia). nra.
Qed.

Lemma cond_Zopp_xorb (a b : bool) (x y : Z) :
  (IZR (cond_Zopp a x) * IZR (cond_Zopp b y))%R = IZR (cond_Zopp (xorb a b) (x * y)).
Proof.
  rewrite !IZR_cond_Zopp, mult_IZR. destruct a, b; cbn [xorb]; ring.
Qed.

Lemma SFmul_rounded (x y : spec_float) :
  valid_binary x = true -> valid_binary y = true ->
  is_finite_SF x = true -> is_finite_SF y = true ->
  (Rabs (SF2R x * SF2R y) < bpow 1023)%R ->
  rounded (SF2R x * SF2R y) (SFmul prec emax x y).
Proof.
  intros Hvx Hvy Hfx Hfy Hov.
  destruct x as [sx | sx | | sx mx ex]; try discriminate;
    destruct y as [sy | sy | | sy my ey]; try discriminate;
    cbn [SFmul];
    try (apply (rounded_ext 0); [cbn [SF2R]; ring | apply rounded_zero]).
  assert (Hv : (SF2R (S754_finite sx mx ex) * SF2R (S754_finite sy my ey)
                = IZR (cond_Zopp (xorb sx sy) (Zpos (mx * my))) * bpow (ex + ey))%R).
  { cbn [SF2R]. rewrite Pos2Z.inj_mul, <- cond_Zopp_xorb, bpow_add. ring. }
  rewrite Hv in Hov |- *.
  apply valid_finite_inv in Hvx, Hvy. destruct Hvx as [Hcx _], Hvy as [Hcy _].
  pose proof (digits2_pos_bounds mx) as [Hx1 Hx2].
  pose proof (digits2_pos_bounds my) as [Hy1 Hy2].
  pose proof (digits2_pos_bounds (mx * my)) as [_ Hxy].
  set (dx := Zpos (digits2_pos mx)) in *. set (dy := Zpos (digits2_pos my)) in *.
  set (D := Zpos (digits2_pos (mx * my))) in *.
  assert (HD : dx + dy - 1 <= D).
  { assert (Hp : 2 ^ (dx - 1 + (dy - 1)) < 2 ^ D).
    { rewrite Z.pow_add_r by lia. rewrite Pos2Z.inj_mul in Hxy.
      assert (0 < 2 ^ (dx - 1)) by (apply Z.pow_pos_nonneg; lia).
      assert (0 < 2 ^ (dy - 1)) by (apply Z.pow_pos_nonneg; lia). nia. }
    apply Z.pow_lt_mono_r_iff in Hp; lia. }
  apply binary_round_aux_rounded.
  - fold D. rewrite fexp_eq. lia.
  - rewrite IZR_cond_Zopp, Rmult_assoc, Rabs_sign in Hov.
    rewrite Rabs_pos_eq in Hov; [exact Hov|].
    pose proof (bpow_pos (ex + ey)).
    assert (0 < IZR (Zpos (mx * my)))%R by (apply IZR_lt; lia). nra.
Qed.

(** The sum of two finite numbers, as an integer multiple of the smaller unit. *)
Lemma aligned_value (s : bool) (m : positive) (e ez : Z) :
  ez <= e ->
  (IZR (cond_Zopp s (Zpos (fst (shl_align m e ez)))) * bpow ez)%R
  = SF2R (S754_finite s m e).
Proof.
  intros Hle. destruct (shl_align_spec m e ez Hle) as [_ ->]. cbn [SF2R].
  rewrite !IZR_cond_Zopp, mult_IZR, <- bpow_IZR by lia.
  replace e with ((e - ez) + ez) at 2 by lia. rewrite bpow_add. ring.
Qed.

Lemma SFadd_rounded (x y : spec_float) :
  valid_binary x = true -> valid_binary y = true ->
  is_finite_SF x = true -> is_finite_SF y = true ->
  (Rabs (SF2R x + SF2R y) < bpow 1023)%R ->
  rounded (SF2R x + SF2R y) (SFadd prec emax x y).
Proof.
  intros Hvx Hvy Hfx Hfy Hov.
  destruct x as [sx | sx | | sx mx ex]; try discriminate;
    destruct y as [sy | sy | | sy my ey]; try discriminate;
    cbn [SFadd].
  - apply (rounded_ext 0); [cbn [SF2R]; ring|]. destruct sx, sy; apply rounded_zero.
  - apply (rounded_ext (SF2R (S754_finite sy my ey))); [cbn [SF2R]; ring|].
    now apply rounded_exact.
  - apply (rounded_ext (SF2R (S754_finite sx mx ex))); [cbn [SF2R]; ring|].
    now apply rounded_exact.
  - set (ez := Z.min ex ey).
    assert (Hv : (IZR (cond_Zopp sx (Zpos (fst (shl_align mx ex ez)))
                       + cond_Zopp sy (Zpos (fst (shl_align my ey ez)))) * bpow ez
                  = SF2R (S754_finite sx mx ex) + SF2R (S754_finite sy my ey))%R).
    { rewrite plus_IZR, Rmult_plus_distr_r, !aligned_value by (unfold ez; lia). reflexivity. }
    apply (rounded_ext _ _ _ Hv). apply binary_normalize_rounded. rewrite Hv. exact Hov.
Qed.

Lemma SFsub_rounded (x y : spec_float) :
  valid_binary x = true -> valid_binary y = true ->
  is_finite_SF x = true -> is_finite_SF y = true ->
  (Rabs (SF2R x - SF2R y) < bpow 1023)%R ->
  rounded (SF2R x - SF2R y) (SFsub prec emax x y).
Proof.
  intros Hvx Hvy Hfx Hfy Hov.
  destruct x as [sx | sx | | sx mx ex]; try discriminate;
    destruct y as [sy | sy | | sy my ey]; try discriminate;
    cbn [SFsub].
  - apply (rounded_ext 0); [cbn [SF2R]; ring|]. destruct sx, sy; apply rounded_zero.
  - apply (rounded_ext (SF2R (S754_finite (negb sy) my ey))).
    + cbn [SF2R]. rewrite !IZR_cond_Zopp. destruct sy; cbn [negb]; ring.
    + apply rounded_exact; [exact Hvy | reflexivity].
  - apply (rounded_ext (SF2R (S754_finite sx mx ex))); [cbn [SF2R]; ring|].
    now apply rounded_exact.
  - set (ez := Z.min ex ey).
    assert (Hv : (IZR (cond_Zopp sx (Zpos (fst (shl_align mx ex ez)))
                       - cond_Zopp sy (Zpos (fst (shl_align my ey ez)))) * bpow ez
                  = SF2R (S754_finite sx mx ex) - SF2R (S754_finite sy my ey))%R).
    { rewrite minus_IZR, Rmult_minus_distr_r, !aligned_value by (unfold ez; lia). reflexivity. }
    apply (rounded_ext _ _ _ Hv). apply binary_normalize_rounded. rewrite Hv. exact Hov.
Qed.


(** *** Comparison *)

Lemma canonical_lt (s1 s2 : bool) (m1 m2 : positive) (e1 e2 : Z) :
  valid_binary (S754_finite s1 m1 e1) = true ->
  valid_binary (S754_finite s2 m2 e2) = true ->
  e1 < e2 ->
  (IZR (Zpos m1) * bpow e1 < IZR (Zpos m2) * bpow e2)%R.
Proof.
  intros H1 H2 Hlt.
  apply valid_finite_inv in H1, H2. destruct H1 as [H1 _], H2 as [H2 _].
  pose proof (digits2_pos_bounds m1) as [_ Hu].
  pose proof (digits2_pos_bounds m2) as [Hl _].
  assert (Hd2 : Zpos (digits2_pos m2) = 53) by lia. rewrite Hd2 in Hl.
  assert (Hu' : Zpos m1 < 2 ^ 53).
  { eapply Z.lt_le_trans; [exact Hu|]. apply Z.pow_le_mono_r; lia. }
  apply IZR_lt in Hu'. apply IZR_le in Hl.
  rewrite <- (bpow_IZR 53) in Hu' by lia. rewrite <- (bpow_IZR (53 - 1)) in Hl by lia.
  pose proof (bpow_pos e1). pose proof (bpow_pos e2).
  assert (Hs : (bpow (53 + e1) <= bpow (53 - 1 + e2))%R) by (apply bpow_le; lia).
  rewrite !bpow_add in Hs. nra.
Qed.

Lemma SFcompare_finite (x y : spec_float) :
  valid_binary x = true -> valid_binary y = true ->
  is_finite_SF x = true -> is_finite_SF y = true ->
  match SFcompare x y with
  | Some Lt => (SF2R x < SF2R y)%R
  | Some Eq => SF2R x = SF2R y
  | Some Gt => (SF2R y < SF2R x)%R
  | None => False
  end.
Proof.
  intros Hvx Hvy Hfx Hfy.
  assert (Hpos : forall (s : bool) (m : positive) (e : Z),
             (0 < IZR (Zpos m) * bpow e)%R).
  { intros _ m e. pose proof (bpow_pos e).
    assert (0 < IZR (Zpos m))%R by (apply IZR_lt; lia). nra. }
  destruct x as [sx | sx | | sx mx ex]; try discriminate;
    destruct y as [sy | sy | | sy my ey]; try discriminate;
    cbn [SFcompare SF2R]; rewrite ?IZR_cond_Zopp.
  - reflexivity.
  - specialize (Hpos sy my ey). destruct sy; lra.
  - specialize (Hpos sx mx ex). destruct sx; lra.
  - pose proof (Hpos sx mx ex) as Hx. pose proof (Hpos sy my ey) as Hy.
    assert (Hcmp : match Z.compare ex ey with
                   | Lt => (IZR (Zpos mx) * bpow ex < IZR (Zpos my) * bpow ey)%R
                   | Gt => (IZR (Zpos my) * bpow ey < IZR (Zpos mx) * bpow ex)%R
                   | Eq => match Pos.compare_cont Eq mx my with
                           | Lt => (IZR (Zpos mx) * bpow ex < IZR (Zpos my) * bpow ey)%R
                           | Gt => (IZR (Zpos my) * bpow ey < IZR (Zpos mx) * bpow ex)%R
                           | Eq => (IZR (Zpos mx) * bpow ex = IZR (Zpos my) * bpow ey)%R
                           end
                   end).
    { destruct (Z.compare_spec ex ey) as [Heq | Hlt | Hgt].
      - subst ey. change (Pos.compare_cont Eq mx my) with (Pos.compare mx my).
        pose proof (bpow_pos ex).
        destruct (Pos.compare_spec mx my) as [-> | Hlt | Hgt].
        + reflexivity.
        + assert (IZR (Zpos mx) < IZR (Zpos my))%R by (apply IZR_lt; lia). nra.
        + assert (IZR (Zpos my) < IZR (Zpos mx))%R by (apply IZR_lt; lia). nra.
      - eapply canonical_lt; eassumption.
      - eapply canonical_lt; eassumption || lia. }
    destruct sx, sy; try lra;
      destruct (Z.compare ex ey); try lra;
      destruct (Pos.compare_cont Eq mx my); cbn [CompOpp]; lra.
Qed.

Lemma SFltb_finite (x y : spec_float) :
  valid_binary x = true -> valid_binary y = true ->
  is_finite_SF x = true -> is_finite_SF y = true ->
  SFltb x y = true <-> (SF2R x < SF2R y)%R.
Proof.
  intros Hvx Hvy Hfx Hfy. pose proof (SFcompare_finite x y Hvx Hvy Hfx Hfy) as H.
  unfold SFltb. destruct (SFcompare x y) as [[| |]|]; split; intros; try lra;
    try discriminate; try reflexivity; contradiction.
Qed.

Lemma SFleb_finite (x y : spec_float) :
  valid_binary x = true -> valid_binary y = true ->
  is_finite_SF x = true -> is_finite_SF y = true ->
  SFleb x y = true <-> (SF2R x <= SF2R y)%R.
Proof.
  intros Hvx Hvy Hfx Hfy. pose proof (SFcompare_finite x y Hvx Hvy Hfx Hfy) as H.
  unfold SFleb. destruct (SFcompare x y) as [[| |]|]; split; intros; try lra;
    try discriminate; try reflexivity; contradiction.
Qed.

(** *** Primitive floats *)

Definition B2R (f : float) : R := SF2R (Prim2SF f).
Definition finite (f : float) : Prop := is_finite_SF (Prim2SF f) = true.

Lemma mul_rounded (x y : float) :
  finite x -> finite y -> (Rabs (B2R x * B2R y) < bpow 1023)%R ->
  rounded (B2R x * B2R y) (Prim2SF (x * y)).
Proof.
  intros Hx Hy Hov. rewrite mul_spec.
  apply SFmul_rounded; auto using Prim2SF_valid.
Qed.

Lemma add_rounded (x y : float) :
  finite x -> finite y -> (Rabs (B2R x + B2R y) < bpow 1023)%R ->
  rounded (B2R x + B2R y) (Prim2SF (x + y)).
Proof.
  intros Hx Hy Hov. rewrite add_spec.
  apply SFadd_rounded; auto using Prim2SF_valid.
Qed.

Lemma sub_rounded (x y : float) :
  finite x -> finite y -> (Rabs (B2R x - B2R y) < bpow 1023)%R ->
  rounded (B2R x - B2R y) (Prim2SF (x - y)).
Proof.
  intros Hx Hy Hov. rewrite sub_spec.
  apply SFsub_rounded; auto using Prim2SF_valid.
Qed.

Lemma ltb_finite (x y : float) :
  finite x -> finite y -> ((x <? y)%float = true <-> (B2R x < B2R y)%R).
Proof.
  intros Hx Hy. rewrite ltb_spec. apply SFltb_finite; auto using Prim2SF_valid.
Qed.

Lemma leb_finite (x y : float) :
  finite x -> finite y -> ((x <=? y)%float = true <-> (B2R x <= B2R y)%R).
Proof.
  intros Hx Hy. rewrite leb_spec. apply SFleb_finite; auto using Prim2SF_valid.
Qed.

Lemma is_infinity_finite (x : float) : finite x -> is_infinity x = false.
Proof.
  unfold finite, is_infinity. rewrite FloatAxioms.eqb_spec, abs_spec.
  change (Prim2SF infinity) with (S754_infinity false).
  destruct (Prim2SF x) as [s | s | | s m e]; try discriminate; reflexivity.
Qed.

Lemma is_zero_spec (x : float) :
  is_zero x = match Prim2SF x with S754_zero _ => true | _ => false end.
Proof.
  unfold is_zero. rewrite FloatAxioms.eqb_spec. change (Prim2SF zero) with (S754_zero false).
  destruct (Prim2SF x) as [s | [|] | | [|] m e]; reflexivity.
Qed.


(** *** Division: the quotient of finite numbers is finite

    For the division only this much is needed: no value is derived, just
    that a quotient below [2 ^ 1023] is a valid finite number. *)

Lemma shr_1_m (mrs : shr_record) :
  0 <= shr_m mrs -> 0 <= shr_m (shr_1 mrs) /\ shr_m (shr_1 mrs) = shr_m mrs / 2.
Proof.
  destruct mrs as [[| [p | p |] | p] r s]; cbn [shr_m shr_1]; intros H;
    rewrite ?(Pos2Z.inj_xI p), ?(Pos2Z.inj_xO p); try lia;
    (split; [lia|]).
  - reflexivity.
  - apply Z.div_unique with 1; lia.
  - apply Z.div_unique with 0; lia.
  - reflexivity.
Qed.

Lemma div_pow2_pow2 (a x y : Z) :
  0 <= x -> 0 <= y -> a / 2 ^ x / 2 ^ y = a / 2 ^ (x + y).
Proof.
  intros Hx Hy.
  assert (0 < 2 ^ x) by (apply Z.pow_pos_nonneg; lia).
  assert (0 < 2 ^ y) by (apply Z.pow_pos_nonneg; lia).
  rewrite Z.div_div by lia. now rewrite Z.pow_add_r.
Qed.

Lemma shr_m_iter (p : positive) (mrs : shr_record) :
  0 <= shr_m mrs ->
  0 <= shr_m (SpecFloat.iter_pos shr_1 p mrs) /\
  shr_m (SpecFloat.iter_pos shr_1 p mrs) = shr_m mrs / 2 ^ Zpos p.
Proof.
  revert mrs. induction p as [p IH | p IH |]; intros mrs H; cbn [SpecFloat.iter_pos].
  - destruct (shr_1_m mrs H) as [H1 E1].
    destruct (IH _ H1) as [H2 E2]. destruct (IH _ H2) as [H3 E3].
    split; [exact H3|]. rewrite E3, E2, E1.
    change 2 with (2 ^ 1) at 1. rewrite !div_pow2_pow2 by lia.
    f_equal. f_equal. lia.
  - destruct (IH _ H) as [H2 E2]. destruct (IH _ H2) as [H3 E3].
    split; [exact H3|]. rewrite E3, E2.
    rewrite !div_pow2_pow2 by lia. f_equal. f_equal. lia.
  - destruct (shr_1_m mrs H) as [H1 E1]. split; [exact H1|]. exact E1.
Qed.

Lemma round_nearest_even_bounds (m : Z) (l : location) :
  m <= round_nearest_even m l <= m + 1.
Proof.
  destruct l as [| [| |]]; cbn [round_nearest_even]; try destruct (Z.even m); lia.
Qed.

Lemma Zdigits2_bounds (m : Z) :
  0 <= m -> 0 <= Zdigits2 m /\ m < 2 ^ Zdigits2 m /\ (0 < m -> 2 ^ (Zdigits2 m - 1) <= m).
Proof.
  destruct m as [| p | p]; cbn [Zdigits2]; intros H; try lia.
  pose proof (digits2_pos_bounds p). lia.
Qed.

Lemma represents_finite (s : bool) (m e : Z) (r : spec_float) :
  represents s m e r -> valid_binary r = true /\ is_finite_SF r = true.
Proof.
  intros [Hv Hr]. split; [exact Hv|].
  destruct r; try contradiction; reflexivity.
Qed.

(** The second step of [binary_round_aux]: a mantissa of at most 53 bits,
    or exactly [2 ^ 53] after a carry, at its exponent. *)
Lemma round_aux_normalize (sx : bool) (m e : Z) :
  0 <= m ->
  (2 ^ 52 <= m <= 2 ^ 53 /\ -1074 <= e <= 970) \/ (m <= 2 ^ 52 /\ e = -1074) ->
  represents sx m e
    (let '(mrs, e') := shr_fexp prec emax m e loc_Exact in
     match shr_m mrs with
     | Z0 => S754_zero sx
     | Zpos p => if e' <=? 971 then S754_finite sx p e' else S754_infinity sx
     | Zneg _ => S754_nan
     end).
Proof.
  intros Hm Hcase. unfold shr_fexp. cbn [shr_record_of_loc].
  destruct m as [| q |]; try lia.
  - cbn [Zdigits2]. rewrite shr_nonpos by (rewrite fexp_eq; lia). cbn [shr_m].
    split; [reflexivity|]. split; reflexivity.
  - cbn [Zdigits2]. pose proof (digits2_pos_bounds q) as Hdq.
    destruct (Z.eq_dec (Zpos q) (2 ^ 53)) as [Hcarry | Hnc].
    + destruct Hcase as [[_ He] | [Hle _]]; [|rewrite Hcarry in Hle; cbn in Hle; lia].
      change (2 ^ 53) with (Zpos 9007199254740992) in Hcarry.
      injection Hcarry as ->.
      change (Zpos (digits2_pos 9007199254740992)) with 54.
      rewrite fexp_eq. replace (Z.max (54 + e - 53) (-1074) - e) with 1 by lia.
      cbn [shr SpecFloat.iter_pos shr_1 shr_m].
      replace (e + 1 <=? 971) with true by (symmetry; apply Z.leb_le; lia).
      split.
      * apply valid_finite; [|lia].
        change (Zpos (digits2_pos 4503599627370496)) with 53. rewrite fexp_eq; lia.
      * replace (e + 1 - e) with 1 by lia. repeat split; lia.
    + assert (Hd53 : Zpos (digits2_pos q) <= 53).
      { destruct (Z_lt_le_dec 53 (Zpos (digits2_pos q))) as [H53|]; [|lia].
        assert (2 ^ 53 <= 2 ^ (Zpos (digits2_pos q) - 1)) by (apply Z.pow_le_mono_r; lia).
        assert (Zpos q <= 2 ^ 53) by (destruct Hcase as [[[_ ?] _] | [? _]]; [lia|];
          assert (2 ^ 52 <= 2 ^ 53) by (apply Z.pow_le_mono_r; lia); lia).
        lia. }
      assert (He : fexp prec emax (Zpos (digits2_pos q) + e) = e /\ e <= 971).
      { rewrite fexp_eq. destruct Hcase as [[[Hl _] He] | [_ ->]]; [|lia].
        assert (Zpos (digits2_pos q) = 53); [|lia].
        destruct (Z_lt_le_dec (Zpos (digits2_pos q)) 53) as [Hlt|]; [|lia].
        assert (2 ^ Zpos (digits2_pos q) <= 2 ^ 52) by (apply Z.pow_le_mono_r; lia).
        lia. }
      destruct He as [He1 He2].
      rewrite shr_nonpos by lia. cbn [shr_m].
      replace (e <=? 971) with true by (symmetry; apply Z.leb_le; lia).
      split; [now apply valid_finite|].
      rewrite Z.sub_diag. cbn [Z.pow]. repeat split; lia.
Qed.

Lemma binary_round_aux_finite (sx : bool) (mx ex : Z) (lx : location) :
  0 <= mx ->
  ex <= fexp prec emax (Zdigits2 mx + ex) ->
  Zdigits2 mx + ex <= 1023 ->
  valid_binary (binary_round_aux prec emax sx mx ex lx) = true /\
  is_finite_SF (binary_round_aux prec emax sx mx ex lx) = true.
Proof.
  intros Hmx Hex Hov.
  destruct (Zdigits2_bounds mx Hmx) as (Hd0 & Hdu & Hdl).
  set (d := Zdigits2 mx) in *. set (e1 := fexp prec emax (d + ex)) in *.
  assert (He1 : e1 = Z.max (d + ex - 53) (-1074)) by apply fexp_eq.
  cut (exists m', represents sx m' e1 (binary_round_aux prec emax sx mx ex lx)).
  { intros (m' & H). exact (represents_finite _ _ _ _ H). }
  unfold binary_round_aux. change (emax - prec) with 971.
  unfold shr_fexp at 1. fold d. fold e1.
  assert (Hstage1 : exists mrs, shr (shr_record_of_loc mx lx) ex (e1 - ex) = (mrs, e1) /\
                                shr_m mrs = mx / 2 ^ (e1 - ex)).
  { assert (Hloc : shr_m (shr_record_of_loc mx lx) = mx)
      by (destruct lx as [| [| |]]; reflexivity).
    destruct (e1 - ex) as [| p |] eqn:Hp; try lia.
    - exists (shr_record_of_loc mx lx). cbn [shr]. split; [f_equal; lia|].
      rewrite Hloc, Z.pow_0_r, Z.div_1_r. reflexivity.
    - cbn [shr]. eexists. split; [f_equal; lia|].
      destruct (shr_m_iter p (shr_record_of_loc mx lx)) as [_ E];
        [rewrite Hloc; exact Hmx|].
      rewrite E, Hloc. reflexivity. }
  destruct Hstage1 as (mrs & -> & Hm1).
  pose proof (round_nearest_even_bounds (shr_m mrs) (loc_of_shr_record mrs)) as Hm2.
  set (m' := round_nearest_even (shr_m mrs) (loc_of_shr_record mrs)) in *.
  assert (Hpk : 0 < 2 ^ (e1 - ex)) by (apply Z.pow_pos_nonneg; lia).
  assert (Hm1' : 0 <= shr_m mrs) by (rewrite Hm1; apply Z.div_pos; lia).
  exists m'. apply round_aux_normalize; [lia|].
  destruct (Z_lt_le_dec (d + ex - 53) (-1074)) as [Hsub | Hnor].
  - right. split; [|lia].
    assert (shr_m mrs < 2 ^ 52); [|lia].
    rewrite Hm1. apply Z.div_lt_upper_bound; [lia|].
    rewrite <- Z.pow_add_r by lia.
    eapply Z.lt_le_trans; [exact Hdu|]. apply Z.pow_le_mono_r; lia.
  - left. split; [|lia].
    assert (Hd53 : 53 <= d) by lia.
    assert (0 < mx).
    { destruct (Z.eq_dec mx 0) as [-> |]; [|lia]. cbn in d. subst d. lia. }
    specialize (Hdl H).
    assert (2 ^ 52 <= shr_m mrs < 2 ^ 53); [|lia].
    rewrite Hm1. split.
    + apply Z.div_le_lower_bound; [lia|].
      rewrite <- Z.pow_add_r by lia. replace (e1 - ex + 52) with (d - 1) by lia. exact Hdl.
    + apply Z.div_lt_upper_bound; [lia|].
      rewrite <- Z.pow_add_r by lia. replace (e1 - ex + 53) with d by lia. exact Hdu.
Qed.

Lemma shiftl_match (m s : Z) :
  0 <= s ->
  match s with Zpos _ => Z.shiftl m s | Z0 => m | Zneg _ => 0 end = m * 2 ^ s.
Proof.
  intros Hs. destruct s as [| p | p]; [rewrite Z.pow_0_r; lia | | lia].
  apply Z.shiftl_mul_pow2. lia.
Qed.

Lemma SFdiv_core_binary_spec (m1 m2 : positive) (e1 e2 : Z) :
  exists (q e' : Z) (l : location),
    SFdiv_core_binary prec emax (Zpos m1) e1 (Zpos m2) e2 = (q, e', l) /\
    0 <= q /\
    e' <= fexp prec emax (Zdigits2 q + e') /\
    (IZR q * bpow e' * (IZR (Zpos m2) * bpow e2) <= IZR (Zpos m1) * bpow e1)%R.
Proof.
  unfold SFdiv_core_binary. cbn [Zdigits2].
  pose proof (digits2_pos_bounds m1) as [Hl1 Hu1].
  pose proof (digits2_pos_bounds m2) as [Hl2 Hu2].
  set (d1 := Zpos (digits2_pos m1)) in *. set (d2 := Zpos (digits2_pos m2)) in *.
  set (e' := Z.min (fexp prec emax (d1 + e1 - (d2 + e2))) (e1 - e2)).
  assert (He' : e' <= e1 - e2) by (unfold e'; lia).
  assert (HeM : e' <= fexp prec emax (d1 + e1 - (d2 + e2))) by (unfold e'; lia).
  rewrite fexp_eq in HeM.
  set (s := e1 - e2 - e'). assert (Hs : 0 <= s) by (unfold s; lia).
  set (m' := match s with Zpos _ => Z.shiftl (Zpos m1) s | Z0 => Zpos m1 | Zneg _ => 0 end).
  assert (Hm' : m' = Zpos m1 * 2 ^ s) by (apply shiftl_match; exact Hs).
  assert (Hps : 0 < 2 ^ s) by (apply Z.pow_pos_nonneg; lia).
  pose proof (Z_div_mod m' (Zpos m2) ltac:(lia)) as Hdm.
  destruct (Z.div_eucl m' (Zpos m2)) as [q r]. destruct Hdm as [Hq Hr].
  assert (Hq0 : 0 <= q) by nia.
  exists q, e', (new_location (Zpos m2) r). split; [reflexivity|].
  split; [exact Hq0|]. split.
  - rewrite fexp_eq.
    destruct (Z_le_gt_dec e' (-1074)) as [Hsmall | Hbig]; [lia|].
    assert (HM : e' <= d1 + e1 - (d2 + e2) - 53) by lia.
    assert (Hk : 52 <= d1 - 1 + s - d2) by (unfold s; lia).
    assert (Hqlow : 2 ^ (d1 - 1 + s - d2) <= q).
    { assert (H1 : 2 ^ (d1 - 1 + s - d2) * 2 ^ d2 = 2 ^ (d1 - 1) * 2 ^ s).
      { rewrite <- !Z.pow_add_r by lia. f_equal. lia. }
      assert (0 < 2 ^ (d1 - 1 + s - d2)) by (apply Z.pow_pos_nonneg; lia).
      nia. }
    destruct (Zdigits2_bounds q Hq0) as (_ & Hqu & _).
    assert (d1 - 1 + s - d2 < Zdigits2 q).
    { apply (Z.pow_lt_mono_r_iff 2); try lia.
      destruct (Z_le_gt_dec 0 (Zdigits2 q)); [lia|].
      rewrite Z.pow_neg_r in Hqu by lia. lia. }
    unfold s in *. lia.
  - assert (Hle : q * Zpos m2 <= Zpos m1 * 2 ^ s) by lia.
    apply IZR_le in Hle. rewrite !mult_IZR, <- (bpow_IZR s) in Hle by lia.
    assert (Hb : bpow e1 = (bpow s * bpow e' * bpow e2)%R)
      by (rewrite <- !bpow_add; f_equal; unfold s; lia).
    rewrite Hb. pose proof (bpow_pos e'). pose proof (bpow_pos e2).
    assert (0 < bpow e' * bpow e2)%R by nra.
    replace (IZR q * bpow e' * (IZR (Zpos m2) * bpow e2))%R
      with ((IZR q * IZR (Zpos m2)) * (bpow e' * bpow e2))%R by ring.
    replace (IZR (Zpos m1) * (bpow s * bpow e' * bpow e2))%R
      with ((IZR (Zpos m1) * bpow s) * (bpow e' * bpow e2))%R by ring.
    apply Rmult_le_compat_r; lra.
Qed.

Lemma SFdiv_finite (x y : spec_float) :
  is_finite_SF x = true ->
  match y with S754_finite _ _ _ => True | _ => False end ->
  (Rabs (SF2R x) < bpow 1023 * Rabs (SF2R y))%R ->
  valid_binary (SFdiv prec emax x y) = true /\
  is_finite_SF (SFdiv prec emax x y) = true.
Proof.
  intros Hx Hy Hov.
  destruct y as [| | | sy my ey]; try contradiction.
  destruct x as [sx | | | sx mx ex]; try discriminate; cbn [SFdiv].
  - split; reflexivity.
  - destruct (SFdiv_core_binary_spec mx my ex ey) as (q & e' & l & -> & Hq & Hpre & Hval).
    apply binary_round_aux_finite; try assumption.
    rewrite !SF2R_finite_abs in Hov.
    destruct (Zdigits2_bounds q Hq) as (Hd0 & _ & Hdl).
    destruct (Z.eq_dec q 0) as [-> | Hnz].
    + cbn [Zdigits2] in *. rewrite fexp_eq in Hpre. lia.
    + specialize (Hdl ltac:(lia)).
      assert (Hd1 : 1 <= Zdigits2 q) by (destruct q; cbn [Zdigits2]; lia).
      assert (Hy0 : (0 < IZR (Zpos my) * bpow ey)%R).
      { pose proof (bpow_pos ey). assert (0 < IZR (Zpos my))%R by (apply IZR_lt; lia). nra. }
      assert (Hlow : (bpow (Zdigits2 q - 1 + e') <= IZR q * bpow e')%R).
      { rewrite bpow_add, (bpow_IZR (Zdigits2 q - 1)) by lia. apply IZR_le in Hdl.
        pose proof (bpow_pos e'). nra. }
      assert (Hlt : (bpow (Zdigits2 q - 1 + e') < bpow 1023)%R).
      { apply (Rmult_lt_reg_r (IZR (Zpos my) * bpow ey)); [exact Hy0|].
        eapply Rle_lt_trans; [|exact Hov].
        eapply Rle_trans; [|exact Hval].
        apply Rmult_le_compat_r; lra. }
      apply bpow_lt_inv in Hlt. lia.
Qed.

Lemma div_finite (x y : float) :
  finite x -> finite y -> is_zero y = false ->
  (Rabs (B2R x) < bpow 1023 * Rabs (B2R y))%R ->
  finite (x / y).
Proof.
  unfold finite, B2R. intros Hx Hy Hz Hov. rewrite div_spec.
  rewrite is_zero_spec in Hz.
  apply SFdiv_finite; try assumption.
  destruct (Prim2SF y); try discriminate; exact I.
Qed.

(** *** Zeros *)

Lemma SFeqb_refl (x : spec_float) : is_finite_SF x = true -> SFeqb x x = true.
Proof.
  destruct x as [s | s | | s m e]; try discriminate; intros _; unfold SFeqb; cbn [SFcompare].
  - reflexivity.
  - rewrite Z.compare_refl.
    change (Pos.compare_cont Eq m m) with (Pos.compare m m). rewrite Pos.compare_refl.
    destruct s; reflexivity.
Qed.

Definition is_zero_SF (x : spec_float) : bool :=
  match x with S754_zero _ => true | _ => false end.

Lemma zero_mul (z y : float) :
  is_zero_SF (Prim2SF z) = true -> finite y -> is_zero_SF (Prim2SF (z * y)) = true.
Proof.
  unfold finite. rewrite mul_spec.
  destruct (Prim2SF z); try discriminate. destruct (Prim2SF y); try discriminate; reflexivity.
Qed.

Lemma zero_div (z y : float) :
  is_zero_SF (Prim2SF z) = true -> finite y -> is_zero y = false ->
  is_zero_SF (Prim2SF (z / y)) = true.
Proof.
  unfold finite. rewrite div_spec, is_zero_spec.
  destruct (Prim2SF z); try discriminate. destruct (Prim2SF y); try discriminate; reflexivity.
Qed.

(** Adding a zero changes nothing (up to the sign of a zero). *)
Lemma zero_add (z x : float) :
  is_zero_SF (Prim2SF z) = true -> finite x -> (z + x =? x)%float = true.
Proof.
  unfold finite. intros Hz Hx. rewrite FloatAxioms.eqb_spec, add_spec.
  destruct (Prim2SF z) as [sz | | |]; try discriminate.
  destruct (Prim2SF x) as [sx | sx | | sx mx ex] eqn:Ex; try discriminate.
  - destruct sz, sx; reflexivity.
  - cbn [SFadd]. now apply SFeqb_refl.
Qed.

Lemma sub_finite_inv (x y : float) : finite (x - y) -> finite x /\ finite y.
Proof.
  unfold finite. rewrite sub_spec.
  destruct (Prim2SF x) as [sx | [|] | | sx mx ex], (Prim2SF y) as [sy | [|] | | sy my ey];
    cbn [SFsub is_finite_SF]; try discriminate; auto.
Qed.

Lemma B2R_nonzero (x : float) : finite x -> B2R x <> 0%R -> is_zero x = false.
Proof.
  unfold finite, B2R. rewrite is_zero_spec.
  destruct (Prim2SF x); try discriminate; cbn [SF2R]; intros _ H; try reflexivity.
  now contradiction H.
Qed.

(** *** Division: the quotient is correctly rounded

    The quotient of two mantissas is not an integer: the numerator [n] counts
    in units of [1 / c], and the round and sticky bits locate the remainder
    within one unit of the shifted mantissa. *)

Definition scaled (c n k : Z) (mrs : shr_record) : Prop :=
  exists rem,
    n = shr_m mrs * (2 ^ k * c) + rem /\ 0 <= rem < 2 ^ k * c /\ 0 <= shr_m mrs /\
    (shr_r mrs = true <-> 2 ^ k * c <= 2 * rem) /\
    (shr_s mrs = true <-> rem <> 0 /\ 2 * rem <> 2 ^ k * c).

Lemma scaled_shr_1 (c n k : Z) (mrs : shr_record) :
  0 <= k -> scaled c n k mrs -> scaled c n (k + 1) (shr_1 mrs).
Proof.
  intros Hk (rem & Hm & Hrem & Hpos & Hr & Hs).
  destruct mrs as [mk r s]. cbn [shr_m shr_r shr_s] in *.
  assert (Hrs : orb r s = true <-> rem <> 0).
  { rewrite orb_true_iff, Hr, Hs. lia. }
  unfold scaled.
  assert (E : 2 ^ (k + 1) * c = 2 * (2 ^ k * c)).
  { rewrite Z.pow_add_r by lia. change (2 ^ 1) with 2. ring. }
  rewrite E. remember (2 ^ k * c) as pk eqn:Hpk; clear Hpk E.
  destruct mk as [| [p | p |] | p]; cbn [shr_1 shr_m shr_r shr_s]; try lia.
  - exists rem. rewrite Hrs. repeat split; try lia; try discriminate.
  - exists (pk + rem). rewrite (Pos2Z.inj_xI p) in Hm. rewrite Hrs.
    repeat split; try lia.
  - exists rem. rewrite (Pos2Z.inj_xO p) in Hm. rewrite Hrs.
    repeat split; try lia; try discriminate.
  - exists (pk + rem). rewrite Hrs.
    repeat split; try lia.
Qed.

Lemma scaled_iter_pos (c n k : Z) (p : positive) (mrs : shr_record) :
  0 <= k -> scaled c n k mrs -> scaled c n (k + Zpos p) (SpecFloat.iter_pos shr_1 p mrs).
Proof.
  revert k mrs. induction p as [p IH | p IH |]; intros k mrs Hk H; cbn [SpecFloat.iter_pos].
  - replace (k + Zpos p~1) with (k + 1 + Zpos p + Zpos p) by lia.
    apply IH; [lia|]. apply IH; [lia|]. now apply scaled_shr_1.
  - replace (k + Zpos p~0) with (k + Zpos p + Zpos p) by lia.
    apply IH; [lia|]. now apply IH.
  - now apply scaled_shr_1.
Qed.

Lemma round_nearest_even_scaled (c n k : Z) (mrs : shr_record) :
  scaled c n k mrs ->
  let m' := round_nearest_even (shr_m mrs) (loc_of_shr_record mrs) in
  shr_m mrs <= m' <= shr_m mrs + 1 /\
  2 * Z.abs (m' * (2 ^ k * c) - n) <= 2 ^ k * c.
Proof.
  intros (rem & Hm & Hrem & Hpos & Hr & Hs).
  remember (2 ^ k * c) as pk eqn:Hpk; clear Hpk.
  destruct mrs as [mk r s]; cbn [shr_m shr_r shr_s loc_of_shr_record] in *.
  assert (Hr1 : r = true -> pk <= 2 * rem) by apply Hr.
  assert (Hr0 : r = false -> 2 * rem < pk).
  { intros ->. destruct (Z_lt_le_dec (2 * rem) pk) as [|Hle]; [assumption|].
    apply Hr in Hle. discriminate. }
  assert (Hs1 : s = true -> rem <> 0 /\ 2 * rem <> pk) by apply Hs.
  assert (Hs0 : s = false -> rem = 0 \/ 2 * rem = pk).
  { intros ->. destruct (Z.eq_dec rem 0) as [|Hn0]; [now left|].
    destruct (Z.eq_dec (2 * rem) pk) as [|Hne]; [now right|].
    assert (false = true) by (apply Hs; split; assumption). discriminate. }
  clear Hr Hs.
  destruct r, s; cbn [round_nearest_even];
    specialize (Hr1 eq_refl) || specialize (Hr0 eq_refl);
    specialize (Hs1 eq_refl) || specialize (Hs0 eq_refl);
    try destruct (Z.even mk); repeat split; try lia.
Qed.

(** The location of a remainder [r] of a division by [c]. *)
Lemma scaled_new_location (c n q r : Z) :
  n = q * c + r -> 0 <= r < c -> 0 <= q ->
  scaled c n 0 (shr_record_of_loc q (new_location c r)).
Proof.
  intros Hn Hr Hq. exists r. rewrite Z.pow_0_r, Z.mul_1_l.
  assert (Hm : shr_m (shr_record_of_loc q (new_location c r)) = q).
  { destruct (new_location c r) as [| [| |]]; reflexivity. }
  rewrite Hm. split; [exact Hn|]. split; [exact Hr|]. split; [exact Hq|].
  unfold new_location, new_location_even, new_location_odd.
  destruct (Z.even c) eqn:Heven; destruct (Z.eqb_spec r 0) as [-> | Hnz];
    cbn [shr_record_of_loc shr_r shr_s].
  - split; split; try discriminate; lia.
  - destruct (Z.compare_spec (2 * r) c); cbn [shr_record_of_loc shr_r shr_s];
      split; split; try discriminate; try reflexivity; try lia.
  - split; split; try discriminate; lia.
  - assert (Hodd : 2 * r <> c).
    { intros <-. rewrite Z.even_mul in Heven. discriminate. }
    destruct (Z.compare_spec (2 * r + 1) c); cbn [shr_record_of_loc shr_r shr_s];
      split; split; try discriminate; try reflexivity; try lia.
Qed.

Lemma binary_round_aux_scaled (sx : bool) (c n mx ex : Z) (lx : location) :
  scaled c n 0 (shr_record_of_loc mx lx) ->
  ex <= fexp prec emax (Zdigits2 mx + ex) ->
  Zdigits2 mx + ex <= 1023 ->
  exists m' : Z,
    0 <= m' /\
    2 * Z.abs (m' * (2 ^ (fexp prec emax (Zdigits2 mx + ex) - ex) * c) - n)
    <= 2 ^ (fexp prec emax (Zdigits2 mx + ex) - ex) * c /\
    represents sx m' (fexp prec emax (Zdigits2 mx + ex))
               (binary_round_aux prec emax sx mx ex lx).
Proof.
  intros Hsc Hex Hov.
  assert (Hloc : shr_m (shr_record_of_loc mx lx) = mx)
    by (destruct lx as [| [| |]]; reflexivity).
  assert (Hmx : 0 <= mx).
  { destruct Hsc as (rem & _ & _ & H & _). now rewrite Hloc in H. }
  destruct (Zdigits2_bounds mx Hmx) as (Hd0 & Hdu & Hdl).
  set (d := Zdigits2 mx) in *. set (e1 := fexp prec emax (d + ex)) in *.
  assert (He1 : e1 = Z.max (d + ex - 53) (-1074)) by apply fexp_eq.
  unfold binary_round_aux. change (emax - prec) with 971.
  unfold shr_fexp at 1. fold d. fold e1.
  assert (Hstage1 : exists mrs, shr (shr_record_of_loc mx lx) ex (e1 - ex) = (mrs, e1) /\
                                shr_m mrs = mx / 2 ^ (e1 - ex) /\
                                scaled c n (e1 - ex) mrs).
  { destruct (e1 - ex) as [| p |] eqn:Hp; try lia.
    - exists (shr_record_of_loc mx lx). cbn [shr]. split; [f_equal; lia|].
      rewrite Hloc, Z.pow_0_r, Z.div_1_r. split; [reflexivity | exact Hsc].
    - cbn [shr]. eexists. split; [f_equal; lia|].
      destruct (shr_m_iter p (shr_record_of_loc mx lx)) as [_ E];
        [rewrite Hloc; exact Hmx|].
      rewrite E, Hloc. split; [reflexivity|].
      change (Zpos p) with (0 + Zpos p). apply scaled_iter_pos; [lia | exact Hsc]. }
  destruct Hstage1 as (mrs & -> & Hm1 & Hsc1).
  destruct (round_nearest_even_scaled c n (e1 - ex) mrs Hsc1) as [Hm2 Herr].
  set (m' := round_nearest_even (shr_m mrs) (loc_of_shr_record mrs)) in *.
  assert (Hpk : 0 < 2 ^ (e1 - ex)) by (apply Z.pow_pos_nonneg; lia).
  assert (Hm1' : 0 <= shr_m mrs) by (rewrite Hm1; apply Z.div_pos; lia).
  exists m'. split; [lia|]. split; [exact Herr|].
  apply round_aux_normalize; [lia|].
  destruct (Z_lt_le_dec (d + ex - 53) (-1074)) as [Hsub | Hnor].
  - right. split; [|lia].
    assert (shr_m mrs < 2 ^ 52); [|lia].
    rewrite Hm1. apply Z.div_lt_upper_bound; [lia|].
    rewrite <- Z.pow_add_r by lia.
    eapply Z.lt_le_trans; [exact Hdu|]. apply Z.pow_le_mono_r; lia.
  - left. split; [|lia].
    assert (Hd53 : 53 <= d) by lia.
    assert (0 < mx).
    { destruct (Z.eq_dec mx 0) as [E |]; [|lia]. unfold d in Hd53. rewrite E in Hd53.
      cbn in Hd53. lia. }
    specialize (Hdl H).
    assert (2 ^ 52 <= shr_m mrs < 2 ^ 53); [|lia].
    rewrite Hm1. split.
    + apply Z.div_le_lower_bound; [lia|].
      rewrite <- Z.pow_add_r by lia. replace (e1 - ex + 52) with (d - 1) by lia. exact Hdl.
    + apply Z.div_lt_upper_bound; [lia|].
      rewrite <- Z.pow_add_r by lia. replace (e1 - ex + 53) with d by lia. exact Hdu.
Qed.

Lemma binary_round_aux_scaled_rounded (sx : bool) (c n mx ex : Z) (lx : location) :
  0 < c ->
  scaled c n 0 (shr_record_of_loc mx lx) ->
  ex <= fexp prec emax (Zdigits2 mx + ex) ->
  (IZR n / IZR c * bpow ex < bpow 1023)%R ->
  rounded ((if sx then -1 else 1) * (IZR n / IZR c * bpow ex))
          (binary_round_aux prec emax sx mx ex lx).
Proof.
  intros Hc Hsc Hex Hov.
  assert (Hloc : shr_m (shr_record_of_loc mx lx) = mx)
    by (destruct lx as [| [| |]]; reflexivity).
  pose proof Hsc as (rem & Hn & Hrem & Hmx & _).
  rewrite Hloc, Z.pow_0_r, Z.mul_1_l in *.
  pose proof (bpow_pos ex) as HE.
  assert (HC : (0 < IZR c)%R) by (apply IZR_lt; lia).
  set (V := (IZR n / IZR c)%R) in *.
  assert (HVC : (V * IZR c = IZR n)%R) by (unfold V; field; lra).
  assert (HVl : (IZR mx <= V)%R).
  { assert (H : (IZR n = IZR mx * IZR c + IZR rem)%R)
      by (rewrite Hn, plus_IZR, mult_IZR; reflexivity).
    assert (0 <= IZR rem)%R by (apply IZR_le; lia). nra. }
  assert (HVu : (V < IZR mx + 1)%R).
  { assert (H : (IZR n = IZR mx * IZR c + IZR rem)%R)
      by (rewrite Hn, plus_IZR, mult_IZR; reflexivity).
    assert (IZR rem < IZR c)%R by (apply IZR_lt; lia). nra. }
  assert (HV0 : (0 <= V)%R).
  { assert (0 <= IZR mx)%R by (apply IZR_le; lia). lra. }
  destruct (Zdigits2_bounds mx Hmx) as (Hd0 & Hdu & Hdl).
  set (d := Zdigits2 mx) in *.
  assert (Hzero : mx = 0 -> d = 0 /\ ex <= -1074).
  { intros E. assert (d = 0) by (unfold d; rewrite E; reflexivity).
    split; [assumption|]. rewrite fexp_eq in Hex. lia. }
  assert (Hlow : 0 < mx -> (bpow (d - 1 + ex) <= V * bpow ex)%R).
  { intros Hp. specialize (Hdl Hp).
    assert (1 <= d).
    { destruct (Z_lt_le_dec d 1); [|lia]. assert (d = 0) by lia.
      rewrite H in Hdu. cbn in Hdu. lia. }
    rewrite bpow_add, (bpow_IZR (d - 1)) by lia. apply IZR_le in Hdl. nra. }
  assert (Hupp : (V * bpow ex < bpow (d + ex))%R).
  { rewrite bpow_add, (bpow_IZR d) by lia.
    assert (IZR mx + 1 <= IZR (2 ^ d))%R by (rewrite <- plus_IZR; apply IZR_le; lia).
    nra. }
  assert (Hov' : d + ex <= 1023).
  { destruct (Z.eq_dec mx 0) as [E | Hne]; [destruct (Hzero E); lia|].
    assert (d - 1 + ex < 1023); [|lia].
    apply bpow_lt_inv. specialize (Hlow ltac:(lia)). lra. }
  destruct (binary_round_aux_scaled sx c n mx ex lx Hsc Hex Hov')
    as (m' & Hm' & Herr & Hrep).
  fold d in Herr, Hrep. set (e1 := fexp prec emax (d + ex)) in *.
  assert (He1 : e1 = Z.max (d + ex - 53) (-1074)) by apply fexp_eq.
  apply represents_SF2R in Hrep. destruct Hrep as (Hv & Hf & Hval).
  assert (Hmag : (Rabs (IZR m' * bpow e1 - V * bpow ex) <= bpow e1 / 2)%R).
  { assert (Hb : bpow e1 = (bpow (e1 - ex) * bpow ex)%R)
      by (rewrite <- bpow_add; f_equal; lia).
    rewrite Hb. rewrite (bpow_IZR (e1 - ex)) by lia.
    apply IZR_le in Herr. rewrite mult_IZR, abs_IZR, minus_IZR, !mult_IZR in Herr.
    set (K := IZR (2 ^ (e1 - ex))) in *.
    assert (HK : (0 < K)%R) by (unfold K; apply IZR_lt, Z.pow_pos_nonneg; lia).
    set (t := (bpow ex / IZR c)%R).
    assert (Ht : (0 < t)%R) by (unfold t; apply Rdiv_lt_0_compat; assumption).
    assert (HtC : (t * IZR c = bpow ex)%R) by (unfold t; field; lra).
    replace (IZR m' * (K * bpow ex) - V * bpow ex)%R
      with ((IZR m' * (K * IZR c) - IZR n) * t)%R
      by (rewrite <- HVC, <- HtC; ring).
    rewrite Rabs_mult, (Rabs_pos_eq t) by lra.
    replace (K * bpow ex / 2)%R with (K * IZR c / 2 * t)%R by (rewrite <- HtC; field).
    apply Rmult_le_compat_r; lra. }
  set (sg := (if sx then -1 else 1)%R).
  assert (Habs : Rabs (sg * (V * bpow ex)) = (V * bpow ex)%R).
  { unfold sg. rewrite Rabs_sign. apply Rabs_pos_eq. nra. }
  assert (Hdiff : Rabs (SF2R (binary_round_aux prec emax sx mx ex lx) - sg * (V * bpow ex))
                  = Rabs (IZR m' * bpow e1 - V * bpow ex)).
  { rewrite Hval, IZR_cond_Zopp. fold sg.
    replace (sg * IZR m' * bpow e1 - sg * (V * bpow ex))%R
      with (sg * (IZR m' * bpow e1 - V * bpow ex))%R by ring.
    unfold sg. apply Rabs_sign. }
  split; try assumption.
  - rewrite Habs, Hdiff. intros Hn0.
    assert (Hp : 0 < mx).
    { destruct (Z.eq_dec mx 0) as [E | Hne]; [|lia]. exfalso.
      destruct (Hzero E) as [Hd Hx]. rewrite E in HVu. cbn in HVu.
      assert (bpow ex <= bpow (-1074))%R by (apply bpow_le; lia).
      assert (bpow (-1074) < bpow (-1022))%R by (apply bpow_lt; lia).
      nra. }
    specialize (Hlow Hp).
    assert (-1022 < d + ex) by (apply bpow_lt_inv; lra).
    assert (He : e1 = (-53) + (d - 1 + ex) + 1) by lia.
    eapply Rle_trans; [exact Hmag|].
    rewrite He, (bpow_add (-53 + (d - 1 + ex)) 1), (bpow_add (-53) (d - 1 + ex)), bpow_1.
    pose proof (bpow_pos (-53)). nra.
  - rewrite Habs, Hdiff. intros Hs.
    assert (He : e1 = -1074).
    { destruct (Z.eq_dec mx 0) as [E | Hne]; [destruct (Hzero E); lia|].
      specialize (Hlow ltac:(lia)).
      assert (d - 1 + ex < -1022) by (apply bpow_lt_inv; lra). lia. }
    eapply Rle_trans; [exact Hmag|]. rewrite He.
    rewrite <- bpow_pred. apply Rle_refl.
  - rewrite Hval, IZR_cond_Zopp. fold sg. intros H0.
    pose proof (bpow_pos e1). assert (0 <= IZR m')%R by (apply IZR_le; lia).
    unfold sg in *. destruct sx; [|nra].
    assert (HVz : V = 0%R) by nra.
    assert (Hnz : n = 0).
    { apply eq_IZR. rewrite <- HVC, HVz. ring. }
    assert (Hm0 : m' = 0).
    { rewrite Hnz, Z.sub_0_r in Herr.
      assert (0 < 2 ^ (e1 - ex) * c) by (apply Z.mul_pos_pos; [apply Z.pow_pos_nonneg|]; lia).
      nia. }
    rewrite Hm0. nra.
  - rewrite Hval, IZR_cond_Zopp. fold sg. intros H0.
    pose proof (bpow_pos e1). assert (0 <= IZR m')%R by (apply IZR_le; lia).
    unfold sg in *. destruct sx; [nra|].
    assert (HVz : V = 0%R) by nra.
    assert (Hnz : n = 0).
    { apply eq_IZR. rewrite <- HVC, HVz. ring. }
    assert (Hm0 : m' = 0).
    { rewrite Hnz, Z.sub_0_r in Herr.
      assert (0 < 2 ^ (e1 - ex) * c) by (apply Z.mul_pos_pos; [apply Z.pow_pos_nonneg|]; lia).
      nia. }
    rewrite Hm0. nra.
Qed.

Lemma SFdiv_core_binary_scaled (m1 m2 : positive) (e1 e2 : Z) :
  exists (q e' n : Z) (l : location),
    SFdiv_core_binary prec emax (Zpos m1) e1 (Zpos m2) e2 = (q, e', l) /\
    scaled (Zpos m2) n 0 (shr_record_of_loc q l) /\
    e' <= fexp prec emax (Zdigits2 q + e') /\
    (IZR n / IZR (Zpos m2) * bpow e'
     = IZR (Zpos m1) * bpow e1 / (IZR (Zpos m2) * bpow e2))%R /\
    e' <= e1 - e2 /\ n = Zpos m1 * 2 ^ (e1 - e2 - e').
Proof.
  destruct (SFdiv_core_binary_spec m1 m2 e1 e2) as (q0 & e0 & l0 & Heq & _ & Hpre & _).
  revert Heq. unfold SFdiv_core_binary. cbn [Zdigits2].
  set (e' := Z.min (fexp prec emax (Zpos (digits2_pos m1) + e1 - (Zpos (digits2_pos m2) + e2)))
                   (e1 - e2)).
  assert (He' : e' <= e1 - e2) by (unfold e'; lia).
  set (s := e1 - e2 - e'). assert (Hs : 0 <= s) by (unfold s; lia).
  set (m' := match s with Zpos _ => Z.shiftl (Zpos m1) s | Z0 => Zpos m1 | Zneg _ => 0 end).
  assert (Hm' : m' = Zpos m1 * 2 ^ s) by (apply shiftl_match; exact Hs).
  assert (Hps : 0 < 2 ^ s) by (apply Z.pow_pos_nonneg; lia).
  pose proof (Z_div_mod m' (Zpos m2) ltac:(lia)) as Hdm.
  destruct (Z.div_eucl m' (Zpos m2)) as [q r]. destruct Hdm as [Hq Hr].
  intros Heq. injection Heq as <- <- <-.
  assert (Hq0 : 0 <= q) by nia.
  exists q, e', m', (new_location (Zpos m2) r). split; [reflexivity|].
  split; [apply scaled_new_location; lia|]. split; [exact Hpre|].
  split; [|split; [exact He' | exact Hm']].
  rewrite Hm', mult_IZR, <- (bpow_IZR s) by lia.
  assert (Hb : bpow e1 = (bpow s * bpow e' * bpow e2)%R)
    by (rewrite <- !bpow_add; f_equal; unfold s; lia).
  rewrite Hb. pose proof (bpow_pos e2).
  assert (0 < IZR (Zpos m2))%R by (apply IZR_lt; lia).
  field. split; lra.
Qed.

(** The quotient of two finite numbers, the divisor not zero, is correctly
    rounded as long as it stays below [2 ^ 1023]. *)
Lemma SFdiv_rounded (x y : spec_float) :
  is_finite_SF x = true ->
  match y with S754_finite _ _ _ => True | _ => False end ->
  (Rabs (SF2R x) < bpow 1023 * Rabs (SF2R y))%R ->
  rounded (SF2R x / SF2R y) (SFdiv prec emax x y).
Proof.
  intros Hx Hy Hov.
  destruct y as [| | | sy my ey]; try contradiction.
  destruct x as [sx | | | sx mx ex]; try discriminate; cbn [SFdiv].
  - apply (rounded_ext 0); [cbn [SF2R]; unfold Rdiv; ring | apply rounded_zero].
  - destruct (SFdiv_core_binary_scaled mx my ex ey)
      as (q & e' & n & l & -> & Hsc & Hpre & Hval & _).
    rewrite !SF2R_finite_abs in Hov.
    pose proof (bpow_pos ex). pose proof (bpow_pos ey).
    assert (Hmy : (0 < IZR (Zpos my))%R) by (apply IZR_lt; lia).
    assert (Hmx : (0 < IZR (Zpos mx))%R) by (apply IZR_lt; lia).
    assert (HY : (0 < IZR (Zpos my) * bpow ey)%R) by nra.
    apply (rounded_ext ((if xorb sx sy then -1 else 1)
                        * (IZR n / IZR (Zpos my) * bpow e'))).
    + rewrite Hval. cbn [SF2R]. rewrite !IZR_cond_Zopp.
      destruct sx, sy; cbn [xorb]; field; split; lra.
    + apply binary_round_aux_scaled_rounded; try assumption; [lia|].
      rewrite Hval.
      assert (E : (IZR (Zpos mx) * bpow ex / (IZR (Zpos my) * bpow ey)
                   * (IZR (Zpos my) * bpow ey) = IZR (Zpos mx) * bpow ex)%R)
        by (field; split; lra).
      pose proof (bpow_pos 1023). nra.
Qed.

Lemma div_rounded (x y : float) :
  finite x -> finite y -> is_zero y = false ->
  (Rabs (B2R x) < bpow 1023 * Rabs (B2R y))%R ->
  rounded (B2R x / B2R y) (Prim2SF (x / y)).
Proof.
  unfold finite, B2R. intros Hx Hy Hz Hov. rewrite div_spec.
  rewrite is_zero_spec in Hz.
  apply SFdiv_rounded; try assumption.
  destruct (Prim2SF y); try discriminate; exact I.
Qed.

(** *** Exact results *)

(** A finite non-zero number has one representation. *)
Lemma SF2R_inj (x y : spec_float) :
  valid_binary x = true -> valid_binary y = true ->
  is_finite_SF x = true -> is_finite_SF y = true ->
  SF2R x = SF2R y -> SF2R x <> 0%R -> x = y.
Proof.
  intros Hvx Hvy Hfx Hfy E Hnz.
  pose proof (SFcompare_finite x y Hvx Hvy Hfx Hfy) as Hc.
  destruct x as [sx | | | sx mx ex]; try discriminate; [now contradiction Hnz|].
  destruct y as [sy | | | sy my ey]; try discriminate.
  - rewrite E in Hnz. now contradiction Hnz.
  - cbn [SFcompare] in Hc.
    change (Pos.compare_cont Eq mx my) with (Pos.compare mx my) in Hc.
    destruct sx, sy; try (exfalso; lra);
      destruct (Z.compare_spec ex ey) as [He | He | He]; try (exfalso; lra);
      destruct (Pos.compare_spec mx my) as [Hm | Hm | Hm]; cbn [CompOpp] in Hc;
      try (exfalso; lra); now subst.
Qed.

Lemma binary_round_exact (s : bool) (m : positive) (e : Z) :
  fexp prec emax (Zpos (digits2_pos m) + e) <= e ->
  Zpos (digits2_pos m) + e <= 1023 ->
  valid_binary (binary_round prec emax s m e) = true /\
  is_finite_SF (binary_round prec emax s m e) = true /\
  SF2R (binary_round prec emax s m e) = (IZR (cond_Zopp s (Zpos m)) * bpow e)%R.
Proof.
  intros Hfe Hov. unfold binary_round.
  set (fe := fexp prec emax (Zpos (digits2_pos m) + e)) in *.
  destruct (shl_align_spec m e fe Hfe) as [Heq Hq0]. rewrite Heq in Hq0 |- *.
  cbn [fst] in Hq0.
  set (q := Z.to_pos (Zpos m * 2 ^ (e - fe))) in *.
  assert (Hd : Zpos (digits2_pos q) + fe = Zpos (digits2_pos m) + e).
  { rewrite (digits2_pos_shift m (e - fe) q) by (assumption || lia). lia. }
  destruct (binary_round_aux_spec s q fe) as (m' & _ & _ & Hex & Hrep).
  - rewrite Hd. fold fe. lia.
  - lia.
  - rewrite Hd in Hex, Hrep. fold fe in Hex, Hrep. specialize (Hex eq_refl). subst m'.
    apply represents_SF2R in Hrep. destruct Hrep as (Hv & Hf & Hval).
    split; [exact Hv|]. split; [exact Hf|]. rewrite Hval.
    rewrite !IZR_cond_Zopp, Hq0, mult_IZR, <- bpow_IZR by lia.
    replace e with ((e - fe) + fe) at 2 by lia. rewrite bpow_add. ring.
Qed.

Lemma digits2_pos_le_53 (m : positive) : Zpos m < 2 ^ 53 -> Zpos (digits2_pos m) <= 53.
Proof.
  intros Hm. pose proof (digits2_pos_bounds m) as [Hl _].
  destruct (Z_lt_le_dec 53 (Zpos (digits2_pos m))) as [H|]; [|lia].
  assert (2 ^ 53 <= 2 ^ (Zpos (digits2_pos m) - 1)) by (apply Z.pow_le_mono_r; lia).
  lia.
Qed.

(** An integer below [2 ^ 53] in magnitude is a binary64 number. *)
Lemma binary_normalize_exact (z : Z) :
  Z.abs z < 2 ^ 53 ->
  valid_binary (binary_normalize prec emax z 0 false) = true /\
  is_finite_SF (binary_normalize prec emax z 0 false) = true /\
  SF2R (binary_normalize prec emax z 0 false) = IZR z.
Proof.
  intros Hz. destruct z as [| m | m]; cbn [binary_normalize].
  - repeat split.
  - pose proof (digits2_pos_le_53 m ltac:(lia)) as Hd.
    destruct (binary_round_exact false m 0) as (Hv & Hf & Hval);
      [rewrite fexp_eq; lia | lia |].
    rewrite Hval. cbn [cond_Zopp]. change (bpow 0) with 1%R. repeat split; try assumption.
    ring.
  - pose proof (digits2_pos_le_53 m ltac:(lia)) as Hd.
    destruct (binary_round_exact true m 0) as (Hv & Hf & Hval);
      [rewrite fexp_eq; lia | lia |].
    rewrite Hval. cbn [cond_Zopp]. change (bpow 0) with 1%R. repeat split; try assumption.
    change (- Z.pos m) with (Z.neg m). ring.
Qed.

(** A quotient of integers that is itself an integer below [2 ^ 53] is
    computed exactly. *)
Lemma SFdiv_pos_exact (sa sb : bool) (pb pr : positive) :
  Zpos pr < 2 ^ 53 ->
  valid_binary (SFdiv prec emax (S754_finite sa (pb * pr) 0) (S754_finite sb pb 0)) = true /\
  is_finite_SF (SFdiv prec emax (S754_finite sa (pb * pr) 0) (S754_finite sb pb 0)) = true /\
  SF2R (SFdiv prec emax (S754_finite sa (pb * pr) 0) (S754_finite sb pb 0))
  = IZR (cond_Zopp (xorb sa sb) (Zpos pr)).
Proof.
  intros Hr. cbn [SFdiv].
  destruct (SFdiv_core_binary_scaled (pb * pr) pb 0 0)
    as (q & e' & n & l & -> & Hsc & Hpre & _ & He' & Hn).
  assert (Hloc : shr_m (shr_record_of_loc q l) = q)
    by (destruct l as [| [| |]]; reflexivity).
  pose proof Hsc as (rem & Hq & Hrem & Hq0 & _).
  rewrite Hloc in Hq, Hq0. rewrite Z.pow_0_r, Z.mul_1_l in Hq, Hrem.
  set (s := - e') in *. assert (Hs : 0 <= s) by (unfold s; lia).
  replace (0 - 0 - e') with s in Hn by (unfold s; lia).
  assert (Hps : 0 < 2 ^ s) by (apply Z.pow_pos_nonneg; lia).
  rewrite Pos2Z.inj_mul in Hn.
  assert (Hqv : q = Zpos pr * 2 ^ s).
  { assert (Ht : (Zpos pr * 2 ^ s - q) * Zpos pb = rem) by (rewrite Hn in Hq; lia).
    assert (Zpos pr * 2 ^ s - q = 0) by nia. lia. }
  destruct q as [| qp |]; try lia.
  pose proof (digits2_pos_shift pr s qp Hs Hqv) as Hdq.
  pose proof (digits2_pos_le_53 pr Hr) as Hd53.
  pose proof (digits2_pos_bounds pr) as [Hdl _].
  assert (Hd1 : 1 <= Zpos (digits2_pos pr)) by lia.
  cbn [Zdigits2] in Hpre.
  destruct (binary_round_aux_scaled (xorb sa sb) (Zpos pb) n (Zpos qp) e' l Hsc)
    as (m' & Hm' & Herr & Hrep); cbn [Zdigits2]; [exact Hpre | lia |].
  cbn [Zdigits2] in Herr, Hrep.
  set (e1 := fexp prec emax (Zpos (digits2_pos qp) + e')) in *.
  assert (He1 : e1 = Z.max (Zpos (digits2_pos pr) - 53) (-1074)).
  { unfold e1. rewrite fexp_eq. unfold s in Hdq. lia. }
  assert (He1' : e' <= e1 <= 0) by lia.
  assert (Hm : m' = Zpos pr * 2 ^ (- e1)).
  { assert (Hp1 : 0 < 2 ^ (e1 - e')) by (apply Z.pow_pos_nonneg; lia).
    assert (Hp2 : 0 < 2 ^ (- e1)) by (apply Z.pow_pos_nonneg; lia).
    assert (Hsplit : 2 ^ s = 2 ^ (- e1) * 2 ^ (e1 - e')).
    { rewrite <- Z.pow_add_r by lia. f_equal. unfold s. lia. }
    rewrite Hn, Hsplit in Herr.
    set (P := 2 ^ (e1 - e') * Zpos pb) in *.
    assert (HP : 0 < P) by (unfold P; lia).
    replace (Zpos pb * Zpos pr * (2 ^ (- e1) * 2 ^ (e1 - e')))
      with (Zpos pr * 2 ^ (- e1) * P) in Herr by (unfold P; ring).
    assert (Z.abs (m' - Zpos pr * 2 ^ (- e1)) * P = Z.abs (m' * P - Zpos pr * 2 ^ (- e1) * P)).
    { rewrite <- Z.mul_sub_distr_r, Z.abs_mul, (Z.abs_eq P) by lia. reflexivity. }
    assert (Z.abs (m' - Zpos pr * 2 ^ (- e1)) = 0) by nia.
    lia. }
  apply represents_SF2R in Hrep. destruct Hrep as (Hv & Hf & Hval).
  split; [exact Hv|]. split; [exact Hf|].
  rewrite Hval, Hm, !IZR_cond_Zopp, mult_IZR, <- (bpow_IZR (- e1)) by lia.
  rewrite Rmult_assoc, Rmult_assoc, <- bpow_add.
  replace (- e1 + e1) with 0 by lia. change (bpow 0) with 1%R. ring.
Qed.

End Binary64.
(** ** The reals behind Python numbers *)

Module PyReal.
Import Binary64.

(** The real number a Python number denotes (0 for infinities and NaN). *)
Definition N2R (x : num) : R :=
  match x with
  | Int z => IZR z
  | Float f => B2R f
  end.

(** Every [int] is finite; a [float] is when it is neither infinite nor NaN. *)
Definition num_finite (x : num) : Prop :=
  match x with
  | Int _ => True
  | Float f => finite f
  end.

Lemma bpow_opp (e : Z) : bpow (- e) = (/ bpow e)%R.
Proof. apply powerRZ_neg'. Qed.

Lemma bpow_0 : bpow 0 = 1%R.
Proof. reflexivity. Qed.

Lemma of_Z_rounded (z : Z) :
  (Rabs (IZR z) < bpow 1023)%R ->
  rounded (IZR z) (Prim2SF (of_Z z)).
Proof.
  intros Hz.
  assert (Hr : rounded (IZR z) (binary_normalize prec emax z 0 false)).
  { apply (rounded_ext (IZR z * bpow 0)); [rewrite bpow_0; ring|].
    apply binary_normalize_rounded. rewrite bpow_0, Rmult_1_r. exact Hz. }
  unfold of_Z. rewrite Prim2SF_SF2Prim by apply (rounded_valid _ _ Hr). exact Hr.
Qed.

Lemma IZR_abs_ge_1 (z : Z) : z <> 0%Z -> (1 <= Rabs (IZR z))%R.
Proof.
  intros Hz. rewrite <- abs_IZR. apply IZR_le. lia.
Qed.

Lemma bpow_le_1 (e : Z) : (e <= 0)%Z -> (bpow e <= 1)%R.
Proof. intros He. rewrite <- bpow_0. now apply bpow_le. Qed.

Lemma int_to_float_correct (z : Z) :
  (Rabs (IZR z) < bpow 1023)%R ->
  int_to_float z = Ok (of_Z z) /\ finite (of_Z z) /\
  (Rabs (B2R (of_Z z) - IZR z) <= bpow (-53) * Rabs (IZR z))%R /\
  (0 <= IZR z -> 0 <= B2R (of_Z z))%R /\ (IZR z <= 0 -> B2R (of_Z z) <= 0)%R.
Proof.
  intros Hz. pose proof (of_Z_rounded z Hz) as Hr.
  assert (Hf : finite (of_Z z)) by apply (rounded_finite _ _ Hr).
  split; [|split; [exact Hf|split; [|split]]].
  - unfold int_to_float. now rewrite is_infinity_finite.
  - destruct (Z.eq_dec z 0) as [-> | Hnz].
    + rewrite Rabs_R0, Rmult_0_r, Rminus_0_r.
      pose proof (rounded_nonneg _ _ Hr (Rle_refl 0)).
      pose proof (rounded_nonpos _ _ Hr (Rle_refl 0)).
      replace (B2R (of_Z 0)) with 0%R by (unfold B2R; lra).
      rewrite Rabs_R0. lra.
    + apply (rounded_normal _ _ Hr).
      pose proof (IZR_abs_ge_1 z Hnz). pose proof (bpow_le_1 (-1022) ltac:(lia)). lra.
  - apply (rounded_nonneg _ _ Hr).
  - apply (rounded_nonpos _ _ Hr).
Qed.

Lemma to_float_correct (x : num) :
  num_finite x -> (Rabs (N2R x) < bpow 1023)%R ->
  exists f, to_float x = Ok f /\ finite f /\
    (Rabs (B2R f - N2R x) <= bpow (-53) * Rabs (N2R x))%R /\
    (0 <= N2R x -> 0 <= B2R f)%R /\ (N2R x <= 0 -> B2R f <= 0)%R.
Proof.
  intros Hf Hx. destruct x as [z | f]; cbn [N2R to_float num_finite] in *.
  - exists (of_Z z). now apply int_to_float_correct.
  - exists f. split; [reflexivity|]. split; [exact Hf|].
    rewrite Rminus_diag, Rabs_R0. pose proof (bpow_pos (-53)).
    pose proof (Rabs_pos (B2R f)). repeat split; try lra; nra.
Qed.

Lemma binop_float (fz : Z -> Z -> Z) (ff : float -> float -> float) (x y : num)
      (a b : float) :
  (forall p q, x = Int p -> y = Int q -> False) ->
  to_float x = Ok a -> to_float y = Ok b ->
  binop fz ff x y = Ok (Float (ff a b)).
Proof.
  intros Hn Ha Hb. unfold binop.
  destruct x as [p | f], y as [q | g]; [exfalso; now apply (Hn p q) | ..];
    cbn [to_float] in Ha, Hb |- *;
    try (injection Ha as <-); try (injection Hb as <-);
    rewrite ?Ha; cbn; rewrite ?Hb; reflexivity.
Qed.


(** *** Relative errors *)

Lemma rel_error (e v w : R) :
  (0 <= e)%R -> (Rabs (w - v) <= e * Rabs v)%R ->
  exists d : R, (Rabs d <= e)%R /\ w = (v * (1 + d))%R.
Proof.
  intros He H. destruct (Req_dec v 0) as [-> | Hv].
  - exists 0%R. rewrite Rabs_R0, Rmult_0_r, Rminus_0_r in H.
    assert (Hw : w = 0%R).
    { destruct (Req_dec w 0) as [|Hn]; [assumption|]. apply Rabs_pos_lt in Hn. lra. }
    subst w. rewrite Rabs_R0. split; [assumption | ring].
  - exists ((w - v) / v)%R. split; [|field; exact Hv].
    unfold Rdiv. rewrite Rabs_mult, Rabs_inv.
    assert (0 < Rabs v)%R by now apply Rabs_pos_lt.
    apply (Rmult_le_reg_r (Rabs v)); [assumption|].
    rewrite Rmult_assoc, Rinv_l by lra. lra.
Qed.

Lemma rounded_delta (v : R) (r : spec_float) :
  rounded v r ->
  exists d h : R, (Rabs d <= bpow (-53))%R /\ (Rabs h <= bpow (-1075))%R /\
    ((bpow (-1022) <= Rabs v)%R -> h = 0%R) /\
    SF2R r = (v * (1 + d) + h)%R.
Proof.
  intros H. destruct (Rle_lt_dec (bpow (-1022)) (Rabs v)) as [Hn | Hs].
  - apply (rounded_normal _ _ H) in Hn. apply rel_error in Hn; [|left; apply bpow_pos].
    destruct Hn as (d & Hd & ->). exists d, 0%R. rewrite Rabs_R0.
    split; [exact Hd|]. split; [left; apply bpow_pos|]. split; [reflexivity | ring].
  - pose proof Hs as Hs'. apply (rounded_subnormal _ _ H) in Hs.
    exists 0%R, (SF2R r - v)%R. rewrite Rabs_R0.
    split; [left; apply bpow_pos|]. split; [exact Hs|]. split; [lra | ring].
Qed.

Lemma Rabs_le_iff (x e : R) : (Rabs x <= e <-> - e <= x <= e)%R.
Proof.
  split; [|apply Rabs_le].
  unfold Rabs. destruct (Rcase_abs x); lra.
Qed.

Lemma u_value : bpow (-53) = (/ 9007199254740992)%R.
Proof.
  change (-53)%Z with (- (53))%Z. rewrite bpow_opp, (bpow_IZR 53) by lia.
  reflexivity.
Qed.

Lemma eps_value : bpow (-51) = (/ 2251799813685248)%R.
Proof.
  change (-51)%Z with (- (51))%Z. rewrite bpow_opp, (bpow_IZR 51) by lia.
  reflexivity.
Qed.

Lemma to_float_delta (x : num) :
  num_finite x -> (Rabs (N2R x) < bpow 1023)%R ->
  exists (f : float) (d : R), to_float x = Ok f /\ finite f /\
    (Rabs d <= bpow (-53))%R /\ B2R f = (N2R x * (1 + d))%R.
Proof.
  intros Hf Hx. destruct (to_float_correct x Hf Hx) as (f & Hc & Hfin & Herr & _).
  apply rel_error in Herr; [|left; apply bpow_pos]. destruct Herr as (d & Hd & Hv).
  exists f, d. auto.
Qed.

Lemma bpow_1023 : bpow 1023 = (4 * bpow 1021)%R.
Proof.
  change 1023%Z with (2 + 1021)%Z. rewrite bpow_add. f_equal.
  rewrite (bpow_IZR 2) by lia. reflexivity.
Qed.

Lemma bpow_m1021 : bpow (-1021) = (2 * bpow (-1022))%R.
Proof.
  change (-1021)%Z with (1 + -1022)%Z. rewrite bpow_add, bpow_1. reflexivity.
Qed.

(** [r] is a finite number near the real [v]: of the same sign, with a
    relative error of at most [2 ^ -51] and, where the operation underflowed,
    an absolute error of at most [2 ^ -1075]. *)
Definition near (v : R) (r : num) : Prop :=
  num_finite r /\ (0 <= v -> 0 <= N2R r)%R /\ (v <= 0 -> N2R r <= 0)%R /\
  exists d h : R, (Rabs d <= bpow (-51))%R /\ (Rabs h <= bpow (-1075))%R /\
    ((bpow (-1021) <= Rabs v)%R -> h = 0%R) /\
    N2R r = (v * (1 + d) + h)%R.

Lemma near_exact (r : num) : num_finite r -> near (N2R r) r.
Proof.
  intros Hf. split; [exact Hf|]. split; [tauto|]. split; [tauto|].
  exists 0%R, 0%R. rewrite Rabs_R0.
  pose proof (bpow_pos (-51)). pose proof (bpow_pos (-1075)).
  repeat split; lra || ring.
Qed.

Lemma mul_float_correct (fx fy : float) (x y dx dy : R) :
  finite fx -> finite fy ->
  (Rabs dx <= bpow (-53))%R -> (Rabs dy <= bpow (-53))%R ->
  B2R fx = (x * (1 + dx))%R -> B2R fy = (y * (1 + dy))%R ->
  (Rabs (x * y) <= bpow 1021)%R ->
  near (x * y) (Float (fx * fy)).
Proof.
  intros Hfx Hfy Hdx Hdy Hvx Hvy Hxy.
  rewrite u_value in Hdx, Hdy. apply Rabs_le_iff in Hdx, Hdy.
  assert (Hpos : (0 < (1 + dx) * (1 + dy))%R) by nra.
  assert (Hprod : (B2R fx * B2R fy = (x * y) * ((1 + dx) * (1 + dy)))%R)
    by (rewrite Hvx, Hvy; ring).
  assert (Habs : (Rabs (B2R fx * B2R fy) = Rabs (x * y) * ((1 + dx) * (1 + dy)))%R).
  { rewrite Hprod, Rabs_mult. f_equal. apply Rabs_pos_eq. lra. }
  pose proof (Rabs_pos (x * y)) as Hxy0.
  assert (Hov : (Rabs (B2R fx * B2R fy) < bpow 1023)%R).
  { rewrite Habs, bpow_1023. pose proof (bpow_pos 1021).
    assert ((1 + dx) * (1 + dy) <= 2)%R by nra. nra. }
  pose proof (mul_rounded fx fy Hfx Hfy Hov) as Hr.
  destruct (rounded_delta _ _ Hr) as (d & h & Hd & Hh & Hh0 & Hv).
  pose proof (rounded_nonneg _ _ Hr) as Hnn. pose proof (rounded_nonpos _ _ Hr) as Hnp.
  fold (B2R (fx * fy)) in Hv, Hnn, Hnp. rewrite Hprod in Hnn, Hnp.
  split; [exact (rounded_finite _ _ Hr)|]. cbn [N2R].
  split; [intros; apply Hnn; nra|]. split; [intros; apply Hnp; nra|].
  exists ((1 + dx) * (1 + dy) * (1 + d) - 1)%R, h.
  split; [|split; [exact Hh | split; [|rewrite Hv, Hvx, Hvy; ring]]].
  - rewrite u_value in Hd. apply Rabs_le_iff in Hd.
    rewrite eps_value. apply Rabs_le_iff.
    assert (- / 4000000000000000 <= (1 + dx) * (1 + dy) - 1 <= / 4000000000000000)%R by nra.
    nra.
  - intros Hn. apply Hh0. rewrite Habs. rewrite bpow_m1021 in Hn.
    pose proof (bpow_pos (-1022)).
    assert (/ 2 <= (1 + dx) * (1 + dy))%R by nra. nra.
Qed.

(** Multiplication of two numbers. *)
Lemma mul_correct (x y : num) :
  num_finite x -> num_finite y ->
  (Rabs (N2R x) < bpow 1023)%R -> (Rabs (N2R y) < bpow 1023)%R ->
  (Rabs (N2R x * N2R y) <= bpow 1021)%R ->
  exists r : num, mul x y = Ok r /\ near (N2R x * N2R y) r.
Proof.
  intros Hfx Hfy Hx Hy Hxy.
  destruct (to_float_delta x Hfx Hx) as (fx & dx & Hcx & Hfinx & Hdx & Hvx).
  destruct (to_float_delta y Hfy Hy) as (fy & dy & Hcy & Hfiny & Hdy & Hvy).
  pose proof (mul_float_correct fx fy _ _ dx dy Hfinx Hfiny Hdx Hdy Hvx Hvy Hxy) as Hn.
  destruct x as [a | f], y as [b | g].
  1:{ exists (Int (a * b)). split; [reflexivity|].
      cbn [N2R]. rewrite <- mult_IZR. apply (near_exact (Int (a * b))). exact I. }
  all: exists (Float (fx * fy));
    (split; [unfold mul; apply binop_float; (assumption || discriminate) | exact Hn]).
Qed.

Lemma add_float_correct (fx fy : float) (x y dx dy : R) :
  finite fx -> finite fy ->
  (Rabs dx <= bpow (-53))%R -> (Rabs dy <= bpow (-53))%R ->
  B2R fx = (x * (1 + dx))%R -> B2R fy = (y * (1 + dy))%R ->
  (0 <= x)%R -> (0 <= y)%R -> (x + y <= bpow 1021)%R ->
  near (x + y) (Float (fx + fy)).
Proof.
  intros Hfx Hfy Hdx Hdy Hvx Hvy Hx Hy Hxy.
  assert (Hsum : (Rabs (B2R fx + B2R fy - (x + y)) <= bpow (-53) * Rabs (x + y))%R).
  { rewrite Hvx, Hvy. rewrite (Rabs_pos_eq (x + y)) by lra.
    pose proof (bpow_pos (-53)). apply Rabs_le_iff in Hdx, Hdy. apply Rabs_le_iff. nra. }
  apply rel_error in Hsum; [|left; apply bpow_pos]. destruct Hsum as (d1 & Hd1 & Hs).
  rewrite u_value in Hdx, Hdy, Hd1. apply Rabs_le_iff in Hdx, Hdy, Hd1.
  assert (Hnn0 : (0 <= B2R fx + B2R fy)%R) by (rewrite Hvx, Hvy; nra).
  assert (Hov : (Rabs (B2R fx + B2R fy) < bpow 1023)%R).
  { rewrite Rabs_pos_eq by exact Hnn0. rewrite Hs, bpow_1023.
    pose proof (bpow_pos 1021). nra. }
  pose proof (add_rounded fx fy Hfx Hfy Hov) as Hr.
  destruct (rounded_delta _ _ Hr) as (d & h & Hd & Hh & Hh0 & Hv).
  pose proof (rounded_nonneg _ _ Hr Hnn0) as Hnn.
  fold (B2R (fx + fy)) in Hv, Hnn.
  split; [exact (rounded_finite _ _ Hr)|]. cbn [N2R].
  split; [intros; exact Hnn|].
  split.
  { intros Hle. assert (x = 0 /\ y = 0)%R as [-> ->] by lra.
    rewrite Rmult_0_l in Hvx, Hvy.
    pose proof (rounded_nonpos _ _ Hr) as Hnp. fold (B2R (fx + fy)) in Hnp.
    apply Hnp. lra. }
  exists ((1 + d1) * (1 + d) - 1)%R, h.
  split; [|split; [exact Hh | split; [|rewrite Hv, Hs; ring]]].
  - rewrite u_value in Hd. apply Rabs_le_iff in Hd.
    rewrite eps_value. apply Rabs_le_iff. nra.
  - intros Hn. apply Hh0. rewrite Rabs_pos_eq by exact Hnn0.
    rewrite Rabs_pos_eq in Hn by lra. rewrite bpow_m1021 in Hn.
    pose proof (bpow_pos (-1022)). rewrite Hs.
    assert (/ 2 <= 1 + d1)%R by lra. nra.
Qed.

(** Addition of two non-negative numbers. *)
Lemma add_correct (x y : num) :
  num_finite x -> num_finite y ->
  (0 <= N2R x)%R -> (0 <= N2R y)%R -> (N2R x + N2R y <= bpow 1021)%R ->
  exists r : num, add x y = Ok r /\ near (N2R x + N2R y) r.
Proof.
  intros Hfx Hfy Hx Hy Hxy.
  pose proof (bpow_pos 1021) as Hp. pose proof bpow_1023 as Hb.
  destruct (to_float_delta x Hfx) as (fx & dx & Hcx & Hfinx & Hdx & Hvx);
    [rewrite Rabs_pos_eq by assumption; lra|].
  destruct (to_float_delta y Hfy) as (fy & dy & Hcy & Hfiny & Hdy & Hvy);
    [rewrite Rabs_pos_eq by assumption; lra|].
  pose proof (add_float_correct fx fy _ _ dx dy Hfinx Hfiny Hdx Hdy Hvx Hvy Hx Hy Hxy) as Hn.
  destruct x as [a | f], y as [b | g].
  1:{ exists (Int (a + b)). split; [reflexivity|].
      cbn [N2R]. rewrite <- plus_IZR. apply (near_exact (Int (a + b))). exact I. }
  all: exists (Float (fx + fy));
    (split; [unfold add; apply binop_float; (assumption || discriminate) | exact Hn]).
Qed.

(** *** Python comparisons *)

Lemma SFcompare_Z_finite (x : spec_float) (z : Z) :
  is_finite_SF x = true ->
  match SFcompare_Z x z with
  | Some Lt => (SF2R x < IZR z)%R
  | Some Eq => SF2R x = IZR z
  | Some Gt => (IZR z < SF2R x)%R
  | None => False
  end.
Proof.
  intros Hf. destruct x as [s | s | | s m e]; try discriminate; cbn [SFcompare_Z SF2R].
  - destruct (Z.compare_spec 0 z) as [<- | H | H]; [reflexivity | |]; now apply IZR_lt.
  - set (v := cond_Zopp s (Zpos m)). pose proof (bpow_pos e) as Hp.
    destruct (Z.leb_spec 0 e) as [He | He].
    + rewrite (bpow_IZR e), <- mult_IZR by lia.
      destruct (Z.compare_spec (v * 2 ^ e) z) as [<- | H | H];
        [reflexivity | |]; now apply IZR_lt.
    + assert (Hinv : (bpow (- e) * bpow e = 1)%R)
        by (rewrite <- bpow_add; replace (- e + e)%Z with 0%Z by lia; reflexivity).
      assert (Hz : IZR (z * 2 ^ (- e)) = (IZR z * bpow (- e))%R)
        by (rewrite mult_IZR, <- bpow_IZR by lia; reflexivity).
      destruct (Z.compare_spec v (z * 2 ^ (- e))) as [H | H | H].
      * apply (f_equal IZR) in H. rewrite Hz in H. rewrite H, Rmult_assoc, Hinv. ring.
      * apply IZR_lt in H. rewrite Hz in H.
        replace (IZR z) with (IZR z * bpow (- e) * bpow e)%R by (rewrite Rmult_assoc, Hinv; ring).
        nra.
      * apply IZR_lt in H. rewrite Hz in H.
        replace (IZR z) with (IZR z * bpow (- e) * bpow e)%R by (rewrite Rmult_assoc, Hinv; ring).
        nra.
Qed.

Lemma compare_finite (x y : num) :
  num_finite x -> num_finite y ->
  match Py.compare x y with
  | Some Lt => (N2R x < N2R y)%R
  | Some Eq => N2R x = N2R y
  | Some Gt => (N2R y < N2R x)%R
  | None => False
  end.
Proof.
  intros Hx Hy. destruct x as [a | f], y as [b | g]; cbn [Py.compare N2R num_finite] in *.
  - destruct (Z.compare_spec a b) as [<- | H | H]; [reflexivity | |]; now apply IZR_lt.
  - pose proof (SFcompare_Z_finite (Prim2SF g) a Hy) as H. unfold B2R.
    destruct (SFcompare_Z (Prim2SF g) a) as [[| |]|]; cbn [option_map CompOpp]; auto.
  - exact (SFcompare_Z_finite (Prim2SF f) b Hx).
  - apply SFcompare_finite; auto using Prim2SF_valid.
Qed.

Lemma ltb_correct (x y : num) :
  num_finite x -> num_finite y -> (Py.ltb x y = true <-> (N2R x < N2R y)%R).
Proof.
  intros Hx Hy. pose proof (compare_finite x y Hx Hy) as H. unfold Py.ltb.
  destruct (Py.compare x y) as [[| |]|]; split; intros; try lra;
    try discriminate; try reflexivity; contradiction.
Qed.

Lemma leb_correct (x y : num) :
  num_finite x -> num_finite y -> (Py.leb x y = true <-> (N2R x <= N2R y)%R).
Proof.
  intros Hx Hy. pose proof (compare_finite x y Hx Hy) as H. unfold Py.leb.
  destruct (Py.compare x y) as [[| |]|]; split; intros; try lra;
    try discriminate; try reflexivity; contradiction.
Qed.

(** A number between two finite numbers is finite. *)
Lemma between_finite (lo hi x : num) :
  num_finite lo -> num_finite hi ->
  Py.leb lo x = true -> Py.leb x hi = true -> num_finite x.
Proof.
  intros Hlo Hhi H1 H2. destruct x as [z | f]; [exact I|].
  unfold Py.leb in H1, H2.
  destruct lo as [a | l], hi as [b | h]; cbn [Py.compare num_finite] in *;
    unfold finite in *;
    repeat match goal with
      | H : context [Prim2SF ?g] |- _ =>
          destruct (Prim2SF g) as [[|] | [|] | | [|] ? ?]
      end;
    cbn [SFcompare_Z SFcompare option_map CompOpp is_finite_SF] in *;
    try discriminate; reflexivity.
Qed.

Lemma between (lo hi x : num) :
  num_finite lo -> num_finite hi ->
  Py.leb lo x = true -> Py.leb x hi = true ->
  num_finite x /\ (N2R lo <= N2R x <= N2R hi)%R.
Proof.
  intros Hlo Hhi H1 H2.
  pose proof (between_finite lo hi x Hlo Hhi H1 H2) as Hx.
  split; [exact Hx|]. split; apply leb_correct; assumption.
Qed.

End PyReal.
(** ** Properties of the engine *)

Import Binary64 PyReal.

Lemma bind_Ok {A B : Type} (f : A -> result B) (m : result A) (b : B) :
  (x ← m; f x) = Ok b -> exists a, m = Ok a /\ f a = Ok b.
Proof.
  destruct m as [a | e]; cbn; [|discriminate]. intros H. now exists a.
Qed.

Lemma bind_Ok_l {A B : Type} (f : A -> result B) (m : result A) (a : A) :
  m = Ok a -> (x ← m; f x) = f a.
Proof. now intros ->. Qed.

(** Inversion of a chain of binds that returned. *)
Ltac bind_inv H :=
  repeat (let a := fresh "v" in let E := fresh "E" in
          apply bind_Ok in H; destruct H as (a & E & H)).

(** *** When an operation returns *)

(** An [int] of magnitude at most [2 ^ k]; a [float] is not restricted, so
    it may be infinite or NaN. *)
Definition bounded_int (k : Z) (x : num) : Prop :=
  match x with
  | Int z => (Z.abs z <= 2 ^ k)%Z
  | Float _ => True
  end.

Lemma bounded_int_mono (k k' : Z) (x : num) :
  (0 <= k <= k')%Z -> bounded_int k x -> bounded_int k' x.
Proof.
  intros Hk. destruct x as [z | f]; cbn [bounded_int]; [|auto].
  intros H. apply Z.le_trans with (2 ^ k)%Z; [exact H|]. apply Z.pow_le_mono_r; lia.
Qed.

Lemma bounded_int_range (k z : Z) :
  (0 <= k <= 1022)%Z -> (Z.abs z <= 2 ^ k)%Z -> (Rabs (IZR z) < bpow 1023)%R.
Proof.
  intros Hk Hz. rewrite <- abs_IZR, (bpow_IZR 1023) by lia. apply IZR_lt.
  apply Z.le_lt_trans with (2 ^ k)%Z; [exact Hz|]. apply Z.pow_lt_mono_r; lia.
Qed.

(** The conversion to [float] returns on a bounded number, and keeps a
    non-zero number non-zero. *)
Lemma to_float_returns (k : Z) (x : num) :
  (0 <= k <= 1022)%Z -> bounded_int k x ->
  exists f, to_float x = Ok f /\ (Py.eqb x (Int 0) = false -> is_zero f = false).
Proof.
  intros Hk Hx. destruct x as [z | f]; cbn [bounded_int to_float] in *.
  - destruct (int_to_float_correct z (bounded_int_range k z Hk Hx)) as (Hc & Hf & He & _).
    exists (of_Z z). split; [exact Hc|]. unfold Py.eqb. cbn [Py.compare]. intros Hz.
    assert (Hnz : z <> 0%Z).
    { intros ->. now rewrite Z.compare_refl in Hz. }
    apply B2R_nonzero; [exact Hf|]. intros E. rewrite E in He.
    pose proof (IZR_abs_ge_1 z Hnz) as H1.
    rewrite Rminus_0_l, Rabs_Ropp in He.
    assert (bpow (-53) <= / 4)%R by (rewrite u_value; lra).
    pose proof (bpow_pos (-53)). nra.
  - exists f. split; [reflexivity|]. unfold Py.eqb. cbn [Py.compare].
    rewrite is_zero_spec. destruct (Prim2SF f); cbn [SFcompare_Z]; try reflexivity.
    discriminate.
Qed.

Lemma binop_returns (k : Z) (fz : Z -> Z -> Z) (ff : float -> float -> float)
      (x y : num) :
  (0 <= k <= 1022)%Z -> bounded_int k x -> bounded_int k y ->
  exists r, binop fz ff x y = Ok r /\
    match x, y with
    | Int a, Int b => r = Int (fz a b)
    | _, _ => exists f, r = Float f
    end.
Proof.
  intros Hk Hx Hy.
  destruct (to_float_returns k x Hk Hx) as (fx & Ex & _).
  destruct (to_float_returns k y Hk Hy) as (fy & Ey & _).
  destruct x as [a | f], y as [b | g]; unfold binop;
    try (rewrite Ex; cbn [mbind result_bind]); try (rewrite Ey; cbn [mbind result_bind]);
    eexists; (split; [reflexivity|]); eauto.
Qed.


Lemma int_truediv_returns (k a b : Z) :
  (0 <= k <= 1022)%Z -> (Z.abs a <= 2 ^ k)%Z -> b <> 0%Z ->
  returns (int_truediv a b).
Proof.
  intros Hk Ha Hb. unfold int_truediv.
  destruct (Z.eqb_spec b 0) as [E | _]; [contradiction|]. cbv zeta.
  assert (HRa : SF2R (Z2SF a) = IZR a).
  { destruct a; cbn [Z2SF SF2R cond_Zopp]; rewrite ?bpow_0; try lra.
    change (IZR (- Z.pos p)) with (IZR (Z.neg p)). lra. }
  assert (HRb : SF2R (Z2SF b) = IZR b).
  { destruct b; cbn [Z2SF SF2R cond_Zopp]; rewrite ?bpow_0; try lra.
    change (IZR (- Z.pos p)) with (IZR (Z.neg p)). lra. }
  destruct (SFdiv_finite (Z2SF a) (Z2SF b)) as [Hv Hf].
  - destruct a; reflexivity.
  - destruct b; [contradiction | exact I | exact I].
  - rewrite HRa, HRb. pose proof (bounded_int_range k a Hk Ha).
    pose proof (IZR_abs_ge_1 b Hb). pose proof (bpow_pos 1023). pose proof (Rabs_pos (IZR a)).
    nra.
  - assert (Hfin : finite (SF2Prim (SFdiv prec emax (Z2SF a) (Z2SF b)))).
    { unfold finite. now rewrite Prim2SF_SF2Prim. }
    rewrite (is_infinity_finite _ Hfin). eexists; reflexivity.
Qed.

(** A division returns on bounded operands with a non-zero divisor. *)
Lemma truediv_returns (k : Z) (x y : num) :
  (0 <= k <= 1022)%Z -> bounded_int k x -> bounded_int k y ->
  Py.eqb y (Int 0) = false ->
  exists q, truediv x y = Ok (Float q).
Proof.
  intros Hk Hx Hy Hnz.
  destruct (to_float_returns k x Hk Hx) as (fx & Ex & _).
  destruct (to_float_returns k y Hk Hy) as (fy & Ey & Hz). specialize (Hz Hnz).
  destruct x as [a | f], y as [b | g]; unfold truediv.
  - assert (Hb : b <> 0%Z).
    { intros ->. unfold Py.eqb in Hnz. cbn in Hnz. discriminate. }
    destruct (int_truediv_returns k a b Hk Hx Hb) as (q & ->). now exists q.
  - rewrite Ex, Ey. cbn [mbind result_bind]. unfold float_truediv. rewrite Hz.
    eexists; reflexivity.
  - rewrite Ex, Ey. cbn [mbind result_bind]. unfold float_truediv. rewrite Hz.
    eexists; reflexivity.
  - rewrite Ex, Ey. cbn [mbind result_bind]. unfold float_truediv. rewrite Hz.
    eexists; reflexivity.
Qed.

Lemma bounded_int_small (k z : Z) :
  (Z.abs z <= 128)%Z -> (7 <= k)%Z -> bounded_int k (Int z).
Proof.
  intros Hz Hk. apply (bounded_int_mono 7 k); [lia|]. exact Hz.
Qed.


(** [calculate_share_investment] returns whenever the total investment is
    not zero. *)
Lemma share_returns (total_investment share_amount holding_period : num) :
  bounded_int 1022 total_investment -> bounded_int 1022 share_amount ->
  bounded_int 1022 holding_period ->
  Py.eqb total_investment (Int 0) = false ->
  returns (calculate_share_investment total_investment share_amount holding_period).
Proof.
  intros Hti Hsa Hhp Hti0. unfold calculate_share_investment.
  destruct (truediv_returns 1022 share_amount total_investment) as (fraction & ->);
    [lia | exact Hsa | exact Hti | exact Hti0 |].
  cbn [mbind result_bind].
  destruct (binop_returns 7 Z.mul PrimFloat.mul (Float fraction) (Int 100))
    as (percentage & E1 & _); [lia | exact I | apply bounded_int_small; lia |].
  fold mul in E1. rewrite E1. cbn [mbind result_bind].
  destruct (binop_returns 1022 Z.mul PrimFloat.mul share_amount (Float 0.005))
    as (monthly & E2 & H2); [lia | exact Hsa | exact I |].
  fold mul in E2. rewrite E2. cbn [mbind result_bind].
  assert (Hf : exists f, monthly = Float f) by (destruct share_amount; exact H2).
  destruct Hf as (fm & ->).
  destruct (binop_returns 1022 Z.mul PrimFloat.mul (Float fm) holding_period)
    as (total & E3 & _); [lia | exact I | exact Hhp |].
  fold mul in E3. rewrite E3. cbn [mbind result_bind].
  destruct (binop_returns 7 Z.mul PrimFloat.mul (Float 0.005) (Int 12))
    as (yearly & E4 & H4); [lia | exact I | apply bounded_int_small; lia |].
  fold mul in E4. rewrite E4. cbn [mbind result_bind].
  destruct H4 as (fy & ->).
  destruct (binop_returns 7 Z.mul PrimFloat.mul (Float fy) (Int 100))
    as (effective & E5 & _); [lia | exact I | apply bounded_int_small; lia |].
  fold mul in E5. rewrite E5. cbn [mbind result_bind]. eexists; reflexivity.
Qed.

(** *** C6: the fees on a property value of 0, and the total as a sum *)

(** C6.  [calculate_dubai_fees(0)] is
    [{dld_fee: 0, broker_fee: 0, title_deed_fee: 430, conveyance_fee: 7350,
    total_fees: 7780}] (the proportional fees and the total as the floats
    [0.0] and [7780.0], which Python's [==] equates with the integers), and
    for every property value the returned total is the sum, taken from left
    to right, of the four returned fees. *)
Theorem dubai_fees_zero_and_total :
  calculate_dubai_fees (Int 0)
  = Ok {| dld_fee := Float 0; broker_fee := Float 0; title_deed_fee := Int 430;
          conveyance_fee := Int 7350; total_fees := Float 7780 |} /\
  (Float 0 == Int 0)%py /\ (Float 7780 == Int 7780)%py /\
  forall (property_value : num) (r : DubaiFees),
    calculate_dubai_fees property_value = Ok r ->
    title_deed_fee r = Int 430 /\ conveyance_fee r = Int 7350 /\
    (s1 ← add (dld_fee r) (broker_fee r);
     s2 ← add s1 (title_deed_fee r);
     add s2 (conveyance_fee r)) = Ok (total_fees r).
Proof.
  split; [vm_compute; reflexivity|].
  split; [vm_compute; reflexivity|].
  split; [vm_compute; reflexivity|].
  intros pv r H. unfold calculate_dubai_fees in H. bind_inv H.
  injection H as <-. cbn [title_deed_fee conveyance_fee dld_fee broker_fee total_fees].
  split; [reflexivity|]. split; [reflexivity|].
  rewrite E1. cbn. rewrite E2. cbn. exact E3.
Qed.

(** *** C7: the effective annual return is the constant 6.0 *)

(** C7.  Whatever the total investment, the share amount and the holding
    period, a call of [calculate_share_investment] that returns has
    [effective_annual_return = 6.0]; and the call does return, with that
    value, whenever the total investment is not zero (the [int] arguments
    being in the range of [float]). *)
Theorem share_effective_annual_return
        (total_investment share_amount holding_period : num) :
  (forall r : ShareInvestment,
     calculate_share_investment total_investment share_amount holding_period = Ok r ->
     effective_annual_return r = Float 6) /\
  (bounded_int 1022 total_investment -> bounded_int 1022 share_amount ->
   bounded_int 1022 holding_period -> Py.eqb total_investment (Int 0) = false ->
   exists r : ShareInvestment,
     calculate_share_investment total_investment share_amount holding_period = Ok r /\
     effective_annual_return r = Float 6).
Proof.
  assert (Hc : forall r : ShareInvestment,
             calculate_share_investment total_investment share_amount holding_period = Ok r ->
             effective_annual_return r = Float 6).
  { intros r H. unfold calculate_share_investment in H.
    apply bind_Ok in H. destruct H as (fraction & _ & H).
    apply bind_Ok in H. destruct H as (percentage & _ & H).
    apply bind_Ok in H. destruct H as (monthly & _ & H).
    apply bind_Ok in H. destruct H as (total & _ & H).
    vm_compute in H. injection H as <-. reflexivity. }
  split; [exact Hc|]. intros Hti Hsa Hhp Hnz.
  destruct (share_returns _ _ _ Hti Hsa Hhp Hnz) as (r & Hr).
  exists r. split; [exact Hr | exact (Hc r Hr)].
Qed.

Lemma share_effective_annual_return_witness :
  exists r, calculate_share_investment (Int 1570000) (Int 1570000) (Int 12) = Ok r /\
            effective_annual_return r = Float 6.
Proof.
  apply (proj2 (share_effective_annual_return (Int 1570000) (Int 1570000) (Int 12)));
    try (apply Z.leb_le; vm_compute; reflexivity).
  vm_compute. reflexivity.
Defined.

(** *** C4: the valuation formula *)

(** The algorithm in the words of the specification. *)
Definition value_increase_spec (total_cost market_factor : num) : result num :=
  growth ← add (Int 1) market_factor;
  mul total_cost growth.

Definition base_value_spec (initial_value total_cost market_factor : num) : result num :=
  value_increase ← value_increase_spec total_cost market_factor;
  add initial_value value_increase.

Definition scenario_spec (base_markup : float) (base_value market_factor : num)
  : result num :=
  markup ← add (Float base_markup) market_factor;
  mul base_value markup.

Definition estimate_spec (initial_value total_cost market_factor : num)
  : result PropertyValues :=
  base_value ← base_value_spec initial_value total_cost market_factor;
  c ← scenario_spec 1.15 base_value market_factor;
  m ← scenario_spec 1.25 base_value market_factor;
  o ← scenario_spec 1.35 base_value market_factor;
  Ok {| conservative := c; moderate := m; optimistic := o |}.

(** C4.  [estimate_property_values] computes
    [value_increase = total_cost * (1 + market_factor)],
    [base_value = initial_value + value_increase] and returns
    [base_value * (1.15 + market_factor)], [base_value * (1.25 + market_factor)]
    and [base_value * (1.35 + market_factor)]; on [float] arguments these are
    the binary64 operations and the call always returns. *)
Theorem estimate_property_values_formula :
  (forall iv tc mf : num, estimate_property_values iv tc mf = estimate_spec iv tc mf) /\
  (forall iv tc mf : float,
     estimate_property_values (Float iv) (Float tc) (Float mf)
     = let base_value := (iv + tc * (1 + mf))%float in
       Ok {| conservative := Float (base_value * (1.15 + mf));
             moderate := Float (base_value * (1.25 + mf));
             optimistic := Float (base_value * (1.35 + mf)) |}).
Proof.
  split.
  - intros iv tc mf.
    unfold estimate_property_values, estimate_spec, base_value_spec,
      value_increase_spec, scenario_spec.
    destruct (add (Int 1) mf) as [g | e]; cbn [mbind result_bind]; [|reflexivity].
    destruct (mul tc g) as [vi | e]; cbn [mbind result_bind]; [|reflexivity].
    destruct (add iv vi) as [b | e]; cbn [mbind result_bind]; [|reflexivity].
    destruct (add (Float 1.15) mf) as [k1 | e]; cbn [mbind result_bind]; [|reflexivity].
    destruct (mul b k1) as [v1 | e]; cbn [mbind result_bind]; [|reflexivity].
    destruct (add (Float 1.25) mf) as [k2 | e]; cbn [mbind result_bind]; [|reflexivity].
    destruct (mul b k2) as [v2 | e]; cbn [mbind result_bind]; [|reflexivity].
    destruct (add (Float 1.35) mf) as [k3 | e]; cbn [mbind result_bind]; [|reflexivity].
    destruct (mul b k3) as [v3 | e]; cbn [mbind result_bind]; reflexivity.
  - intros iv tc mf. reflexivity.
Qed.

(** *** C10: an empty projection *)

(** [linspace] converts its end points first: a [float] or a machine
    [int] converts to its [float64]. *)
Lemma as_float_scalar (x : num) : Np.scalar x -> Np.as_float x = Ok (Np.float64 x).
Proof.
  destruct x as [z | f]; cbn [Np.scalar Np.as_float to_float Np.float64]; [|reflexivity].
  intros Hz. apply int_to_float_correct.
  rewrite <- abs_IZR, (bpow_IZR 1023) by lia. apply IZR_lt.
  apply Z.le_lt_trans with (2 ^ 64)%Z; [lia|]. now apply Z.pow_lt_mono_r.
Qed.

(** The conversion comes before the samples are built, so an [int] too
    large for a [float] makes the call fail even when no sample is asked
    for. *)
Lemma projection_zero_counterexample :
  generate_monthly_projection (Int (2 ^ 2000)) (Int 0) 0 = Raise OverflowError.
Proof. vm_compute. reflexivity. Qed.

(** C10, as amended.  With [months = 0], [generate_monthly_projection]
    returns the empty sequence and raises nothing, for every initial and
    final value that is a [float] or an [int] NumPy holds in a machine
    integer. *)
Theorem projection_zero_months (initial_value final_value : num) :
  Np.scalar initial_value -> Np.scalar final_value ->
  generate_monthly_projection initial_value final_value 0 = Ok [].
Proof.
  intros Hi Hf. unfold generate_monthly_projection, Np.linspace.
  rewrite (as_float_scalar _ Hi), (as_float_scalar _ Hf). reflexivity.
Qed.

Lemma projection_zero_months_witness :
  generate_monthly_projection (Int (-250000)) (Float 1e308) 0 = Ok [].
Proof.
  apply (projection_zero_months (Int (-250000)) (Float 1e308));
    cbn [Np.scalar]; [lia | exact I].
Defined.

(** *** C1: what makes the engine fail *)










(** *** The values of the literals *)

Lemma B2R_finite (f : float) (s : bool) (m : positive) (k : Z) :
  Prim2SF f = S754_finite s m (- k) -> (0 <= k)%Z ->
  finite f /\ B2R f = (IZR (cond_Zopp s (Zpos m)) / IZR (2 ^ k))%R.
Proof.
  unfold finite, B2R. intros -> Hk. split; [reflexivity|].
  cbn [SF2R]. now rewrite bpow_opp, bpow_IZR.
Qed.

Lemma B2R_0_88 : finite 0.88 /\ B2R 0.88 = (7926335344172073 / 9007199254740992)%R.
Proof. exact (B2R_finite 0.88 false 7926335344172073 53 eq_refl ltac:(lia)). Qed.

Lemma B2R_0_12 : finite 0.12 /\ B2R 0.12 = (8646911284551352 / 72057594037927936)%R.
Proof. exact (B2R_finite 0.12 false 8646911284551352 56 eq_refl ltac:(lia)). Qed.

Lemma B2R_1_15 : finite 1.15 /\ B2R 1.15 = (5179139571476070 / 4503599627370496)%R.
Proof. exact (B2R_finite 1.15 false 5179139571476070 52 eq_refl ltac:(lia)). Qed.

Lemma B2R_1_25 : finite 1.25 /\ B2R 1.25 = (5629499534213120 / 4503599627370496)%R.
Proof. exact (B2R_finite 1.25 false 5629499534213120 52 eq_refl ltac:(lia)). Qed.

Lemma B2R_1_35 : finite 1.35 /\ B2R 1.35 = (6079859496950170 / 4503599627370496)%R.
Proof. exact (B2R_finite 1.35 false 6079859496950170 52 eq_refl ltac:(lia)). Qed.

Lemma bpow_ge_1 (e : Z) : (0 <= e)%Z -> (1 <= bpow e)%R.
Proof. intros He. rewrite <- bpow_0. now apply bpow_le. Qed.

Lemma eta_double : (2 * bpow (-1075) = bpow (-1074))%R.
Proof.
  change (-1074)%Z with (1 + -1075)%Z. rewrite bpow_add, bpow_1. reflexivity.
Qed.

Lemma between_pow (k : Z) (x : num) :
  (0 <= k)%Z ->
  (Int (- 2 ^ k) <= x)%py -> (x <= Int (2 ^ k))%py ->
  num_finite x /\ (Rabs (N2R x) <= bpow k)%R.
Proof.
  intros Hk H1 H2.
  destruct (between (Int (- 2 ^ k)) (Int (2 ^ k)) x I I H1 H2) as (Hf & Hl & Hu).
  split; [exact Hf|]. cbn [N2R] in Hl, Hu. rewrite opp_IZR, <- bpow_IZR in Hl by lia.
  rewrite <- bpow_IZR in Hu by lia. apply Rabs_le_iff. lra.
Qed.

(** *** C3: the profit split *)

(** The split drifts on an input the page can produce: an initial value of
    1,000,000, 1,200 square feet at the medium rate, a market factor of 0.95
    and the moderate scenario, whose estimate is 4156240.0000000005. *)
Lemma roi_split_counterexample :
  estimate_property_values (Int 1000000) (Int 456000) (Float 0.95)
  = Ok {| conservative := Float 3967319.9999999995;
          moderate := Float 4156240.0000000005;
          optimistic := Float 4345160 |} /\
  calculate_roi_with_split (Int 1000000) (Float 4156240.0000000005) (Int 456000) (Int 12)
  = Ok {| total_profit := Float 2700240.0000000005;
          investor_profit := Float 2376211.2000000007;
          company_profit := Float 324028.80000000005;
          annual_roi := Float 163.20131868131872 |} /\
  add (Float 2376211.2000000007) (Float 324028.80000000005)
  = Ok (Float 2700240.0000000009) /\
  Py.eqb (Float 2700240.0000000009) (Float 2700240.0000000005) = false.
Proof. repeat split; vm_compute; reflexivity. Qed.

(** C3, as amended.  In the result of [calculate_roi_with_split] the two
    shares add up to the total profit up to binary64 rounding, not exactly:
    for a total profit [p] of magnitude at most [2 ^ 1021],
    [|investor_profit + company_profit - p| <= 2 ^ -51 * |p| + 2 ^ -1074]
    (the sum taken in the reals). *)
Theorem roi_split_sum (initial_investment final_value total_cost holding_period : num)
        (r : RoiSplit) :
  calculate_roi_with_split initial_investment final_value total_cost holding_period = Ok r ->
  (Int (- 2 ^ 1021) <= total_profit r)%py -> (total_profit r <= Int (2 ^ 1021))%py ->
  (Rabs (N2R (investor_profit r) + N2R (company_profit r) - N2R (total_profit r))
   <= bpow (-51) * Rabs (N2R (total_profit r)) + bpow (-1074))%R.
Proof.
  intros H Hlo Hhi. unfold calculate_roi_with_split in H.
  apply bind_Ok in H. destruct H as (ti & _ & H).
  apply bind_Ok in H. destruct H as (p & _ & H).
  apply bind_Ok in H. destruct H as (ip & Hip & H).
  apply bind_Ok in H. destruct H as (cp & Hcp & H).
  bind_inv H. injection H as <-.
  cbn [total_profit investor_profit company_profit] in *.
  destruct (between_pow 1021 p ltac:(lia) Hlo Hhi) as (Hf & Hp).
  destruct B2R_0_88 as (Hf1 & Hc1). destruct B2R_0_12 as (Hf2 & Hc2).
  pose proof bpow_1023 as Hb. pose proof (bpow_ge_1 1021 ltac:(lia)) as Hpos.
  pose proof (Rabs_pos (N2R p)) as Hp0.
  assert (Hmul : forall (c : float) (C : R), finite c -> B2R c = C -> (0 <= C <= 1)%R ->
             exists v, mul p (Float c) = Ok v /\ near (N2R p * C) v).
  { intros c C Hfc HC HC1. rewrite <- HC.
    apply (mul_correct p (Float c)); cbn [N2R num_finite]; try assumption.
    - lra.
    - rewrite HC, Rabs_pos_eq by lra. lra.
    - rewrite HC, Rabs_mult, (Rabs_pos_eq C) by lra. nra. }
  destruct (Hmul 0.88%float _ Hf1 Hc1 ltac:(lra))
    as (w1 & Hw1 & _ & _ & _ & d1 & h1 & Hd1 & Hh1 & _ & E1').
  destruct (Hmul 0.12%float _ Hf2 Hc2 ltac:(lra))
    as (w2 & Hw2 & _ & _ & _ & d2 & h2 & Hd2 & Hh2 & _ & E2').
  rewrite Hip in Hw1. injection Hw1 as <-. rewrite Hcp in Hw2. injection Hw2 as <-.
  rewrite E1', E2', <- eta_double, eps_value.
  rewrite eps_value in Hd1, Hd2. apply Rabs_le_iff in Hd1, Hd2, Hh1, Hh2.
  replace (N2R p * (7926335344172073 / 9007199254740992) * (1 + d1) + h1
           + (N2R p * (8646911284551352 / 72057594037927936) * (1 + d2) + h2) - N2R p)%R
    with (N2R p * (7926335344172073 / 9007199254740992 * d1
                   + 8646911284551352 / 72057594037927936 * d2) + (h1 + h2))%R by field.
  eapply Rle_trans; [apply Rabs_triang|]. rewrite Rabs_mult.
  assert (Rabs (7926335344172073 / 9007199254740992 * d1
                + 8646911284551352 / 72057594037927936 * d2) <= / 2251799813685248)%R
    by (apply Rabs_le_iff; lra).
  assert (Rabs (h1 + h2) <= 2 * bpow (-1075))%R by (apply Rabs_le_iff; lra).
  nra.
Qed.

Lemma roi_split_sum_witness :
  exists r,
    calculate_roi_with_split (Int 1000000) (Float 4156240.0000000005) (Int 456000) (Int 12)
    = Ok r /\
    (Rabs (N2R (investor_profit r) + N2R (company_profit r) - N2R (total_profit r))
     <= bpow (-51) * Rabs (N2R (total_profit r)) + bpow (-1074))%R.
Proof.
  eexists. split; [vm_compute; reflexivity|].
  apply (roi_split_sum (Int 1000000) (Float 4156240.0000000005) (Int 456000) (Int 12));
    vm_compute; reflexivity.
Defined.

(** *** One scenario of the valuation *)

Lemma bpow_1021_1000 : bpow 1021 = (2097152 * bpow 1000)%R.
Proof.
  change 1021%Z with (21 + 1000)%Z. rewrite bpow_add, (bpow_IZR 21) by lia. reflexivity.
Qed.

Lemma bpow_m1000_m1021 : bpow (-1000) = (2097152 * bpow (-1021))%R.
Proof.
  change (-1000)%Z with (21 + -1021)%Z. rewrite bpow_add, (bpow_IZR 21) by lia. reflexivity.
Qed.

(** The scenario value [base_value * (markup + market_factor)] for a markup
    between 1 and 2 and a market factor in [0, 1]: two roundings of the
    exact product. *)
Lemma scenario_near (c : float) (C : R) (b mf : num) :
  finite c -> B2R c = C -> (1 <= C <= 2)%R ->
  num_finite b -> (Rabs (N2R b) <= bpow 1000)%R ->
  num_finite mf -> (0 <= N2R mf <= 1)%R ->
  exists (k v : num) (d1 d2 h : R),
    add (Float c) mf = Ok k /\ mul b k = Ok v /\ num_finite v /\
    (Rabs d1 <= bpow (-51))%R /\ (Rabs d2 <= bpow (-51))%R /\
    (Rabs h <= bpow (-1075))%R /\
    ((bpow (-1000) <= Rabs (N2R b))%R -> h = 0%R) /\
    N2R v = (N2R b * ((C + N2R mf) * (1 + d1)) * (1 + d2) + h)%R.
Proof.
  intros Hfc HC HC12 Hfb Hb Hfm Hm.
  pose proof (bpow_ge_1 1000 ltac:(lia)) as H1000.
  pose proof bpow_1021_1000 as H1021. pose proof bpow_1023 as H1023.
  pose proof (bpow_le_1 (-1021) ltac:(lia)) as Hm1021.
  pose proof (bpow_pos (-1021)) as Hm1021'.
  pose proof bpow_m1000_m1021 as Hm1000.
  pose proof (Rabs_pos (N2R b)) as Hb0.
  destruct (add_correct (Float c) mf) as (k & Hk & Hkf & _ & _ & d1 & h1 & Hd1 & _ & Hh1 & Ek);
    cbn [N2R num_finite]; rewrite ?HC; try assumption; try lra.
  cbn [N2R] in Hh1, Ek. rewrite HC in Hh1, Ek.
  rewrite Hh1 in Ek by (rewrite Rabs_pos_eq by lra; lra).
  rewrite Rplus_0_r in Ek.
  pose proof Hd1 as Hd1'. rewrite eps_value in Hd1'. apply Rabs_le_iff in Hd1'.
  assert (Hk1 : (/ 2 <= N2R k <= 4)%R) by (rewrite Ek; nra).
  destruct (mul_correct b k) as (v & Hv & Hvf & _ & _ & d2 & h2 & Hd2 & Hh2 & Hh20 & Ev);
    try assumption.
  - lra.
  - rewrite Rabs_pos_eq by lra. lra.
  - rewrite Rabs_mult, (Rabs_pos_eq (N2R k)) by lra. nra.
  - exists k, v, d1, d2, h2. repeat split; try assumption.
    + intros Hbig. apply Hh20.
      rewrite Rabs_mult, (Rabs_pos_eq (N2R k)) by lra. nra.
    + rewrite Ev, Ek. ring.
Qed.

Lemma estimate_from_base (iv tc mf b : num) :
  base_value iv tc mf = Ok b ->
  estimate_property_values iv tc mf
  = (k1 ← add (Float 1.15) mf; v1 ← mul b k1;
     k2 ← add (Float 1.25) mf; v2 ← mul b k2;
     k3 ← add (Float 1.35) mf; v3 ← mul b k3;
     Ok {| conservative := v1; moderate := v2; optimistic := v3 |}).
Proof.
  unfold base_value, estimate_property_values.
  destruct (add (Int 1) mf) as [g | e]; cbn [mbind result_bind]; [|discriminate].
  destruct (mul tc g) as [vi | e]; cbn [mbind result_bind]; [|discriminate].
  now intros ->.
Qed.

(** The three scenarios, each as two roundings of its exact value. *)
Lemma estimate_near (iv tc mf b : num) :
  base_value iv tc mf = Ok b ->
  num_finite b -> (Rabs (N2R b) <= bpow 1000)%R ->
  num_finite mf -> (0 <= N2R mf <= 1)%R ->
  exists (r : PropertyValues),
    estimate_property_values iv tc mf = Ok r /\
    num_finite (conservative r) /\ num_finite (moderate r) /\ num_finite (optimistic r) /\
    exists d1 e1 h1 d2 e2 h2 d3 e3 h3 : R,
      (Rabs d1 <= bpow (-51) /\ Rabs e1 <= bpow (-51) /\ Rabs h1 <= bpow (-1075))%R /\
      (Rabs d2 <= bpow (-51) /\ Rabs e2 <= bpow (-51) /\ Rabs h2 <= bpow (-1075))%R /\
      (Rabs d3 <= bpow (-51) /\ Rabs e3 <= bpow (-51) /\ Rabs h3 <= bpow (-1075))%R /\
      ((bpow (-1000) <= Rabs (N2R b))%R -> h1 = 0 /\ h2 = 0 /\ h3 = 0)%R /\
      N2R (conservative r)
      = (N2R b * ((5179139571476070 / 4503599627370496 + N2R mf) * (1 + d1)) * (1 + e1) + h1)%R /\
      N2R (moderate r)
      = (N2R b * ((5629499534213120 / 4503599627370496 + N2R mf) * (1 + d2)) * (1 + e2) + h2)%R /\
      N2R (optimistic r)
      = (N2R b * ((6079859496950170 / 4503599627370496 + N2R mf) * (1 + d3)) * (1 + e3) + h3)%R.
Proof.
  intros Hbase Hfb Hb Hfm Hm.
  destruct B2R_1_15 as (Hf1 & Hc1). destruct B2R_1_25 as (Hf2 & Hc2).
  destruct B2R_1_35 as (Hf3 & Hc3).
  destruct (scenario_near _ _ b mf Hf1 Hc1 ltac:(lra) Hfb Hb Hfm Hm)
    as (k1 & v1 & d1 & e1 & h1 & Hk1 & Hv1 & Hvf1 & Hd1 & He1 & Hh1 & Hz1 & E1).
  destruct (scenario_near _ _ b mf Hf2 Hc2 ltac:(lra) Hfb Hb Hfm Hm)
    as (k2 & v2 & d2 & e2 & h2 & Hk2 & Hv2 & Hvf2 & Hd2 & He2 & Hh2 & Hz2 & E2).
  destruct (scenario_near _ _ b mf Hf3 Hc3 ltac:(lra) Hfb Hb Hfm Hm)
    as (k3 & v3 & d3 & e3 & h3 & Hk3 & Hv3 & Hvf3 & Hd3 & He3 & Hh3 & Hz3 & E3).
  exists {| conservative := v1; moderate := v2; optimistic := v3 |}.
  split.
  { rewrite (estimate_from_base iv tc mf b Hbase).
    rewrite Hk1; cbn [mbind result_bind]. rewrite Hv1; cbn [mbind result_bind].
    rewrite Hk2; cbn [mbind result_bind]. rewrite Hv2; cbn [mbind result_bind].
    rewrite Hk3; cbn [mbind result_bind]. rewrite Hv3; cbn [mbind result_bind].
    reflexivity. }
  cbn [conservative moderate optimistic].
  split; [exact Hvf1|]. split; [exact Hvf2|]. split; [exact Hvf3|].
  exists d1, e1, h1, d2, e2, h2, d3, e3, h3. repeat split; auto.
Qed.

Lemma scenario_error (C m d e : R) :
  (1 <= C <= 7 / 5)%R -> (0 <= m <= 1)%R ->
  (Rabs d <= bpow (-51))%R -> (Rabs e <= bpow (-51))%R ->
  (Rabs ((C + m) * (1 + d) * (1 + e) - (C + m)) <= 5 * bpow (-51))%R.
Proof.
  intros HC Hm Hd He. rewrite eps_value in *.
  apply Rabs_le_iff in Hd, He. apply Rabs_le_iff.
  assert (- (21 / 10) * / 2251799813685248 <= (1 + d) * (1 + e) - 1
          <= (21 / 10) * / 2251799813685248)%R by nra.
  nra.
Qed.

Lemma pow47_value : bpow (-47) = (16 * bpow (-51))%R.
Proof.
  change (-47)%Z with (4 + -51)%Z. rewrite bpow_add, (bpow_IZR 4) by lia. reflexivity.
Qed.

Lemma leb_unit_interval (mf : num) :
  (Int 0 <= mf)%py -> (mf <= Int 1)%py -> num_finite mf /\ (0 <= N2R mf <= 1)%R.
Proof. intros H0 H1. exact (between (Int 0) (Int 1) mf I I H0 H1). Qed.

(** *** C9: the spacing of the three scenarios *)

(** On the page's default inputs (1,000,000; 1,500 square feet at the medium
    rate; market factor 0) the two gaps differ. *)
Lemma scenario_spacing_counterexample :
  estimate_property_values (Int 1000000) (Int 570000) (Float 0)
  = Ok {| conservative := Float 1805499.9999999998;
          moderate := Float 1962500;
          optimistic := Float 2119500 |} /\
  sub (Float 1962500) (Float 1805499.9999999998) = Ok (Float 157000.00000000023) /\
  sub (Float 2119500) (Float 1962500) = Ok (Float 157000) /\
  Py.eqb (Float 157000.00000000023) (Float 157000) = false.
Proof. repeat split; vm_compute; reflexivity. Qed.

(** C9, as amended.  For a market factor in [0, 1] and a base value [b] (the
    [initial_value + total_cost * (1 + market_factor)] the function computes)
    of magnitude at most [2 ^ 1000], the gaps [moderate - conservative] and
    [optimistic - moderate] are each [0.1 * b] up to rounding: within
    [2 ^ -47 * |b| + 2 ^ -1074] of it (differences taken in the reals). *)
Theorem scenario_spacing (initial_value total_cost market_factor b : num) :
  base_value initial_value total_cost market_factor = Ok b ->
  (Int (- 2 ^ 1000) <= b)%py -> (b <= Int (2 ^ 1000))%py ->
  (Int 0 <= market_factor)%py -> (market_factor <= Int 1)%py ->
  exists r, estimate_property_values initial_value total_cost market_factor = Ok r /\
    (Rabs (N2R (moderate r) - N2R (conservative r) - N2R b / 10)
     <= bpow (-47) * Rabs (N2R b) + bpow (-1074))%R /\
    (Rabs (N2R (optimistic r) - N2R (moderate r) - N2R b / 10)
     <= bpow (-47) * Rabs (N2R b) + bpow (-1074))%R.
Proof.
  intros Hbase Hlo Hhi Hm0 Hm1.
  destruct (between_pow 1000 b ltac:(lia) Hlo Hhi) as (Hfb & Hb).
  destruct (leb_unit_interval _ Hm0 Hm1) as (Hfm & Hm).
  destruct (estimate_near _ _ _ _ Hbase Hfb Hb Hfm Hm)
    as (r & Hr & _ & _ & _ & d1 & e1 & h1 & d2 & e2 & h2 & d3 & e3 & h3
        & (Hd1 & He1 & Hh1) & (Hd2 & He2 & Hh2) & (Hd3 & He3 & Hh3) & _ & E1 & E2 & E3).
  exists r. split; [exact Hr|].
  rewrite E1, E2, E3, <- eta_double, pow47_value.
  set (m := N2R market_factor) in *. set (x := N2R b) in *.
  pose proof (scenario_error (5179139571476070 / 4503599627370496) m d1 e1
                ltac:(lra) Hm Hd1 He1) as A1.
  pose proof (scenario_error (5629499534213120 / 4503599627370496) m d2 e2
                ltac:(lra) Hm Hd2 He2) as A2.
  pose proof (scenario_error (6079859496950170 / 4503599627370496) m d3 e3
                ltac:(lra) Hm Hd3 He3) as A3.
  rewrite eps_value in *.
  apply Rabs_le_iff in A1, A2, A3, Hh1, Hh2, Hh3.
  pose proof (Rabs_pos x) as Hx0.
  split.
  - replace (x * ((5629499534213120 / 4503599627370496 + m) * (1 + d2)) * (1 + e2) + h2
             - (x * ((5179139571476070 / 4503599627370496 + m) * (1 + d1)) * (1 + e1) + h1)
             - x / 10)%R
      with (x * ((5629499534213120 / 4503599627370496 + m) * (1 + d2) * (1 + e2)
                 - (5179139571476070 / 4503599627370496 + m) * (1 + d1) * (1 + e1)
                 - 1 / 10) + (h2 - h1))%R by field.
    eapply Rle_trans; [apply Rabs_triang|]. rewrite Rabs_mult.
    assert (Rabs ((5629499534213120 / 4503599627370496 + m) * (1 + d2) * (1 + e2)
                  - (5179139571476070 / 4503599627370496 + m) * (1 + d1) * (1 + e1)
                  - 1 / 10) <= 16 * / 2251799813685248)%R by (apply Rabs_le_iff; lra).
    assert (Rabs (h2 - h1) <= 2 * bpow (-1075))%R by (apply Rabs_le_iff; lra).
    nra.
  - replace (x * ((6079859496950170 / 4503599627370496 + m) * (1 + d3)) * (1 + e3) + h3
             - (x * ((5629499534213120 / 4503599627370496 + m) * (1 + d2)) * (1 + e2) + h2)
             - x / 10)%R
      with (x * ((6079859496950170 / 4503599627370496 + m) * (1 + d3) * (1 + e3)
                 - (5629499534213120 / 4503599627370496 + m) * (1 + d2) * (1 + e2)
                 - 1 / 10) + (h3 - h2))%R by field.
    eapply Rle_trans; [apply Rabs_triang|]. rewrite Rabs_mult.
    assert (Rabs ((6079859496950170 / 4503599627370496 + m) * (1 + d3) * (1 + e3)
                  - (5629499534213120 / 4503599627370496 + m) * (1 + d2) * (1 + e2)
                  - 1 / 10) <= 16 * / 2251799813685248)%R by (apply Rabs_le_iff; lra).
    assert (Rabs (h3 - h2) <= 2 * bpow (-1075))%R by (apply Rabs_le_iff; lra).
    nra.
Qed.

Lemma scenario_spacing_witness :
  exists r, estimate_property_values (Int 1000000) (Int 570000) (Float 0) = Ok r /\
    (Rabs (N2R (moderate r) - N2R (conservative r) - N2R (Float 1570000) / 10)
     <= bpow (-47) * Rabs (N2R (Float 1570000)) + bpow (-1074))%R /\
    (Rabs (N2R (optimistic r) - N2R (moderate r) - N2R (Float 1570000) / 10)
     <= bpow (-47) * Rabs (N2R (Float 1570000)) + bpow (-1074))%R.
Proof.
  apply (scenario_spacing (Int 1000000) (Int 570000) (Float 0) (Float 1570000));
    vm_compute; reflexivity.
Defined.

(** *** C2: the order of the three scenarios *)

(** The order fails for a base value that is not positive (here 0, and a
    negative one, where it is reversed), and in binary64 also for one so
    small or so large that the products collapse. *)
Lemma estimate_ordering_counterexample :
  (Int 0 <= Int 0)%py /\
  estimate_property_values (Int 0) (Int 0) (Int 0)
  = Ok {| conservative := Float 0; moderate := Float 0; optimistic := Float 0 |} /\
  Py.ltb (Float 0) (Float 0) = false /\
  estimate_property_values (Int (-1000000)) (Int 0) (Int 0)
  = Ok {| conservative := Float (-1150000); moderate := Float (-1250000);
          optimistic := Float (-1350000) |} /\
  Py.ltb (Float (-1150000)) (Float (-1250000)) = false /\
  estimate_property_values (Float 5e-324) (Int 0) (Int 0)
  = Ok {| conservative := Float 5e-324; moderate := Float 5e-324;
          optimistic := Float 5e-324 |} /\
  Py.ltb (Float 5e-324) (Float 5e-324) = false /\
  estimate_property_values (Float 1.7e308) (Int 0) (Int 0)
  = Ok {| conservative := Float infinity; moderate := Float infinity;
          optimistic := Float infinity |} /\
  Py.ltb (Float infinity) (Float infinity) = false.
Proof. repeat split; vm_compute; reflexivity. Qed.

(** The order, from the real value of the base. *)
Lemma estimate_ordered (iv tc mf b : num) :
  base_value iv tc mf = Ok b ->
  num_finite b -> (bpow (-1000) <= N2R b <= bpow 1000)%R ->
  num_finite mf -> (0 <= N2R mf <= 1)%R ->
  exists r, estimate_property_values iv tc mf = Ok r /\
    (conservative r < moderate r)%py /\ (moderate r < optimistic r)%py.
Proof.
  intros Hbase Hfb Hb Hfm Hm.
  pose proof (bpow_pos (-1000)) as Hpos.
  assert (Habs : Rabs (N2R b) = N2R b) by (apply Rabs_pos_eq; lra).
  destruct (estimate_near _ _ _ _ Hbase Hfb ltac:(rewrite Habs; lra) Hfm Hm)
    as (r & Hr & Hf1 & Hf2 & Hf3 & d1 & e1 & h1 & d2 & e2 & h2 & d3 & e3 & h3
        & (Hd1 & He1 & _) & (Hd2 & He2 & _) & (Hd3 & He3 & _) & Hz & E1 & E2 & E3).
  destruct Hz as (-> & -> & ->); [rewrite Habs; lra|].
  exists r. split; [exact Hr|].
  set (m := N2R mf) in *. set (x := N2R b) in *.
  pose proof (scenario_error (5179139571476070 / 4503599627370496) m d1 e1
                ltac:(lra) Hm Hd1 He1) as A1.
  pose proof (scenario_error (5629499534213120 / 4503599627370496) m d2 e2
                ltac:(lra) Hm Hd2 He2) as A2.
  pose proof (scenario_error (6079859496950170 / 4503599627370496) m d3 e3
                ltac:(lra) Hm Hd3 He3) as A3.
  rewrite eps_value in *. apply Rabs_le_iff in A1, A2, A3.
  split; apply ltb_correct; try assumption.
  - rewrite E1, E2, !Rplus_0_r.
    assert ((5179139571476070 / 4503599627370496 + m) * (1 + d1) * (1 + e1)
            < (5629499534213120 / 4503599627370496 + m) * (1 + d2) * (1 + e2))%R by lra.
    nra.
  - rewrite E2, E3, !Rplus_0_r.
    assert ((5629499534213120 / 4503599627370496 + m) * (1 + d2) * (1 + e2)
            < (6079859496950170 / 4503599627370496 + m) * (1 + d3) * (1 + e3))%R by lra.
    nra.
Qed.

Lemma B2R_pow_m1000 : finite 0x1p-1000 /\ B2R 0x1p-1000 = bpow (-1000).
Proof.
  split; [reflexivity|]. unfold B2R.
  change (Prim2SF 0x1p-1000) with (S754_finite false 4503599627370496 (-1052)).
  cbn [SF2R cond_Zopp]. change 4503599627370496%Z with (2 ^ 52)%Z.
  rewrite <- (bpow_IZR 52), <- bpow_add by lia. reflexivity.
Qed.

(** C2, as amended.  For a market factor in [0, 1] and a base value (the
    [initial_value + total_cost * (1 + market_factor)] the function computes)
    between [2 ^ -1000] and [2 ^ 1000], so positive and neither tiny nor
    huge, the three values are strictly ordered:
    [conservative < moderate < optimistic]. *)
Theorem estimate_ordering (initial_value total_cost market_factor b : num) :
  base_value initial_value total_cost market_factor = Ok b ->
  (Float 0x1p-1000 <= b)%py -> (b <= Int (2 ^ 1000))%py ->
  (Int 0 <= market_factor)%py -> (market_factor <= Int 1)%py ->
  exists r, estimate_property_values initial_value total_cost market_factor = Ok r /\
    (conservative r < moderate r)%py /\ (moderate r < optimistic r)%py.
Proof.
  intros Hbase Hlo Hhi Hm0 Hm1.
  destruct B2R_pow_m1000 as (Hfc & Hc).
  destruct (between (Float 0x1p-1000) (Int (2 ^ 1000)) b Hfc I Hlo Hhi) as (Hfb & Hl & Hu).
  cbn [N2R] in Hl, Hu. rewrite Hc in Hl. rewrite <- (bpow_IZR 1000) in Hu by lia.
  destruct (leb_unit_interval _ Hm0 Hm1) as (Hfm & Hm).
  apply (estimate_ordered _ _ _ b); auto.
Qed.

Lemma estimate_ordering_witness :
  exists r, estimate_property_values (Int 1000000) (Int 570000) (Float 0) = Ok r /\
    (conservative r < moderate r)%py /\ (moderate r < optimistic r)%py.
Proof.
  apply (estimate_ordering (Int 1000000) (Int 570000) (Float 0) (Float 1570000));
    vm_compute; reflexivity.
Defined.

Lemma bpow_1000_990 : bpow 1000 = (1024 * bpow 990)%R.
Proof.
  change 1000%Z with (10 + 990)%Z. rewrite bpow_add, (bpow_IZR 10) by lia. reflexivity.
Qed.

Lemma bpow_1021_990 : bpow 1021 = (2147483648 * bpow 990)%R.
Proof.
  change 1021%Z with (31 + 990)%Z. rewrite bpow_add, (bpow_IZR 31) by lia. reflexivity.
Qed.

(** The base value of an initial value of at least 1 and a non-negative cost. *)
Lemma base_value_range (iv tc mf : num) :
  (Int 1 <= iv)%py -> (iv <= Int (2 ^ 990))%py ->
  (Int 0 <= tc)%py -> (tc <= Int (2 ^ 990))%py ->
  (Int 0 <= mf)%py -> (mf <= Int 1)%py ->
  exists b, base_value iv tc mf = Ok b /\ num_finite b /\
            (bpow (-1000) <= N2R b <= bpow 1000)%R.
Proof.
  intros Hi0 Hi1 Ht0 Ht1 Hm0 Hm1.
  destruct (between (Int 1) (Int (2 ^ 990)) iv I I Hi0 Hi1) as (Hfi & Hil & Hiu).
  destruct (between (Int 0) (Int (2 ^ 990)) tc I I Ht0 Ht1) as (Hft & Htl & Htu).
  destruct (leb_unit_interval _ Hm0 Hm1) as (Hfm & Hm).
  cbn [N2R] in Hil, Hiu, Htl, Htu.
  rewrite <- (bpow_IZR 990) in Hiu, Htu by lia.
  pose proof (bpow_ge_1 990 ltac:(lia)) as H990.
  pose proof bpow_1000_990 as H1000. pose proof bpow_1021_990 as H1021.
  pose proof bpow_1023 as H1023.
  pose proof (bpow_le_1 (-1021) ltac:(lia)) as Hm1021.
  pose proof (bpow_le_1 (-1000) ltac:(lia)) as Hm1000.
  pose proof (bpow_le_1 (-1075) ltac:(lia)) as Hm1075.
  pose proof eps_value as Heps.
  unfold base_value.
  destruct (add_correct (Int 1) mf) as (g & Hg & Hgf & _ & _ & d1 & h1 & Hd1 & _ & Hh1 & Eg);
    cbn [N2R num_finite]; try assumption; try lra.
  cbn [N2R] in Hh1, Eg. rewrite Hh1 in Eg by (rewrite Rabs_pos_eq by lra; lra).
  rewrite Rplus_0_r in Eg. rewrite Heps in Hd1. apply Rabs_le_iff in Hd1.
  assert (Hg1 : (/ 2 <= N2R g <= 3)%R) by (rewrite Eg; nra).
  rewrite Hg. cbn [mbind result_bind].
  destruct (mul_correct tc g) as (vi & Hvi & Hvif & Hvi0 & _ & d2 & h2 & Hd2 & Hh2 & _ & Evi);
    try assumption.
  - rewrite Rabs_pos_eq by lra. lra.
  - rewrite Rabs_pos_eq by lra. lra.
  - rewrite Rabs_pos_eq by nra. nra.
  - rewrite Hvi. cbn [mbind result_bind].
    rewrite Heps in Hd2. apply Rabs_le_iff in Hd2, Hh2.
    assert (Hvi1 : (0 <= N2R vi <= 4 * bpow 990)%R).
    { split; [apply Hvi0; nra|]. rewrite Evi.
      assert (0 <= N2R tc * N2R g <= 3 * bpow 990)%R by nra. nra. }
    destruct (add_correct iv vi) as (b & Hb & Hbf & _ & _ & d3 & h3 & Hd3 & _ & Hh3 & Eb);
      try assumption; try lra.
    rewrite Hh3 in Eb by (rewrite Rabs_pos_eq by lra; lra).
    rewrite Rplus_0_r in Eb. rewrite Heps in Hd3. apply Rabs_le_iff in Hd3.
    assert (Hhalf : (bpow (-1000) <= / 2)%R).
    { apply Rle_trans with (bpow (-1)); [apply bpow_le; lia|].
      change (-1)%Z with (- (1))%Z. rewrite bpow_opp, bpow_1. lra. }
    assert (HS : (1 <= N2R iv + N2R vi <= 5 * bpow 990)%R) by lra.
    exists b. split; [exact Hb|]. split; [exact Hbf|]. rewrite Eb. split; nra.
Qed.

(** In terms of the arguments: an initial value of at least 1, a
    non-negative cost (both at most [2 ^ 990]) and a market factor in [0, 1]
    give three strictly ordered values. *)
Lemma estimate_ordering_inputs (iv tc mf : num) :
  (Int 1 <= iv)%py -> (iv <= Int (2 ^ 990))%py ->
  (Int 0 <= tc)%py -> (tc <= Int (2 ^ 990))%py ->
  (Int 0 <= mf)%py -> (mf <= Int 1)%py ->
  exists r, estimate_property_values iv tc mf = Ok r /\
    (conservative r < moderate r)%py /\ (moderate r < optimistic r)%py.
Proof.
  intros Hi0 Hi1 Ht0 Ht1 Hm0 Hm1.
  destruct (base_value_range iv tc mf Hi0 Hi1 Ht0 Ht1 Hm0 Hm1) as (b & Hb & Hfb & Hr).
  destruct (leb_unit_interval _ Hm0 Hm1) as (Hfm & Hm).
  exact (estimate_ordered iv tc mf b Hb Hfb Hr Hfm Hm).
Qed.

(** *** C5: the shape of a projection *)

(** The sample [numpy.linspace] computes at index [i], before it stores the
    end point: [i * step + start] with [step = (stop - start) / div], or
    [i / div * (stop - start) + start] when that step is zero. *)
Definition sample (start stop : float) (div : Z) (i : nat) : float :=
  let delta := (stop - start)%float in
  let v := of_Z (Z.of_nat i) in
  if (0 <? div)%Z then
    let step := (delta / of_Z div)%float in
    if (step =? 0)%float then (v / of_Z div * delta + start)%float
    else (v * step + start)%float
  else (v * delta + start)%float.

(** With one month the single point is the start and not the end; the
    points from 0 to 1 in eleven months are not evenly spaced in binary64;
    and a difference that overflows leaves no point equal to the start. *)
Lemma projection_counterexample :
  generate_monthly_projection (Int 100) (Int 200) 1 = Ok [100%float] /\
  (100 =? 200)%float = false /\
  generate_monthly_projection (Int 0) (Int 1) 11
  = Ok [0; 0.1; 0.2; 0.30000000000000004; 0.4; 0.5; 0.6000000000000001;
        0.7000000000000001; 0.8; 0.9; 1]%float /\
  (0.30000000000000004 - 0.2 =? 0.2 - 0.1)%float = false /\
  generate_monthly_projection (Float (-1e308)) (Float 1e308) 1 = Ok [nan] /\
  (nan =? -1e308)%float = false /\
  generate_monthly_projection (Float (-1e308)) (Float 1e308) 3
  = Ok [nan; infinity; 1e308]%float.
Proof. repeat split; vm_compute; reflexivity. Qed.

Lemma linspace_samples (start stop : num) (samples : Z) :
  Np.scalar start -> Np.scalar stop -> (0 <= samples)%Z ->
  Np.linspace start stop samples
  = Ok (let y := map (sample (Np.float64 start) (Np.float64 stop) (samples - 1))
                     (seq 0 (Z.to_nat samples)) in
        if (1 <? samples)%Z then <[pred (length y) := Np.float64 stop]> y else y).
Proof.
  intros Hstart Hstop Hs. unfold Np.linspace, Np.arange, sample.
  destruct (Z.ltb_spec samples 0) as [Hneg | _]; [lia|]. cbv zeta.
  rewrite (as_float_scalar _ Hstart), (as_float_scalar _ Hstop).
  cbn [mbind result_bind].
  destruct (0 <? samples - 1)%Z;
    [destruct ((Np.float64 stop - Np.float64 start) / of_Z (samples - 1) =? 0)%float|];
    rewrite !map_map; reflexivity.
Qed.

Lemma lookup_map_seq {A : Type} (g : nat -> A) (n s i : nat) :
  (i < n)%nat -> map g (seq s n) !! i = Some (g (s + i)%nat).
Proof.
  revert s i. induction n as [|n IH]; intros s i Hi; [lia|].
  destruct i as [|i]; cbn [seq map].
  - now rewrite Nat.add_0_r.
  - change ((g s :: map g (seq (S s) n)) !! S i) with (map g (seq (S s) n) !! i).
    rewrite IH by lia. f_equal. f_equal. lia.
Qed.

(** The first sample is numerically the start, whenever the difference of
    the two ends is finite and the division by [div] cannot overflow. *)
Lemma sample_0 (start stop : float) (div : Z) :
  finite (stop - start) -> (Rabs (B2R (stop - start)) <= bpow 1022)%R ->
  (div < 2 ^ 63)%Z ->
  (sample start stop div 0 =? start)%float = true.
Proof.
  intros Hd Hb Hdiv. destruct (sub_finite_inv _ _ Hd) as [_ Hstart].
  assert (Hz : is_zero_SF (Prim2SF (of_Z (Z.of_nat 0))) = true) by reflexivity.
  unfold sample. cbv zeta. destruct (Z.ltb_spec 0 div) as [Hpos | _].
  - assert (Hr : (Rabs (IZR div) < bpow 1023)%R).
    { rewrite <- abs_IZR, (bpow_IZR 1023) by lia. apply IZR_lt.
      apply Z.lt_trans with (2 ^ 63)%Z; [lia|]. now apply Z.pow_lt_mono_r. }
    destruct (int_to_float_correct div Hr) as (_ & Hf & He & _).
    assert (H1 : (1 <= Rabs (IZR div))%R) by (apply IZR_abs_ge_1; lia).
    assert (Hu : (bpow (-53) <= / 4)%R).
    { rewrite u_value. lra. }
    assert (Hge : (/ 2 < Rabs (B2R (of_Z div)))%R).
    { destruct (rel_error _ _ _ (Rlt_le _ _ (bpow_pos (-53))) He) as (d & Hd1 & ->).
      rewrite Rabs_mult. apply Rabs_le_iff in Hd1.
      assert (/ 2 < Rabs (1 + d))%R by (rewrite Rabs_pos_eq; lra).
      pose proof (Rabs_pos (1 + d)). nra. }
    assert (Hnz : is_zero (of_Z div) = false).
    { apply B2R_nonzero; [exact Hf|]. intros E. rewrite E, Rabs_R0 in Hge. lra. }
    assert (Hstep : finite ((stop - start) / of_Z div)).
    { apply div_finite; auto.
      pose proof (bpow_pos 1022). change 1023%Z with (1 + 1022)%Z.
      rewrite bpow_add, bpow_1. nra. }
    destruct ((stop - start) / of_Z div =? 0)%float.
    + apply zero_add; [|exact Hstart]. apply zero_mul; [|exact Hd].
      now apply zero_div.
    + apply zero_add; [|exact Hstart]. now apply zero_mul.
  - apply zero_add; [|exact Hstart]. now apply zero_mul.
Qed.

Lemma B2R_pow_1022 : finite 0x1p1022 /\ B2R 0x1p1022 = bpow 1022.
Proof.
  split; [reflexivity|]. unfold B2R.
  change (Prim2SF 0x1p1022) with (S754_finite false 4503599627370496 970).
  cbn [SF2R cond_Zopp]. change 4503599627370496%Z with (2 ^ 52)%Z.
  rewrite <- (bpow_IZR 52), <- bpow_add by lia. reflexivity.
Qed.

Lemma between_pow_1022 (d : float) :
  (Float (- 0x1p1022) <= Float d)%py -> (Float d <= Float 0x1p1022)%py ->
  finite d /\ (Rabs (B2R d) <= bpow 1022)%R.
Proof.
  intros Hlo Hhi.
  destruct (between (Float (- 0x1p1022)) (Float 0x1p1022) (Float d)) as (Hf & Hl & Hu);
    [reflexivity | reflexivity | exact Hlo | exact Hhi |].
  cbn [N2R num_finite] in Hf, Hl, Hu. split; [exact Hf|].
  rewrite (proj2 B2R_pow_1022) in Hu.
  assert (E : B2R (- 0x1p1022) = (- bpow 1022)%R).
  { rewrite <- (proj2 B2R_pow_1022). unfold B2R.
    change (Prim2SF (- 0x1p1022)) with (S754_finite true 4503599627370496 970).
    change (Prim2SF 0x1p1022) with (S754_finite false 4503599627370496 970).
    cbn [SF2R cond_Zopp Z.opp].
    change (Z.neg 4503599627370496) with (- Z.pos 4503599627370496)%Z.
    rewrite opp_IZR. lra. }
  rewrite E in Hl. apply Rabs_le_iff. lra.
Qed.


(** ** Division and exact conversions *)

Lemma Z2SF_SF2R (z : Z) : is_finite_SF (Z2SF z) = true /\ SF2R (Z2SF z) = IZR z.
Proof.
  destruct z; cbn [Z2SF is_finite_SF SF2R cond_Zopp]; (split; [reflexivity|]);
    change (bpow 0) with 1%R; try lra.
  change (- Z.pos p)%Z with (Z.neg p). lra.
Qed.

(** An [int] below [2 ^ 53] in magnitude converts to a [float] exactly. *)
Lemma of_Z_exact (z : Z) :
  (Z.abs z < 2 ^ 53)%Z -> finite (of_Z z) /\ B2R (of_Z z) = IZR z.
Proof.
  intros Hz. destruct (binary_normalize_exact z Hz) as (Hv & Hf & Hval).
  unfold finite, B2R, of_Z. rewrite Prim2SF_SF2Prim by exact Hv. split; assumption.
Qed.

(** The quotient of two [int]s is correctly rounded. *)
Lemma int_truediv_correct (a b : Z) :
  b <> 0%Z -> (Rabs (IZR a) < bpow 1023 * Rabs (IZR b))%R ->
  exists q, int_truediv a b = Ok q /\ rounded (IZR a / IZR b) (Prim2SF q).
Proof.
  intros Hb Hov. unfold int_truediv.
  destruct (Z.eqb_spec b 0) as [E | _]; [contradiction|]. cbv zeta.
  destruct (Z2SF_SF2R a) as [Hfa Ha]. destruct (Z2SF_SF2R b) as [_ Hvb].
  assert (Hr : rounded (IZR a / IZR b) (SFdiv prec emax (Z2SF a) (Z2SF b))).
  { rewrite <- Ha, <- Hvb. apply SFdiv_rounded.
    - exact Hfa.
    - destruct b; [contradiction | exact I | exact I].
    - rewrite Ha, Hvb. exact Hov. }
  assert (Hp : Prim2SF (SF2Prim (SFdiv prec emax (Z2SF a) (Z2SF b)))
               = SFdiv prec emax (Z2SF a) (Z2SF b))
    by (apply Prim2SF_SF2Prim, (rounded_valid _ _ Hr)).
  assert (Hfin : finite (SF2Prim (SFdiv prec emax (Z2SF a) (Z2SF b)))).
  { unfold finite. rewrite Hp. exact (rounded_finite _ _ Hr). }
  rewrite (is_infinity_finite _ Hfin). eexists. split; [reflexivity|].
  rewrite Hp. exact Hr.
Qed.

(** An exact quotient of [int]s below [2 ^ 53] is that [int] as a [float]. *)
Lemma int_truediv_exact (b r : Z) :
  b <> 0%Z -> r <> 0%Z -> (Z.abs r < 2 ^ 53)%Z ->
  int_truediv (b * r) b = Ok (of_Z r).
Proof.
  intros Hb Hr Hlt. unfold int_truediv.
  destruct (Z.eqb_spec b 0) as [E | _]; [contradiction|]. cbv zeta.
  destruct (binary_normalize_exact r Hlt) as (Hv2 & Hf2 & Hval2).
  assert (H : valid_binary (SFdiv prec emax (Z2SF (b * r)) (Z2SF b)) = true /\
              is_finite_SF (SFdiv prec emax (Z2SF (b * r)) (Z2SF b)) = true /\
              SF2R (SFdiv prec emax (Z2SF (b * r)) (Z2SF b)) = IZR r).
  { destruct b as [| pb | pb], r as [| pr | pr]; try contradiction;
      cbn [Z.mul Z2SF].
    - exact (SFdiv_pos_exact false false pb pr Hlt).
    - exact (SFdiv_pos_exact true false pb pr Hlt).
    - exact (SFdiv_pos_exact true true pb pr Hlt).
    - exact (SFdiv_pos_exact false true pb pr Hlt). }
  destruct H as (Hv1 & Hf1 & Hval1).
  assert (E : SFdiv prec emax (Z2SF (b * r)) (Z2SF b) = binary_normalize prec emax r 0 false).
  { apply SF2R_inj; try assumption; [congruence|].
    rewrite Hval1. intros E0. apply eq_IZR in E0. contradiction. }
  rewrite E. fold (of_Z r).
  assert (Hfin : finite (of_Z r)) by (apply of_Z_exact; exact Hlt).
  rewrite (is_infinity_finite _ Hfin). reflexivity.
Qed.

Lemma rounded_near (v : R) (q : float) : rounded v (Prim2SF q) -> near v (Float q).
Proof.
  intros Hr. destruct (rounded_delta _ _ Hr) as (d & h & Hd & Hh & Hh0 & Hv).
  split; [exact (rounded_finite _ _ Hr)|]. cbn [N2R].
  split; [exact (rounded_nonneg _ _ Hr)|]. split; [exact (rounded_nonpos _ _ Hr)|].
  exists d, h. split; [|split; [exact Hh | split; [|exact Hv]]].
  - eapply Rle_trans; [exact Hd|]. apply bpow_le. lia.
  - intros Hn. apply Hh0. eapply Rle_trans; [|exact Hn]. apply bpow_le. lia.
Qed.

Lemma truediv_float_correct (fx fy : float) (x y dx dy : R) :
  finite fx -> finite fy ->
  (Rabs dx <= bpow (-53))%R -> (Rabs dy <= bpow (-53))%R ->
  B2R fx = (x * (1 + dx))%R -> B2R fy = (y * (1 + dy))%R ->
  y <> 0%R -> (Rabs x <= bpow 1021 * Rabs y)%R ->
  is_zero fy = false /\ near (x / y) (Float (fx / fy)).
Proof.
  intros Hfx Hfy Hdx Hdy Hvx Hvy Hy Hxy.
  rewrite u_value in Hdx, Hdy. apply Rabs_le_iff in Hdx, Hdy.
  assert (Hy' : B2R fy <> 0%R) by (rewrite Hvy; nra).
  assert (Hz : is_zero fy = false) by (apply B2R_nonzero; assumption).
  split; [exact Hz|].
  assert (Hay : (0 < Rabs y)%R) by (apply Rabs_pos_lt; exact Hy).
  pose proof (Rabs_pos x) as Hax. pose proof (bpow_pos 1021) as Hb.
  assert (Hov : (Rabs (B2R fx) < bpow 1023 * Rabs (B2R fy))%R).
  { rewrite Hvx, Hvy, !Rabs_mult, (Rabs_pos_eq (1 + dx)), (Rabs_pos_eq (1 + dy)), bpow_1023
      by lra.
    assert (Rabs x * (1 + dx) <= bpow 1021 * Rabs y * (1 + dx))%R
      by (apply Rmult_le_compat_r; lra).
    assert (0 < bpow 1021 * Rabs y)%R by nra. nra. }
  pose proof (div_rounded fx fy Hfx Hfy Hz Hov) as Hr.
  set (rho := ((1 + dx) / (1 + dy))%R).
  assert (Hrho : (rho * (1 + dy) = 1 + dx)%R) by (unfold rho; field; lra).
  assert (Hrho1 : (1 - / 4000000000000000 <= rho <= 1 + / 4000000000000000)%R) by nra.
  assert (Hq : (B2R fx / B2R fy = x / y * rho)%R).
  { rewrite Hvx, Hvy. unfold rho. field. split; lra. }
  rewrite Hq in Hr.
  destruct (rounded_delta _ _ Hr) as (d & h & Hd & Hh & Hh0 & Hv).
  split; [exact (rounded_finite _ _ Hr)|]. cbn [N2R].
  split; [intros H0; apply (rounded_nonneg _ _ Hr); nra|].
  split; [intros H0; apply (rounded_nonpos _ _ Hr); nra|].
  exists (rho * (1 + d) - 1)%R, h.
  split; [|split; [exact Hh | split; [|unfold B2R; rewrite Hv; ring]]].
  - rewrite u_value in Hd. apply Rabs_le_iff in Hd.
    rewrite eps_value. apply Rabs_le_iff. nra.
  - intros Hn. apply Hh0. rewrite Rabs_mult, (Rabs_pos_eq rho) by lra.
    rewrite bpow_m1021 in Hn. pose proof (bpow_pos (-1022)).
    pose proof (Rabs_pos (x / y)). nra.
Qed.

(** Division of two numbers. *)
Lemma truediv_correct (x y : num) :
  num_finite x -> num_finite y ->
  (Rabs (N2R x) < bpow 1023)%R -> (Rabs (N2R y) < bpow 1023)%R ->
  N2R y <> 0%R -> (Rabs (N2R x) <= bpow 1021 * Rabs (N2R y))%R ->
  exists q : float, truediv x y = Ok (Float q) /\ near (N2R x / N2R y) (Float q).
Proof.
  intros Hfx Hfy Hx Hy Hy0 Hxy.
  destruct (to_float_delta x Hfx Hx) as (fx & dx & Hcx & Hfinx & Hdx & Hvx).
  destruct (to_float_delta y Hfy Hy) as (fy & dy & Hcy & Hfiny & Hdy & Hvy).
  destruct (truediv_float_correct fx fy _ _ dx dy Hfinx Hfiny Hdx Hdy Hvx Hvy Hy0 Hxy)
    as [Hz Hn].
  destruct x as [a | f], y as [b | g]; unfold truediv.
  1:{ cbn [N2R] in *.
      assert (Hb : b <> 0%Z) by (intros ->; now apply Hy0).
      destruct (int_truediv_correct a b Hb) as (q & -> & Hr).
      - assert (0 < Rabs (IZR b))%R by (apply Rabs_pos_lt; exact Hy0).
        pose proof (bpow_pos 1021). pose proof (Rabs_pos (IZR a)).
        rewrite bpow_1023. nra.
      - exists q. split; [reflexivity|]. apply rounded_near. exact Hr. }
  all: exists (fx / fy)%float; rewrite Hcx, Hcy; cbn [mbind result_bind];
    unfold float_truediv; rewrite Hz; split; [reflexivity | exact Hn].
Qed.

(** A number a [float] holds exactly: a finite [float], or an [int] below
    [2 ^ 53] in magnitude. *)
Definition exact_num (x : num) : Prop :=
  match x with
  | Int z => (Z.abs z < 2 ^ 53)%Z
  | Float f => finite f
  end.

Lemma exact_num_finite (x : num) : exact_num x -> num_finite x.
Proof. destruct x; cbn; auto. Qed.

Lemma to_float_exact (x : num) :
  exact_num x -> exists f, to_float x = Ok f /\ finite f /\ B2R f = N2R x.
Proof.
  destruct x as [z | f]; cbn [exact_num to_float N2R]; intros H.
  - destruct (of_Z_exact z H) as [Hf Hv]. exists (of_Z z).
    unfold int_to_float. rewrite (is_infinity_finite _ Hf). auto.
  - exists f. auto.
Qed.

Lemma near_rel (v : R) (r : num) :
  near v r -> (bpow (-1021) <= Rabs v)%R ->
  exists d, (Rabs d <= bpow (-51))%R /\ N2R r = (v * (1 + d))%R.
Proof.
  intros (_ & _ & _ & d & h & Hd & _ & Hh & E) Hv.
  exists d. split; [exact Hd|]. rewrite E, (Hh Hv). ring.
Qed.

Lemma near_finite (v : R) (r : num) : near v r -> num_finite r.
Proof. now intros (H & _). Qed.

Lemma near_sign (v : R) (r : num) :
  near v r -> ((0 <= v -> 0 <= N2R r) /\ (v <= 0 -> N2R r <= 0))%R.
Proof. intros (_ & H1 & H2 & _). now split. Qed.

(** Subtraction of two numbers a [float] holds exactly: one rounding of the
    exact difference. *)
Lemma sub_correct (x y : num) :
  exact_num x -> exact_num y -> (Rabs (N2R x - N2R y) <= bpow 1021)%R ->
  exists r : num, sub x y = Ok r /\ near (N2R x - N2R y) r.
Proof.
  intros Hx Hy Hxy.
  destruct (to_float_exact x Hx) as (fx & Hcx & Hfx & Hvx).
  destruct (to_float_exact y Hy) as (fy & Hcy & Hfy & Hvy).
  assert (Hn : near (N2R x - N2R y) (Float (fx - fy))).
  { apply rounded_near. rewrite <- Hvx, <- Hvy. apply sub_rounded; try assumption.
    rewrite Hvx, Hvy, bpow_1023. pose proof (bpow_pos 1021). lra. }
  destruct x as [a | f], y as [b | g].
  1:{ exists (Int (a - b)). split; [reflexivity|].
      cbn [N2R]. rewrite <- minus_IZR. apply (near_exact (Int (a - b))). exact I. }
  all: exists (Float (fx - fy));
    (split; [unfold sub; apply binop_float; (assumption || discriminate) | exact Hn]).
Qed.

(** ** More of the engine *)

(** *** The total cost *)

Lemma base_costs_aed_Some (q : string) (rate : Z) :
  base_costs_aed !! q = Some rate <->
  (q = "basic" /\ rate = 300%Z) \/ (q = "medium" /\ rate = 380%Z) \/
  (q = "luxury" /\ rate = 780%Z).
Proof.
  unfold base_costs_aed. rewrite !lookup_insert_Some, lookup_empty.
  split.
  - intros [[<- <-] | [_ [[<- <-] | [_ [[<- <-] | [_ H]]]]]]; auto. discriminate.
  - intros [[-> ->] | [[-> ->] | [-> ->]]].
    + left. auto.
    + right. split; [discriminate|]. left. auto.
    + right. split; [discriminate|]. right. split; [discriminate|]. left. auto.
Qed.

Lemma total_cost_Int (q : string) (rate a : Z) :
  base_costs_aed !! q = Some rate ->
  calculate_total_cost (Int a) q = Ok (Int (a * rate)).
Proof.
  intros H. unfold calculate_total_cost, getitem. rewrite H. reflexivity.
Qed.

(** X1.  On an integer square footage the total cost is exact integer
    arithmetic: for each level it is additive in the square footage,
    strictly increasing, and positive on a positive square footage. *)
Theorem total_cost_int_linear (q : string) (rate a b : Z) :
  base_costs_aed !! q = Some rate ->
  exists ca cb : Z,
    calculate_total_cost (Int a) q = Ok (Int ca) /\
    calculate_total_cost (Int b) q = Ok (Int cb) /\
    calculate_total_cost (Int (a + b)) q = Ok (Int (ca + cb)) /\
    ((a < b)%Z -> (ca < cb)%Z) /\ ((0 < a)%Z -> (0 < ca)%Z).
Proof.
  intros H. exists (a * rate)%Z, (b * rate)%Z.
  rewrite !(total_cost_Int q rate) by exact H.
  assert (Hr : (0 < rate)%Z).
  { apply base_costs_aed_Some in H. destruct H as [[_ ->] | [[_ ->] | [_ ->]]]; lia. }
  repeat split; try nia. f_equal. f_equal. ring.
Qed.

Lemma total_cost_int_linear_witness :
  exists ca cb : Z,
    calculate_total_cost (Int 1500) "medium" = Ok (Int ca) /\
    calculate_total_cost (Int 2000) "medium" = Ok (Int cb) /\
    calculate_total_cost (Int (1500 + 2000)) "medium" = Ok (Int (ca + cb)) /\
    ((1500 < 2000)%Z -> (ca < cb)%Z) /\ ((0 < 1500)%Z -> (0 < ca)%Z).
Proof.
  apply (total_cost_int_linear "medium" 380 1500 2000). reflexivity.
Defined.

(** X2.  Divided by the (integer, non-zero) square footage, as the page does to
    display the package rate, the total cost gives back the rate of the level
    exactly. *)
Theorem total_cost_per_square_foot (q : string) (rate square_feet : Z) :
  base_costs_aed !! q = Some rate -> square_feet <> 0%Z ->
  exists total_cost : num,
    calculate_total_cost (Int square_feet) q = Ok total_cost /\
    truediv total_cost (Int square_feet) = Ok (Float (of_Z rate)).
Proof.
  intros H Hsf. exists (Int (square_feet * rate)).
  split; [now apply total_cost_Int|].
  unfold truediv. rewrite int_truediv_exact; [reflexivity | exact Hsf | |];
    apply base_costs_aed_Some in H; destruct H as [[_ ->] | [[_ ->] | [_ ->]]];
    try discriminate; apply Z.ltb_lt; reflexivity.
Qed.

Lemma total_cost_per_square_foot_witness :
  exists total_cost : num,
    calculate_total_cost (Int 1500) "luxury" = Ok total_cost /\
    truediv total_cost (Int 1500) = Ok (Float 780).
Proof.
  apply (total_cost_per_square_foot "luxury" 780 1500); [reflexivity | lia].
Defined.


(** *** Rounding as an interval *)

Definition eps : R := (/ 2251799813685248)%R.
Definition eta : R := (/ 1267650600228229401496703205376)%R.

Lemma eta_bound : (bpow (-1075) <= eta)%R.
Proof.
  apply Rle_trans with (bpow (-100)); [apply bpow_le; lia|].
  change (-100)%Z with (- (100))%Z. rewrite bpow_opp, (bpow_IZR 100) by lia.
  apply Rle_refl.
Qed.

(** A number near a non-negative real. *)
Lemma near_bounds (v : R) (r : num) :
  near v r -> (0 <= v)%R ->
  (0 <= N2R r /\ v - eps * v - eta <= N2R r <= v + eps * v + eta)%R.
Proof.
  intros (_ & H0 & _ & d & h & Hd & Hh & _ & E) Hv.
  split; [now apply H0|].
  rewrite eps_value in Hd. fold eps in Hd. pose proof eta_bound.
  apply Rabs_le_iff in Hd, Hh. rewrite E. clear E H0.
  assert (- (eps * v) <= v * d <= eps * v)%R by (unfold eps in *; nra).
  lra.
Qed.

(** A number near a real that is at least 1. *)
Lemma near_bounds_1 (v : R) (r : num) :
  near v r -> (1 <= v)%R ->
  (v - eps * v <= N2R r <= v + eps * v)%R.
Proof.
  intros Hn Hv. destruct (near_rel v r Hn) as (d & Hd & E).
  { rewrite Rabs_pos_eq by lra. pose proof (bpow_le_1 (-1021) ltac:(lia)). lra. }
  rewrite eps_value in Hd. fold eps in Hd. apply Rabs_le_iff in Hd. rewrite E.
  assert (- (eps * v) <= v * d <= eps * v)%R by (unfold eps in *; nra).
  lra.
Qed.

(** A number near a real of any sign. *)
Lemma near_error (v : R) (r : num) :
  near v r -> (Rabs (N2R r - v) <= eps * Rabs v + eta)%R.
Proof.
  intros (_ & _ & _ & d & h & Hd & Hh & _ & E).
  rewrite eps_value in Hd. fold eps in Hd. pose proof eta_bound.
  rewrite E. replace (v * (1 + d) + h - v)%R with (v * d + h)%R by ring.
  eapply Rle_trans; [apply Rabs_triang|]. rewrite Rabs_mult.
  pose proof (Rabs_pos v). assert (Rabs v * Rabs d <= eps * Rabs v)%R by nra. lra.
Qed.

(** *** The fees *)

Lemma B2R_0_04 : finite 0.04 /\ B2R 0.04 = (5764607523034235 / 144115188075855872)%R.
Proof. exact (B2R_finite 0.04 false 5764607523034235 57 eq_refl ltac:(lia)). Qed.

Lemma B2R_0_02 : finite 0.02 /\ B2R 0.02 = (5764607523034235 / 288230376151711744)%R.
Proof. exact (B2R_finite 0.02 false 5764607523034235 58 eq_refl ltac:(lia)). Qed.

Lemma bpow_m48 : bpow (-48) = (8 * eps)%R.
Proof.
  change (-48)%Z with (3 + -51)%Z. rewrite bpow_add, (bpow_IZR 3), eps_value by lia.
  reflexivity.
Qed.

(** The fees on a non-negative property value, as real numbers. *)
Lemma dubai_fees_bounds (pv : num) :
  num_finite pv -> (0 <= N2R pv <= bpow 1000)%R ->
  exists r : DubaiFees,
    calculate_dubai_fees pv = Ok r /\
    num_finite (dld_fee r) /\ num_finite (broker_fee r) /\ num_finite (total_fees r) /\
    (0 <= N2R (dld_fee r))%R /\ (0 <= N2R (broker_fee r))%R /\
    title_deed_fee r = Int 430 /\ conveyance_fee r = Int 7350 /\
    (Rabs (N2R (total_fees r) - (6 / 100 * N2R pv + 7780))
     <= bpow (-48) * (6 / 100 * N2R pv + 7780))%R.
Proof.
  intros Hf Hpv. set (X := N2R pv) in *.
  destruct B2R_0_04 as [Hf4 Hc4]. destruct B2R_0_02 as [Hf2 Hc2].
  pose proof (bpow_ge_1 1000 ltac:(lia)) as H1000.
  pose proof bpow_1021_1000 as H1021. pose proof bpow_1023 as H1023.
  unfold calculate_dubai_fees.
  destruct (mul_correct pv (Float 0.04)) as (dld & Edld & Hdld);
    cbn [N2R num_finite]; fold X; rewrite ?Hc4; try assumption.
  { rewrite Rabs_pos_eq by lra. lra. }
  { rewrite Rabs_pos_eq by lra. lra. }
  { rewrite Rabs_pos_eq by lra. lra. }
  destruct (mul_correct pv (Float 0.02)) as (broker & Ebroker & Hbroker);
    cbn [N2R num_finite]; fold X; rewrite ?Hc2; try assumption.
  { rewrite Rabs_pos_eq by lra. lra. }
  { rewrite Rabs_pos_eq by lra. lra. }
  { rewrite Rabs_pos_eq by lra. lra. }
  rewrite Edld, Ebroker. cbn [mbind result_bind].
  cbn [N2R] in Hdld, Hbroker. rewrite Hc4 in Hdld. rewrite Hc2 in Hbroker.
  fold X in Hdld, Hbroker.
  pose proof (near_finite _ _ Hdld) as Hfd. pose proof (near_finite _ _ Hbroker) as Hfb.
  destruct (near_bounds _ _ Hdld ltac:(lra)) as [Hd0 Bd].
  destruct (near_bounds _ _ Hbroker ltac:(lra)) as [Hb0 Bb].
  unfold eps, eta in Bd, Bb.
  destruct (add_correct dld broker) as (s1 & Es1 & Hs1); try assumption.
  { lra. }
  rewrite Es1. cbn [mbind result_bind].
  pose proof (near_finite _ _ Hs1) as Hfs1.
  destruct (near_bounds _ _ Hs1 ltac:(lra)) as [Hs10 B1]. unfold eps, eta in B1.
  destruct (add_correct s1 (Int 430)) as (s2 & Es2 & Hs2); cbn [N2R num_finite];
    try exact I; try assumption; try lra.
  rewrite Es2. cbn [mbind result_bind].
  pose proof (near_finite _ _ Hs2) as Hfs2.
  pose proof (near_bounds_1 _ _ Hs2 ltac:(cbn [N2R]; lra)) as B2.
  cbn [N2R] in B2. unfold eps in B2.
  destruct (add_correct s2 (Int 7350)) as (total & Etotal & Htotal); cbn [N2R num_finite];
    try exact I; try assumption; try lra.
  rewrite Etotal. cbn [mbind result_bind].
  pose proof (near_finite _ _ Htotal) as Hft.
  pose proof (near_bounds_1 _ _ Htotal ltac:(cbn [N2R]; lra)) as B3.
  cbn [N2R] in B3. unfold eps in B3.
  eexists. split; [reflexivity|].
  cbn [dld_fee broker_fee total_fees title_deed_fee conveyance_fee].
  repeat split; try assumption.
  rewrite bpow_m48. unfold eps. apply Rabs_le_iff. lra.
Qed.

(** X3.  On a non-negative property value (of at most [2 ^ 1000]) the call
    returns, the two proportional fees are non-negative, and the total is 6%
    of the value plus the fixed 7780, up to a relative rounding error of
    [2 ^ -48]. *)
Theorem dubai_fees_accuracy (property_value : num) :
  (Int 0 <= property_value)%py -> (property_value <= Int (2 ^ 1000))%py ->
  exists r : DubaiFees,
    calculate_dubai_fees property_value = Ok r /\
    (Int 0 <= dld_fee r)%py /\ (Int 0 <= broker_fee r)%py /\
    (Rabs (N2R (total_fees r) - (6 / 100 * N2R property_value + 7780))
     <= bpow (-48) * (6 / 100 * N2R property_value + 7780))%R.
Proof.
  intros H0 H1.
  destruct (between (Int 0) (Int (2 ^ 1000)) property_value I I H0 H1) as (Hf & Hl & Hu).
  cbn [N2R] in Hl, Hu. rewrite <- (bpow_IZR 1000) in Hu by lia.
  destruct (dubai_fees_bounds property_value Hf (conj Hl Hu))
    as (r & Hr & Hfd & Hfb & _ & Hd & Hb & _ & _ & Ht).
  exists r. split; [exact Hr|].
  split; [apply leb_correct; [exact I | exact Hfd | exact Hd]|].
  split; [apply leb_correct; [exact I | exact Hfb | exact Hb]|]. exact Ht.
Qed.

Lemma dubai_fees_accuracy_witness :
  exists r : DubaiFees,
    calculate_dubai_fees (Float 1962500) = Ok r /\
    (Int 0 <= dld_fee r)%py /\ (Int 0 <= broker_fee r)%py /\
    (Rabs (N2R (total_fees r) - (6 / 100 * N2R (Float 1962500) + 7780))
     <= bpow (-48) * (6 / 100 * N2R (Float 1962500) + 7780))%R.
Proof.
  apply (dubai_fees_accuracy (Float 1962500)); vm_compute; reflexivity.
Defined.

(** *** Relative errors and magnitudes *)

(** [x] is [v] up to a relative error of [n] units of [2 ^ -51]. *)
Definition rel (n : R) (v x : R) : Prop :=
  exists u : R, x = (v * u)%R /\ (Rabs (u - 1) <= n * eps)%R.

(** [v] is neither tiny nor huge: between [2 ^ -k] and [2 ^ k] in magnitude. *)
Definition mag (k : Z) (v : R) : Prop := (bpow (- k) <= Rabs v <= bpow k)%R.

Lemma eps_pos : (0 < eps)%R.
Proof. unfold eps. lra. Qed.

Lemma rel_exact (v : R) : rel 0 v v.
Proof. exists 1%R. split; [ring|]. rewrite Rminus_diag, Rabs_R0. lra. Qed.

Lemma rel_weaken (n m v x : R) : (n <= m)%R -> rel n v x -> rel m v x.
Proof.
  intros Hnm (u & E & Hu). exists u. split; [exact E|].
  pose proof eps_pos. eapply Rle_trans; [exact Hu|]. nra.
Qed.

Lemma rel_trans (n m v x y : R) :
  (0 <= n <= 100)%R -> (0 <= m <= 100)%R ->
  rel n v x -> rel m x y -> rel (n + m + / 100) v y.
Proof.
  intros Hn Hm (u & -> & Hu) (w & -> & Hw). exists (u * w)%R. split; [ring|].
  apply Rabs_le_iff in Hu, Hw. apply Rabs_le_iff. unfold eps in *.
  assert (- (1 / 10000000000000) <= n * / 2251799813685248 <= 1 / 10000000000000)%R by lra.
  assert (- (1 / 10000000000000) <= m * / 2251799813685248 <= 1 / 10000000000000)%R by lra.
  split; nra.
Qed.

Lemma rel_mul (n m v w x y : R) :
  (0 <= n <= 100)%R -> (0 <= m <= 100)%R ->
  rel n v x -> rel m w y -> rel (n + m + / 100) (v * w) (x * y).
Proof.
  intros Hn Hm (u & -> & Hu) (t & -> & Ht). exists (u * t)%R. split; [ring|].
  apply Rabs_le_iff in Hu, Ht. apply Rabs_le_iff. unfold eps in *.
  assert (- (1 / 10000000000000) <= n * / 2251799813685248 <= 1 / 10000000000000)%R by lra.
  assert (- (1 / 10000000000000) <= m * / 2251799813685248 <= 1 / 10000000000000)%R by lra.
  split; nra.
Qed.

Lemma quotient_bound (S q t : R) :
  (0 <= S)%R -> (- (1 / 10000000000000) <= t - 1 <= 1 / 10000000000000)%R ->
  (- S <= (q - 1) * t <= S)%R ->
  (- (S * (1 + 2 / 10000000000000)) <= q - 1 <= S * (1 + 2 / 10000000000000))%R.
Proof. intros HS Ht Hq. split; nra. Qed.

Lemma rel_div (n m v w x y : R) :
  (0 <= n <= 100)%R -> (0 <= m <= 100)%R -> w <> 0%R ->
  rel n v x -> rel m w y -> rel (n + m + / 100) (v / w) (x / y).
Proof.
  intros Hn Hm Hw (u & -> & Hu) (t & -> & Ht).
  apply Rabs_le_iff in Hu, Ht. unfold eps in *.
  assert (Hn' : (- (1 / 10000000000000) <= n * / 2251799813685248 <= 1 / 10000000000000)%R)
    by lra.
  assert (Hm' : (- (1 / 10000000000000) <= m * / 2251799813685248 <= 1 / 10000000000000)%R)
    by lra.
  assert (Ht0 : (0 < t)%R) by lra.
  exists (u / t)%R. split; [field; split; (assumption || lra)|].
  set (q := (u / t)%R). assert (Hq : ((q - 1) * t = u - t)%R) by (unfold q; field; lra).
  apply Rabs_le_iff. unfold eps.
  set (a := (n * / 2251799813685248)%R) in *. set (b := (m * / 2251799813685248)%R) in *.
  replace ((n + m + / 100) * / 2251799813685248)%R
    with (a + b + / 100 * / 2251799813685248)%R by (unfold a, b; ring).
  pose proof (quotient_bound (a + b) q t ltac:(unfold a, b; lra) ltac:(lra)
                ltac:(rewrite Hq; lra)) as Hb.
  lra.
Qed.

Lemma rel_abs (n v x : R) :
  (0 <= n)%R -> rel n v x -> (Rabs (x - v) <= n * eps * Rabs v)%R.
Proof.
  intros Hn (u & -> & Hu). replace (v * u - v)%R with (v * (u - 1))%R by ring.
  rewrite Rabs_mult. pose proof (Rabs_pos v). nra.
Qed.

Lemma rel_sign (n v x : R) :
  (0 <= n <= 100)%R -> rel n v x ->
  ((0 < v -> 0 < x) /\ (v < 0 -> x < 0) /\ (v = 0 -> x = 0))%R.
Proof.
  intros Hn (u & -> & Hu). apply Rabs_le_iff in Hu. unfold eps in *.
  assert (0 < u)%R by lra. repeat split; intros; nra.
Qed.

Lemma mag_rel (k : Z) (n v x : R) :
  (0 <= n <= 100)%R -> mag k v -> rel n v x -> mag (k + 1) x.
Proof.
  intros Hn [Hl Hu] (u & -> & Hr). apply Rabs_le_iff in Hr. unfold eps in *.
  assert (Hu1 : (/ 2 <= u <= 2)%R) by lra.
  unfold mag. rewrite Rabs_mult, (Rabs_pos_eq u) by lra.
  replace (- (k + 1))%Z with (- (1) + - k)%Z by lia.
  rewrite !bpow_add, bpow_1. change (- (1))%Z with (- 1)%Z.
  assert (E : bpow (-1) = (/ 2)%R).
  { change (-1)%Z with (- (1))%Z. rewrite bpow_opp, bpow_1. reflexivity. }
  rewrite E. pose proof (bpow_pos (- k)). pose proof (bpow_pos k).
  pose proof (Rabs_pos v). split; nra.
Qed.

Lemma mag_mul (a b : Z) (v w : R) : mag a v -> mag b w -> mag (a + b) (v * w).
Proof.
  intros [Hl1 Hu1] [Hl2 Hu2]. unfold mag. rewrite Rabs_mult.
  replace (- (a + b))%Z with (- a + - b)%Z by lia. rewrite !bpow_add.
  pose proof (bpow_pos (- a)). pose proof (bpow_pos (- b)).
  pose proof (bpow_pos a). pose proof (bpow_pos b).
  split; [apply Rmult_le_compat; lra | apply Rmult_le_compat; lra].
Qed.

Lemma mag_inv (a : Z) (v : R) : mag a v -> mag a (/ v).
Proof.
  intros [Hl Hu]. unfold mag. pose proof (bpow_pos (- a)) as Hp.
  assert (Hv : v <> 0%R).
  { intros ->. rewrite Rabs_R0 in Hl. lra. }
  rewrite Rabs_inv. rewrite (bpow_opp a) in *.
  pose proof (bpow_pos a) as Hpa.
  split.
  - apply Rinv_le_contravar; lra.
  - rewrite <- (Rinv_inv (bpow a)). apply Rinv_le_contravar; [|exact Hl].
    apply Rinv_0_lt_compat. exact Hpa.
Qed.

Lemma mag_div (a b : Z) (v w : R) : mag a v -> mag b w -> mag (a + b) (v / w).
Proof. intros Hv Hw. apply mag_mul; [exact Hv | now apply mag_inv]. Qed.

Lemma mag_nonzero (k : Z) (v : R) : mag k v -> v <> 0%R.
Proof.
  intros [Hl _] ->. rewrite Rabs_R0 in Hl. pose proof (bpow_pos (- k)). lra.
Qed.

Lemma mag_weaken (k k' : Z) (v : R) : (k <= k')%Z -> mag k v -> mag k' v.
Proof.
  intros Hk [Hl Hu]. split.
  - eapply Rle_trans; [|exact Hl]. apply bpow_le. lia.
  - eapply Rle_trans; [exact Hu|]. apply bpow_le. lia.
Qed.

Lemma mag_between (k : Z) (v : R) :
  (0 <= k)%Z -> (1 <= Rabs v <= bpow k)%R -> mag k v.
Proof.
  intros Hk [Hl Hu]. split; [|exact Hu].
  eapply Rle_trans; [|exact Hl]. apply bpow_le_1. lia.
Qed.

Lemma near_rel1 (k : Z) (v : R) (r : num) :
  (k <= 1021)%Z -> near v r -> mag k v -> rel 1 v (N2R r) /\ mag (k + 1) (N2R r).
Proof.
  intros Hk Hn Hm.
  assert (Hr : rel 1 v (N2R r)).
  { destruct (near_rel v r Hn) as (d & Hd & E).
    - destruct Hm as [Hl _]. eapply Rle_trans; [|exact Hl]. apply bpow_le. lia.
    - exists (1 + d)%R. split; [exact E|].
      replace (1 + d - 1)%R with d by ring. rewrite eps_value in Hd. fold eps in Hd. lra. }
  split; [exact Hr|]. apply (mag_rel k 1 v); [lra | exact Hm | exact Hr].
Qed.

Lemma mag_lt_1023 (k : Z) (v : R) : (k <= 1022)%Z -> mag k v -> (Rabs v < bpow 1023)%R.
Proof.
  intros Hk [_ Hu]. eapply Rle_lt_trans; [exact Hu|]. apply bpow_lt. lia.
Qed.

(** A product of two numbers that are neither tiny nor huge: one rounding. *)
Lemma mul_rel (a b : Z) (x y : num) :
  (0 <= a)%Z -> (0 <= b)%Z -> (a + b <= 1021)%Z ->
  num_finite x -> num_finite y -> mag a (N2R x) -> mag b (N2R y) ->
  exists r : num, mul x y = Ok r /\ num_finite r /\
    rel 1 (N2R x * N2R y) (N2R r) /\ mag (a + b + 1) (N2R r).
Proof.
  intros Ha Hb Hab Hfx Hfy Hx Hy.
  pose proof (mag_mul a b _ _ Hx Hy) as Hxy.
  destruct (mul_correct x y) as (r & Er & Hn); try assumption.
  - apply (mag_lt_1023 a); [lia | exact Hx].
  - apply (mag_lt_1023 b); [lia | exact Hy].
  - destruct Hxy as [_ Hu]. eapply Rle_trans; [exact Hu|]. apply bpow_le. lia.
  - exists r. split; [exact Er|]. split; [exact (near_finite _ _ Hn)|].
    apply near_rel1; [lia | exact Hn | exact Hxy].
Qed.

(** A quotient of two numbers that are neither tiny nor huge: one rounding. *)
Lemma truediv_rel (a b : Z) (x y : num) :
  (0 <= a)%Z -> (0 <= b)%Z -> (a + b <= 1021)%Z ->
  num_finite x -> num_finite y -> mag a (N2R x) -> mag b (N2R y) ->
  exists q : float, truediv x y = Ok (Float q) /\ finite q /\
    rel 1 (N2R x / N2R y) (B2R q) /\ mag (a + b + 1) (B2R q).
Proof.
  intros Ha Hb Hab Hfx Hfy Hx Hy.
  pose proof (mag_div a b _ _ Hx Hy) as Hxy.
  destruct (truediv_correct x y) as (q & Eq & Hn); try assumption.
  - apply (mag_lt_1023 a); [lia | exact Hx].
  - apply (mag_lt_1023 b); [lia | exact Hy].
  - exact (mag_nonzero _ _ Hy).
  - destruct Hx as [_ Hxu]. destruct Hy as [Hyl _].
    eapply Rle_trans; [exact Hxu|].
    apply Rle_trans with (bpow 1021 * bpow (- b))%R.
    + rewrite <- bpow_add. apply bpow_le. lia.
    + apply Rmult_le_compat_l; [left; apply bpow_pos | exact Hyl].
  - exists q. split; [exact Eq|]. split; [exact (near_finite _ _ Hn)|].
    exact (near_rel1 (a + b) _ _ ltac:(lia) Hn Hxy).
Qed.

Lemma mag_IZR (k z : Z) : (0 <= k)%Z -> (1 <= Z.abs z <= 2 ^ k)%Z -> mag k (IZR z).
Proof.
  intros Hk [Hl Hu]. apply mag_between; [exact Hk|]. rewrite <- abs_IZR. split.
  - now apply IZR_le.
  - rewrite (bpow_IZR k) by lia. now apply IZR_le.
Qed.

Lemma mag_value (k : Z) (lo hi v : R) :
  (0 <= k)%Z -> (1 <= lo)%R -> (hi <= IZR (2 ^ k))%R -> (lo <= v <= hi)%R -> mag k v.
Proof.
  intros Hk Hlo Hhi Hv. apply mag_between; [exact Hk|].
  rewrite Rabs_pos_eq by lra. rewrite (bpow_IZR k) by lia. lra.
Qed.

Lemma mag_1 (v : R) : (/ 2 <= Rabs v <= 2)%R -> mag 1 v.
Proof.
  intros Hv. unfold mag. change (- 1)%Z with (- (1))%Z.
  rewrite bpow_opp, bpow_1. exact Hv.
Qed.

(** The literals, relative to the decimals they are written as. *)
Lemma rel_literal (f : float) (m : positive) (k : Z) (c : R) :
  Prim2SF f = S754_finite false m (- k) -> (0 <= k)%Z -> (0 < c)%R ->
  (Rabs (IZR (Zpos m) / IZR (2 ^ k) / c - 1) <= / 4 * eps)%R ->
  finite f /\ rel (/ 4) c (B2R f).
Proof.
  intros Hf Hk Hc Hb. destruct (B2R_finite f false m k Hf Hk) as [Hfin Hv].
  split; [exact Hfin|]. cbn [cond_Zopp] in Hv.
  exists (IZR (Zpos m) / IZR (2 ^ k) / c)%R. split; [|exact Hb].
  assert (0 < 2 ^ k)%Z by (apply Z.pow_pos_nonneg; lia).
  rewrite Hv. field. split; try lra; apply not_0_IZR; lia.
Qed.

Lemma rel_0_88 : finite 0.88 /\ rel (/ 4) (88 / 100) (B2R 0.88).
Proof.
  apply (rel_literal 0.88 7926335344172073 53); [reflexivity | lia | lra |].
  change (IZR (2 ^ 53)) with 9007199254740992%R. unfold eps. apply Rabs_le_iff. lra.
Qed.

Lemma rel_0_12 : finite 0.12 /\ rel (/ 4) (12 / 100) (B2R 0.12).
Proof.
  apply (rel_literal 0.12 8646911284551352 56); [reflexivity | lia | lra |].
  change (IZR (2 ^ 56)) with 72057594037927936%R. unfold eps. apply Rabs_le_iff. lra.
Qed.

Lemma rel_0_005 : finite 0.005 /\ rel (/ 4) (5 / 1000) (B2R 0.005).
Proof.
  apply (rel_literal 0.005 5764607523034235 60); [reflexivity | lia | lra |].
  change (IZR (2 ^ 60)) with 1152921504606846976%R. unfold eps. apply Rabs_le_iff. lra.
Qed.

Lemma rel_mag_1 (c x : R) : (6 / 10 <= c <= 19 / 10)%R -> rel (/ 4) c x -> mag 1 x.
Proof.
  intros Hc (u & -> & Hu). apply Rabs_le_iff in Hu. unfold eps in Hu.
  apply mag_1. rewrite Rabs_pos_eq by nra. split; nra.
Qed.

Lemma rel_mag_small (k : Z) (c x : R) :
  (1 <= k)%Z -> (2 * bpow (- k) <= c <= 1)%R -> rel (/ 4) c x -> mag k x.
Proof.
  intros Hk Hc (u & -> & Hu). apply Rabs_le_iff in Hu. unfold eps in Hu.
  pose proof (bpow_pos (- k)). pose proof (bpow_le 1 k Hk) as H2. rewrite bpow_1 in H2.
  unfold mag. rewrite Rabs_pos_eq by nra. split; nra.
Qed.

(** A [float] or [int] that is neither zero, tiny nor huge, of either
    sign: the condition is a pair of Python comparisons. *)
Definition sized (x : num) : Prop :=
  ((Float 0x1p-200 <= x)%py /\ (x <= Float 0x1p200)%py) \/
  ((Float (- 0x1p200) <= x)%py /\ (x <= Float (- 0x1p-200))%py).

Lemma B2R_pow2 (f : float) (s : bool) (e : Z) :
  Prim2SF f = S754_finite s 4503599627370496 e ->
  finite f /\ B2R f = (if s then - bpow (e + 52) else bpow (e + 52))%R.
Proof.
  intros H. unfold finite, B2R. rewrite H. split; [reflexivity|]. cbn [SF2R].
  rewrite !IZR_cond_Zopp, bpow_add, (bpow_IZR 52) by lia.
  change (IZR (2 ^ 52)) with 4503599627370496%R. destruct s; ring.
Qed.

Lemma sized_mag (x : num) : sized x -> num_finite x /\ mag 200 (N2R x).
Proof.
  destruct (B2R_pow2 0x1p-200 false (-252) eq_refl) as [F1 V1].
  destruct (B2R_pow2 0x1p200 false 148 eq_refl) as [F2 V2].
  destruct (B2R_pow2 (- 0x1p200) true 148 eq_refl) as [F3 V3].
  destruct (B2R_pow2 (- 0x1p-200) true (-252) eq_refl) as [F4 V4].
  change (-252 + 52)%Z with (-200)%Z in V1, V4. change (148 + 52)%Z with 200%Z in V2, V3.
  pose proof (bpow_pos (-200)). pose proof (bpow_pos 200).
  intros [[Hl Hu] | [Hl Hu]].
  - destruct (between (Float 0x1p-200) (Float 0x1p200) x F1 F2 Hl Hu) as (Hf & H1 & H2).
    cbn [N2R] in H1, H2. rewrite V1 in H1. rewrite V2 in H2.
    split; [exact Hf|]. unfold mag. change (Z.opp 200) with (-200)%Z.
    rewrite Rabs_pos_eq by lra. lra.
  - destruct (between (Float (- 0x1p200)) (Float (- 0x1p-200)) x F3 F4 Hl Hu)
      as (Hf & H1 & H2).
    cbn [N2R] in H1, H2. rewrite V3 in H1. rewrite V4 in H2.
    split; [exact Hf|]. unfold mag. change (Z.opp 200) with (-200)%Z.
    rewrite Rabs_left by lra. lra.
Qed.

(** *** The profit split and the annual ROI *)

Lemma bpow_m50 : bpow (-50) = (2 * eps)%R.
Proof.
  change (-50)%Z with (1 + -51)%Z. rewrite bpow_add, bpow_1, eps_value. reflexivity.
Qed.

Lemma bpow_m49 : bpow (-49) = (4 * eps)%R.
Proof.
  change (-49)%Z with (2 + -51)%Z. rewrite bpow_add, (bpow_IZR 2), eps_value by lia.
  reflexivity.
Qed.

(** The chain of [calculate_roi_with_split] after the profit: each value up
    to its relative rounding error. *)
Lemma roi_rel (ii fv tc hp ti p : num) :
  add ii tc = Ok ti -> sub fv ti = Ok p ->
  num_finite p -> num_finite ti -> num_finite hp ->
  mag 200 (N2R p) -> mag 200 (N2R ti) -> mag 200 (N2R hp) ->
  exists r : RoiSplit,
    calculate_roi_with_split ii fv tc hp = Ok r /\ total_profit r = p /\
    num_finite (investor_profit r) /\ num_finite (company_profit r) /\
    num_finite (annual_roi r) /\
    rel 2 (N2R p * (88 / 100)) (N2R (investor_profit r)) /\
    rel 2 (N2R p * (12 / 100)) (N2R (company_profit r)) /\
    rel 8 (N2R p * (88 / 100) / N2R ti * (12 / N2R hp) * 100) (N2R (annual_roi r)).
Proof.
  intros Hadd Hsub Hfp Hfti Hfhp Hp Hti Hhp.
  destruct rel_0_88 as [Hf88 Hr88]. destruct rel_0_12 as [Hf12 Hr12].
  pose proof (rel_mag_1 (88 / 100) (B2R 0.88) ltac:(lra) Hr88) as Hm88.
  pose proof (rel_mag_small 5 (12 / 100) (B2R 0.12) ltac:(lia)
                ltac:(rewrite (bpow_opp 5), (bpow_IZR 5) by lia;
                      change (IZR (2 ^ 5)) with 32%R; lra) Hr12) as Hm12.
  unfold calculate_roi_with_split. rewrite Hadd. cbn [mbind result_bind].
  rewrite Hsub. cbn [mbind result_bind].
  destruct (mul_rel 200 1 p (Float 0.88)) as (inv & -> & Hfi & Ri & Mi);
    try assumption; try lia.
  destruct (mul_rel 200 5 p (Float 0.12)) as (com & -> & Hfc & Rc & Mc);
    try assumption; try lia.
  cbn [mbind result_bind]. cbn [N2R] in Ri, Rc, Mi, Mc.
  change (200 + 1 + 1)%Z with 202%Z in Mi.
  assert (Ri' : rel (13 / 10) (N2R p * (88 / 100)) (N2R inv)).
  { apply (rel_weaken (0 + / 4 + / 100 + 1 + / 100)); [lra|].
    eapply rel_trans; [| |apply rel_mul; [| |apply rel_exact|exact Hr88]|exact Ri]; lra. }
  assert (Rc' : rel (13 / 10) (N2R p * (12 / 100)) (N2R com)).
  { apply (rel_weaken (0 + / 4 + / 100 + 1 + / 100)); [lra|].
    eapply rel_trans; [| |apply rel_mul; [| |apply rel_exact|exact Hr12]|exact Rc]; lra. }
  destruct (truediv_rel 202 200 inv ti) as (yield & -> & Hfy & Ry & My);
    try assumption; try lia.
  cbn [mbind result_bind]. change (202 + 200 + 1)%Z with 403%Z in My.
  assert (Ry' : rel (24 / 10) (N2R p * (88 / 100) / N2R ti) (B2R yield)).
  { apply (rel_weaken (13 / 10 + 0 + / 100 + 1 + / 100)); [lra|].
    eapply rel_trans; [| |apply rel_div; [| | |exact Ri'|apply rel_exact]|exact Ry];
      try lra. exact (mag_nonzero _ _ Hti). }
  destruct (truediv_rel 4 200 (Int 12) hp) as (per_year & -> & Hfpy & Rpy & Mpy);
    try assumption; try lia; try exact I.
  { apply mag_IZR; [lia|]. split; [lia|]. apply Z.leb_le. reflexivity. }
  cbn [mbind result_bind]. change (4 + 200 + 1)%Z with 205%Z in Mpy. cbn [N2R] in Rpy.
  destruct (mul_rel 403 205 (Float yield) (Float per_year)) as (scaled & -> & Hfs & Rs & Ms);
    try assumption; try lia.
  cbn [mbind result_bind]. change (403 + 205 + 1)%Z with 609%Z in Ms. cbn [N2R] in Rs.
  assert (Rs' : rel (45 / 10) (N2R p * (88 / 100) / N2R ti * (12 / N2R hp)) (N2R scaled)).
  { apply (rel_weaken (24 / 10 + 1 + / 100 + 1 + / 100)); [lra|].
    eapply rel_trans; [| |apply rel_mul; [| |exact Ry'|exact Rpy]|exact Rs]; lra. }
  destruct (mul_rel 609 7 scaled (Int 100)) as (roi & -> & Hfr & Rr & Mr);
    try assumption; try lia; try exact I.
  { apply mag_IZR; [lia|]. split; [lia|]. apply Z.leb_le. reflexivity. }
  cbn [mbind result_bind]. cbn [N2R] in Rr.
  eexists. split; [reflexivity|].
  cbn [total_profit investor_profit company_profit annual_roi].
  repeat split; try assumption;
    try (apply (rel_weaken (13 / 10)); [lra | assumption]).
  apply (rel_weaken (45 / 10 + 0 + / 100 + 1 + / 100)); [lra|].
  eapply rel_trans; [| |apply rel_mul; [| |exact Rs'|apply rel_exact]|exact Rr]; lra.
Qed.

(** X4.  Whenever the profit is neither zero, tiny nor huge (and so are the total
    investment and the holding period), the call returns; the investor's
    and the company's shares are 88% and 12% of the profit up to a relative
    error of [2 ^ -50], and the annual ROI is
    [0.88 * profit / total_investment * (12 / holding_period) * 100] up to a
    relative error of [2 ^ -48]. *)
Theorem roi_accuracy
        (initial_investment final_value total_cost holding_period
         total_investment profit : num) :
  add initial_investment total_cost = Ok total_investment ->
  sub final_value total_investment = Ok profit ->
  sized profit -> sized total_investment -> sized holding_period ->
  exists r : RoiSplit,
    calculate_roi_with_split initial_investment final_value total_cost holding_period
    = Ok r /\
    total_profit r = profit /\
    (Rabs (N2R (investor_profit r) - N2R profit * (88 / 100))
     <= bpow (-50) * Rabs (N2R profit * (88 / 100)))%R /\
    (Rabs (N2R (company_profit r) - N2R profit * (12 / 100))
     <= bpow (-50) * Rabs (N2R profit * (12 / 100)))%R /\
    (Rabs (N2R (annual_roi r)
           - N2R profit * (88 / 100) / N2R total_investment
             * (12 / N2R holding_period) * 100)
     <= bpow (-48)
        * Rabs (N2R profit * (88 / 100) / N2R total_investment
                * (12 / N2R holding_period) * 100))%R.
Proof.
  intros Hadd Hsub Hp Hti Hhp.
  destruct (sized_mag _ Hp) as [Hfp Mp]. destruct (sized_mag _ Hti) as [Hfti Mti].
  destruct (sized_mag _ Hhp) as [Hfhp Mhp].
  destruct (roi_rel _ _ _ _ _ _ Hadd Hsub Hfp Hfti Hfhp Mp Mti Mhp)
    as (r & Hr & Hpr & _ & _ & _ & Ri & Rc & Rr).
  exists r. split; [exact Hr|]. split; [exact Hpr|].
  rewrite bpow_m50, bpow_m48.
  split; [apply rel_abs; [lra | exact Ri]|].
  split; [apply rel_abs; [lra | exact Rc]|].
  apply rel_abs; [lra | exact Rr].
Qed.

Lemma roi_accuracy_witness :
  exists r : RoiSplit,
    calculate_roi_with_split (Int 1000000) (Float 1962500) (Int 570000) (Int 12) = Ok r /\
    total_profit r = Float 392500 /\
    (Rabs (N2R (investor_profit r) - N2R (Float 392500) * (88 / 100))
     <= bpow (-50) * Rabs (N2R (Float 392500) * (88 / 100)))%R /\
    (Rabs (N2R (company_profit r) - N2R (Float 392500) * (12 / 100))
     <= bpow (-50) * Rabs (N2R (Float 392500) * (12 / 100)))%R /\
    (Rabs (N2R (annual_roi r)
           - N2R (Float 392500) * (88 / 100) / N2R (Int 1570000)
             * (12 / N2R (Int 12)) * 100)
     <= bpow (-48)
        * Rabs (N2R (Float 392500) * (88 / 100) / N2R (Int 1570000)
                * (12 / N2R (Int 12)) * 100))%R.
Proof.
  apply (roi_accuracy (Int 1000000) (Float 1962500) (Int 570000) (Int 12)
                      (Int 1570000) (Float 392500));
    try reflexivity; left; split; vm_compute; reflexivity.
Defined.

Lemma roi_inv (ii fv tc hp : num) (r : RoiSplit) :
  calculate_roi_with_split ii fv tc hp = Ok r ->
  exists ti : num,
    add ii tc = Ok ti /\ sub fv ti = Ok (total_profit r) /\
    mul (total_profit r) (Float 0.88) = Ok (investor_profit r) /\
    mul (total_profit r) (Float 0.12) = Ok (company_profit r).
Proof.
  intros H. unfold calculate_roi_with_split in H.
  apply bind_Ok in H. destruct H as (ti & Eti & H).
  apply bind_Ok in H. destruct H as (p & Ep & H).
  apply bind_Ok in H. destruct H as (inv & Einv & H).
  apply bind_Ok in H. destruct H as (com & Ecom & H).
  apply bind_Ok in H. destruct H as (yield & _ & H).
  apply bind_Ok in H. destruct H as (per_year & _ & H).
  apply bind_Ok in H. destruct H as (scaled & _ & H).
  apply bind_Ok in H. destruct H as (roi & _ & H).
  injection H as <-. cbn [total_profit investor_profit company_profit].
  exists ti. auto.
Qed.

(** X5.  A loss is not clamped.  When the final value is below the total
    investment (and their difference, as Python computes it, is neither
    tiny nor huge), the total profit and both shares are strictly negative;
    when it is above, the three are strictly positive.  (The final value
    and the total investment are numbers a [float] holds exactly, the final
    value of magnitude at most [2 ^ 1000].) *)
Theorem roi_profit_sign
        (initial_investment final_value total_cost holding_period
         total_investment profit : num) :
  add initial_investment total_cost = Ok total_investment ->
  sub final_value total_investment = Ok profit ->
  exact_num final_value -> exact_num total_investment ->
  (Int (- 2 ^ 1000) <= final_value)%py -> (final_value <= Int (2 ^ 1000))%py ->
  sized profit -> sized total_investment -> sized holding_period ->
  exists r : RoiSplit,
    calculate_roi_with_split initial_investment final_value total_cost holding_period
    = Ok r /\
    ((final_value < total_investment)%py ->
     (total_profit r < Int 0)%py /\ (investor_profit r < Int 0)%py /\
     (company_profit r < Int 0)%py) /\
    ((total_investment < final_value)%py ->
     (Int 0 < total_profit r)%py /\ (Int 0 < investor_profit r)%py /\
     (Int 0 < company_profit r)%py).
Proof.
  intros Hadd Hsub Hxf Hxt Hf1 Hf2 Hp Hti Hhp.
  destruct (sized_mag _ Hp) as [Hfp Mp]. destruct (sized_mag _ Hti) as [Hfti Mti].
  destruct (sized_mag _ Hhp) as [Hfhp Mhp].
  destruct (roi_rel _ _ _ _ _ _ Hadd Hsub Hfp Hfti Hfhp Mp Mti Mhp)
    as (r & Hr & Hpr & Hfi & Hfc & _ & Ri & Rc & _).
  exists r. split; [exact Hr|]. rewrite Hpr.
  destruct (between_pow 1000 final_value ltac:(lia) Hf1 Hf2) as [Hff Bf].
  pose proof (bpow_ge_1 1000 ltac:(lia)) as H1000.
  pose proof bpow_1021_1000 as H1021.
  assert (H200 : (bpow 200 <= bpow 1000)%R) by (apply bpow_le; lia).
  destruct Mti as [_ Bt]. apply Rabs_le_iff in Bf, Bt.
  destruct (sub_correct final_value total_investment Hxf Hxt) as (p & Ep & Hnear).
  { apply Rabs_le_iff. lra. }
  rewrite Hsub in Ep. injection Ep as <-.
  destruct (near_sign _ _ Hnear) as [Hp0 Hp1].
  set (P := N2R profit) in *.
  assert (HP : (0 < Rabs P)%R).
  { destruct Mp as [Hlo _]. pose proof (bpow_pos (Z.opp 200)). lra. }
  destruct (rel_sign 2 (P * (88 / 100)) (N2R (investor_profit r)) ltac:(lra) Ri)
    as (Ri0 & Ri1 & _).
  destruct (rel_sign 2 (P * (12 / 100)) (N2R (company_profit r)) ltac:(lra) Rc)
    as (Rc0 & Rc1 & _).
  split; intros Hlt; apply ltb_correct in Hlt; try assumption.
  - assert (HPneg : (P < 0)%R).
    { specialize (Hp1 ltac:(lra)). destruct (Req_dec P 0) as [E | E]; [|lra].
      rewrite E, Rabs_R0 in HP. lra. }
    repeat split; apply ltb_correct; try assumption; try exact I; cbn [N2R];
      first [exact HPneg | apply Ri1; lra | apply Rc1; lra].
  - assert (HPpos : (0 < P)%R).
    { specialize (Hp0 ltac:(lra)). destruct (Req_dec P 0) as [E | E]; [|lra].
      rewrite E, Rabs_R0 in HP. lra. }
    repeat split; apply ltb_correct; try assumption; try exact I; cbn [N2R];
      first [exact HPpos | apply Ri0; lra | apply Rc0; lra].
Qed.

Lemma roi_profit_sign_witness :
  exists r : RoiSplit,
    calculate_roi_with_split (Int 1000000) (Float 1200000) (Int 570000) (Int 12) = Ok r /\
    (total_profit r < Int 0)%py /\ (investor_profit r < Int 0)%py /\
    (company_profit r < Int 0)%py.
Proof.
  destruct (roi_profit_sign (Int 1000000) (Float 1200000) (Int 570000) (Int 12)
                            (Int 1570000) (Float (-370000)))
    as (r & Hr & Hloss & _).
  - reflexivity.
  - reflexivity.
  - reflexivity.
  - apply Z.ltb_lt. reflexivity.
  - reflexivity.
  - reflexivity.
  - right. split; vm_compute; reflexivity.
  - left. split; vm_compute; reflexivity.
  - left. split; vm_compute; reflexivity.
  - exists r. split; [exact Hr|]. apply Hloss. vm_compute. reflexivity.
Defined.

(** *** The share investment *)

Lemma share_rel (ti sa hp : num) :
  num_finite ti -> num_finite sa -> num_finite hp ->
  mag 200 (N2R ti) -> mag 200 (N2R sa) -> mag 200 (N2R hp) ->
  exists r : ShareInvestment,
    calculate_share_investment ti sa hp = Ok r /\
    num_finite (share_percentage r) /\ num_finite (monthly_returns r) /\
    num_finite (total_returns r) /\
    rel 3 (N2R sa / N2R ti * 100) (N2R (share_percentage r)) /\
    rel 2 (N2R sa * (5 / 1000)) (N2R (monthly_returns r)) /\
    rel 3 (N2R sa * (5 / 1000) * N2R hp) (N2R (total_returns r)).
Proof.
  intros Hfti Hfsa Hfhp Mti Msa Mhp.
  destruct rel_0_005 as [Hf5 Hr5].
  pose proof (rel_mag_small 9 (5 / 1000) (B2R 0.005) ltac:(lia)
                ltac:(rewrite (bpow_opp 9), (bpow_IZR 9) by lia;
                      change (IZR (2 ^ 9)) with 512%R; lra) Hr5) as Hm5.
  unfold calculate_share_investment.
  destruct (truediv_rel 200 200 sa ti) as (fraction & -> & Hff & Rf & Mf);
    try assumption; try lia.
  cbn [mbind result_bind]. change (200 + 200 + 1)%Z with 401%Z in Mf.
  destruct (mul_rel 401 7 (Float fraction) (Int 100)) as (pct & -> & Hfp & Rp & Mp);
    try assumption; try lia; try exact I.
  { apply mag_IZR; [lia|]. split; [lia|]. apply Z.leb_le. reflexivity. }
  cbn [mbind result_bind]. cbn [N2R] in Rp.
  destruct (mul_rel 200 9 sa (Float 0.005)) as (monthly & -> & Hfm & Rm & Mm);
    try assumption; try lia.
  cbn [mbind result_bind]. cbn [N2R] in Rm. change (200 + 9 + 1)%Z with 210%Z in Mm.
  assert (Rm' : rel (13 / 10) (N2R sa * (5 / 1000)) (N2R monthly)).
  { apply (rel_weaken (0 + / 4 + / 100 + 1 + / 100)); [lra|].
    eapply rel_trans; [| |apply rel_mul; [| |apply rel_exact|exact Hr5]|exact Rm]; lra. }
  destruct (mul_rel 210 200 monthly hp) as (total & -> & Hft & Rt & Mt);
    try assumption; try lia.
  cbn [mbind result_bind].
  set (y := mul (Float 0.005) (Int 12)). vm_compute in y. subst y.
  cbn [mbind result_bind].
  match goal with |- context [mul ?a (Int 100)] =>
    set (y := mul a (Int 100)); vm_compute in y; subst y end.
  cbn [mbind result_bind].
  eexists. split; [reflexivity|].
  cbn [share_percentage monthly_returns total_returns].
  repeat split; try assumption.
  - apply (rel_weaken (1 + 0 + / 100 + 1 + / 100)); [lra|].
    eapply rel_trans; [| |apply rel_mul; [| |exact Rf|apply rel_exact]|exact Rp]; lra.
  - apply (rel_weaken (13 / 10)); [lra | exact Rm'].
  - apply (rel_weaken (13 / 10 + 0 + / 100 + 1 + / 100)); [lra|].
    eapply rel_trans; [| |apply rel_mul; [| |exact Rm'|apply rel_exact]|exact Rt]; lra.
Qed.

(** X6.  With a total investment, a share amount and a holding period that are
    neither zero, tiny nor huge, the call returns; the share percentage is
    [share_amount / total_investment * 100], the monthly return 0.5% of the
    share amount and the total return the monthly one times the holding
    period, up to relative errors of [2 ^ -49], [2 ^ -50] and [2 ^ -49]. *)
Theorem share_investment_accuracy (total_investment share_amount holding_period : num) :
  sized total_investment -> sized share_amount -> sized holding_period ->
  exists r : ShareInvestment,
    calculate_share_investment total_investment share_amount holding_period = Ok r /\
    (Rabs (N2R (share_percentage r) - N2R share_amount / N2R total_investment * 100)
     <= bpow (-49) * Rabs (N2R share_amount / N2R total_investment * 100))%R /\
    (Rabs (N2R (monthly_returns r) - N2R share_amount * (5 / 1000))
     <= bpow (-50) * Rabs (N2R share_amount * (5 / 1000)))%R /\
    (Rabs (N2R (total_returns r) - N2R share_amount * (5 / 1000) * N2R holding_period)
     <= bpow (-49) * Rabs (N2R share_amount * (5 / 1000) * N2R holding_period))%R.
Proof.
  intros Hti Hsa Hhp.
  destruct (sized_mag _ Hti) as [Hfti Mti]. destruct (sized_mag _ Hsa) as [Hfsa Msa].
  destruct (sized_mag _ Hhp) as [Hfhp Mhp].
  destruct (share_rel _ _ _ Hfti Hfsa Hfhp Mti Msa Mhp)
    as (r & Hr & _ & _ & _ & Rp & Rm & Rt).
  exists r. split; [exact Hr|]. rewrite bpow_m50, bpow_m49.
  split; [apply rel_abs; [lra|]; apply (rel_weaken 3); [lra | exact Rp]|].
  split; [apply rel_abs; [lra | exact Rm]|].
  apply rel_abs; [lra|]. apply (rel_weaken 3); [lra | exact Rt].
Qed.

Lemma share_investment_accuracy_witness :
  exists r : ShareInvestment,
    calculate_share_investment (Int 1570000) (Int 500000) (Int 12) = Ok r /\
    (Rabs (N2R (share_percentage r) - N2R (Int 500000) / N2R (Int 1570000) * 100)
     <= bpow (-49) * Rabs (N2R (Int 500000) / N2R (Int 1570000) * 100))%R /\
    (Rabs (N2R (monthly_returns r) - N2R (Int 500000) * (5 / 1000))
     <= bpow (-50) * Rabs (N2R (Int 500000) * (5 / 1000)))%R /\
    (Rabs (N2R (total_returns r) - N2R (Int 500000) * (5 / 1000) * N2R (Int 12))
     <= bpow (-49) * Rabs (N2R (Int 500000) * (5 / 1000) * N2R (Int 12)))%R.
Proof.
  apply (share_investment_accuracy (Int 1570000) (Int 500000) (Int 12));
    left; split; vm_compute; reflexivity.
Defined.

(** ** The page *)

Lemma eps_u : (bpow (-53) = eps / 4)%R.
Proof. rewrite u_value. unfold eps. lra. Qed.

(** The market factor: the slider value over 100, a [float] in [0, 1]. *)
Lemma market_factor_spec (s : Z) :
  (0 <= s <= 100)%Z ->
  exists fm : float,
    truediv (Int s) (Int 100) = Ok (Float fm) /\ finite fm /\ (0 <= B2R fm <= 1)%R.
Proof.
  intros Hs. unfold truediv.
  destruct (Z.eq_dec s 100) as [-> | Hne].
  - change 100%Z with (100 * 1)%Z at 1.
    rewrite (int_truediv_exact 100 1) by (try lia; apply Z.ltb_lt; reflexivity).
    cbn [mbind result_bind]. exists (of_Z 1). split; [reflexivity|].
    destruct (of_Z_exact 1) as [Hf Hv]; [apply Z.ltb_lt; reflexivity|].
    split; [exact Hf|]. rewrite Hv. lra.
  - assert (Hs0 : (0 <= IZR s)%R) by (apply IZR_le; lia).
    assert (Hs1 : (IZR s <= 99)%R) by (apply IZR_le; lia).
    destruct (int_truediv_correct s 100) as (q & -> & Hr); [lia | |].
    { rewrite !Rabs_pos_eq by lra. pose proof (bpow_ge_1 1023 ltac:(lia)). lra. }
    cbn [mbind result_bind]. exists q. split; [reflexivity|].
    split; [exact (rounded_finite _ _ Hr)|].
    pose proof (rounded_bound _ _ Hr) as Hb. fold (B2R q) in Hb.
    pose proof (rounded_nonneg _ _ Hr) as H0. fold (B2R q) in H0.
    rewrite eps_u in Hb. pose proof eta_bound. unfold eps, eta in *.
    assert (Hv : (0 <= IZR s / 100 <= 99 / 100)%R) by lra.
    rewrite (Rabs_pos_eq (IZR s / 100)) in Hb by lra.
    apply Rabs_le_iff in Hb. split; [apply H0; lra | lra].
Qed.

Lemma exact_of_bound (x : num) :
  num_finite x -> (Rabs (N2R x) <= 4503599627370496)%R -> exact_num x.
Proof.
  destruct x as [z | f]; cbn [num_finite exact_num N2R]; [|auto].
  intros _ H. rewrite <- abs_IZR in H. apply le_IZR in H.
  change (2 ^ 53)%Z with 9007199254740992%Z. lia.
Qed.

Lemma float64_exact (x : num) :
  exact_num x -> finite (Np.float64 x) /\ B2R (Np.float64 x) = N2R x.
Proof.
  destruct x as [z | f]; cbn [exact_num Np.float64 N2R]; intros H.
  - now apply of_Z_exact.
  - auto.
Qed.

(** The base value and the three estimates on the page's ranges. *)
Lemma page_base_value (ii tc : Z) (fm : float) :
  (200000 <= ii <= 50000000)%Z -> (150000 <= tc <= 7800000)%Z ->
  finite fm -> (0 <= B2R fm <= 1)%R ->
  exists b : num,
    base_value (Int ii) (Int tc) (Float fm) = Ok b /\ num_finite b /\
    ((IZR ii + IZR tc) * (1 - 4 * eps) <= N2R b
     <= (IZR ii + 2 * IZR tc) * (1 + 4 * eps))%R.
Proof.
  intros Hii Htc Hf Hm.
  assert (Hi : (200000 <= IZR ii <= 50000000)%R) by (split; apply IZR_le; lia).
  assert (Ht : (150000 <= IZR tc <= 7800000)%R) by (split; apply IZR_le; lia).
  pose proof (bpow_ge_1 1000 ltac:(lia)) as H1000.
  pose proof bpow_1021_1000 as H1021. pose proof bpow_1023 as H1023.
  assert (H30 : (100000000 <= bpow 1000)%R).
  { apply Rle_trans with (bpow 30); [rewrite (bpow_IZR 30) by lia|apply bpow_le; lia].
    change (IZR (2 ^ 30)) with 1073741824%R. lra. }
  unfold base_value.
  destruct (add_correct (Int 1) (Float fm)) as (g & -> & Hg); cbn [N2R num_finite];
    try exact I; try assumption; try lra.
  cbn [mbind result_bind]. pose proof (near_finite _ _ Hg) as Hfg.
  pose proof (near_bounds_1 _ _ Hg ltac:(cbn [N2R]; lra)) as Bg. cbn [N2R] in Bg.
  unfold eps in Bg.
  destruct (mul_correct (Int tc) g) as (vi & -> & Hvi); cbn [N2R num_finite];
    try exact I; try assumption.
  { rewrite Rabs_pos_eq by lra. lra. }
  { rewrite Rabs_pos_eq by lra. lra. }
  { rewrite Rabs_pos_eq by nra. nra. }
  cbn [mbind result_bind]. pose proof (near_finite _ _ Hvi) as Hfvi.
  cbn [N2R] in Hvi.
  assert (Bp : (IZR tc * (1 - / 2251799813685248) <= IZR tc * N2R g
                <= IZR tc * (2 * (1 + / 2251799813685248)))%R) by (split; nra).
  pose proof (near_bounds_1 _ _ Hvi ltac:(lra)) as Bvi. unfold eps in Bvi.
  destruct (add_correct (Int ii) vi) as (b & -> & Hb); cbn [N2R num_finite];
    try exact I; try assumption; try lra.
  cbn [N2R] in Hb. pose proof (near_bounds_1 _ _ Hb ltac:(lra)) as Bb. unfold eps in Bb.
  exists b. split; [reflexivity|]. split; [exact (near_finite _ _ Hb)|].
  unfold eps. lra.
Qed.

Lemma scenario_value_bounds (C m d e b lo : R) :
  (1149 / 1000 <= C <= 7 / 5)%R -> (0 <= m <= 1)%R ->
  (Rabs d <= bpow (-51))%R -> (Rabs e <= bpow (-51))%R ->
  (0 <= lo)%R -> (lo * (1 - 4 * eps) <= b <= 70000000)%R ->
  (114 / 100 * lo <= b * ((C + m) * (1 + d)) * (1 + e) + 0 <= 200000000)%R.
Proof.
  intros HC Hm Hd He Hlo Hb.
  pose proof (scenario_error C m d e ltac:(lra) Hm Hd He) as Hk.
  rewrite eps_value in Hk. fold eps in Hk. apply Rabs_le_iff in Hk.
  set (k := ((C + m) * (1 + d) * (1 + e))%R) in *.
  replace (b * ((C + m) * (1 + d)) * (1 + e) + 0)%R with (b * k)%R by (unfold k; ring).
  unfold eps in *.
  assert (Hk1 : (1148 / 1000 <= k <= 241 / 100)%R) by lra.
  assert (Hb0 : (lo * (999 / 1000) <= b)%R) by nra.
  split; nra.
Qed.

Lemma page_estimates (ii tc : Z) (fm : float) :
  (200000 <= ii <= 50000000)%Z -> (150000 <= tc <= 7800000)%Z ->
  finite fm -> (0 <= B2R fm <= 1)%R ->
  exists pv : PropertyValues,
    estimate_property_values (Int ii) (Int tc) (Float fm) = Ok pv /\
    (conservative pv < moderate pv)%py /\ (moderate pv < optimistic pv)%py /\
    forall v : num,
      v = conservative pv \/ v = moderate pv \/ v = optimistic pv ->
      num_finite v /\ (114 / 100 * (IZR ii + IZR tc) <= N2R v <= 200000000)%R.
Proof.
  intros Hii Htc Hf Hm.
  assert (Hi : (200000 <= IZR ii <= 50000000)%R) by (split; apply IZR_le; lia).
  assert (Ht : (150000 <= IZR tc <= 7800000)%R) by (split; apply IZR_le; lia).
  destruct (page_base_value ii tc fm Hii Htc Hf Hm) as (b & Eb & Hfb & Bb).
  assert (Hb1 : (1 <= N2R b <= 70000000)%R) by (unfold eps in Bb; lra).
  assert (Hb2 : (bpow (-1000) <= N2R b <= bpow 1000)%R).
  { pose proof (bpow_le_1 (-1000) ltac:(lia)).
    assert (70000000 <= bpow 1000)%R.
    { apply Rle_trans with (bpow 30); [rewrite (bpow_IZR 30) by lia|apply bpow_le; lia].
      change (IZR (2 ^ 30)) with 1073741824%R. lra. }
    lra. }
  destruct (estimate_ordered _ _ _ b Eb Hfb Hb2 Hf Hm) as (pv & Epv & O1 & O2).
  destruct (estimate_near _ _ _ b Eb Hfb) as
    (pv' & Epv' & F1 & F2 & F3 & d1 & e1 & h1 & d2 & e2 & h2 & d3 & e3 & h3
     & (Hd1 & He1 & _) & (Hd2 & He2 & _) & (Hd3 & He3 & _) & Hz & E1 & E2 & E3);
    try assumption.
  { rewrite Rabs_pos_eq by lra. lra. }
  rewrite Epv in Epv'. injection Epv' as <-.
  destruct Hz as (-> & -> & ->); [rewrite Rabs_pos_eq by lra; lra|].
  exists pv. split; [exact Epv|]. split; [exact O1|]. split; [exact O2|].
  cbn [N2R] in E1, E2, E3.
  assert (Hlo : (0 <= IZR ii + IZR tc)%R) by lra.
  assert (Hbb : ((IZR ii + IZR tc) * (1 - 4 * eps) <= N2R b <= 70000000)%R) by lra.
  intros v [-> | [-> | ->]].
  - split; [exact F1|]. rewrite E1.
    apply scenario_value_bounds; try assumption; lra.
  - split; [exact F2|]. rewrite E2.
    apply scenario_value_bounds; try assumption; lra.
  - split; [exact F3|]. rewrite E3.
    apply scenario_value_bounds; try assumption; lra.
Qed.

Lemma pos_product (p t h : R) :
  (0 < p)%R -> (0 < t)%R -> (0 < h)%R -> (0 < p * (88 / 100) / t * (12 / h) * 100)%R.
Proof.
  intros Hp Ht Hh.
  apply Rmult_lt_0_compat; [|lra].
  apply Rmult_lt_0_compat; [|apply Rdiv_lt_0_compat; lra].
  apply Rdiv_lt_0_compat; [|exact Ht]. lra.
Qed.

(** The profit split on the page: every estimate is above the total
    investment, so the profit, both shares and the annual ROI are positive. *)
Lemma page_roi (ii tc hp : Z) (v : num) :
  (200000 <= ii <= 50000000)%Z -> (150000 <= tc <= 7800000)%Z -> (1 <= hp <= 60)%Z ->
  num_finite v -> (114 / 100 * (IZR ii + IZR tc) <= N2R v <= 200000000)%R ->
  exists r : RoiSplit,
    calculate_roi_with_split (Int ii) v (Int tc) (Int hp) = Ok r /\
    (Int 0 < total_profit r)%py /\ (Int 0 < company_profit r)%py /\
    (company_profit r < investor_profit r)%py /\ (Int 0 < annual_roi r)%py.
Proof.
  intros Hii Htc Hhp Hfv Hv.
  assert (Hi : (200000 <= IZR ii <= 50000000)%R) by (split; apply IZR_le; lia).
  assert (Ht : (150000 <= IZR tc <= 7800000)%R) by (split; apply IZR_le; lia).
  assert (Hh : (1 <= IZR hp <= 60)%R) by (split; apply IZR_le; lia).
  assert (Hadd : add (Int ii) (Int tc) = Ok (Int (ii + tc))) by reflexivity.
  destruct (sub_correct v (Int (ii + tc))) as (p & Ep & Hp).
  - apply exact_of_bound; [exact Hfv|]. rewrite Rabs_pos_eq by lra. lra.
  - cbn [exact_num]. change (2 ^ 53)%Z with 9007199254740992%Z. lia.
  - cbn [N2R]. rewrite plus_IZR, Rabs_pos_eq by lra.
    pose proof (bpow_ge_1 1021 ltac:(lia)).
    apply Rle_trans with (bpow 30); [rewrite (bpow_IZR 30) by lia|apply bpow_le; lia].
    change (IZR (2 ^ 30)) with 1073741824%R. lra.
  - cbn [N2R] in Hp. rewrite plus_IZR in Hp.
    pose proof (near_finite _ _ Hp) as Hfp.
    pose proof (near_bounds_1 _ _ Hp ltac:(lra)) as Bp. unfold eps in Bp.
    assert (HP : (1 <= N2R p <= 268435456)%R) by lra.
    assert (Mp : mag 200 (N2R p)).
    { apply (mag_weaken 28); [lia|].
      apply (mag_value 28 1 268435456); [lia | lra | | lra].
      change (IZR (2 ^ 28)) with 268435456%R. lra. }
    assert (Mt : mag 200 (N2R (Int (ii + tc)))).
    { apply (mag_weaken 26); [lia|]. cbn [N2R]. rewrite plus_IZR.
      apply (mag_value 26 1 67108864); [lia | lra | | lra].
      change (IZR (2 ^ 26)) with 67108864%R. lra. }
    assert (Mh : mag 200 (N2R (Int hp))).
    { apply (mag_weaken 6); [lia|]. cbn [N2R].
      apply (mag_value 6 1 64); [lia | lra | | lra].
      change (IZR (2 ^ 6)) with 64%R. lra. }
    destruct (roi_rel _ v _ (Int hp) _ p Hadd Ep Hfp I I Mp Mt Mh)
      as (r & Er & Epr & Hfi & Hfc & Hfr & Ri & Rc & Rr).
    exists r. split; [exact Er|]. rewrite Epr. cbn [N2R] in Rr. rewrite plus_IZR in Rr.
    pose proof (rel_abs 2 _ _ ltac:(lra) Ri) as Ai.
    pose proof (rel_abs 2 _ _ ltac:(lra) Rc) as Ac.
    rewrite (Rabs_pos_eq (N2R p * (88 / 100))) in Ai by lra.
    rewrite (Rabs_pos_eq (N2R p * (12 / 100))) in Ac by lra.
    apply Rabs_le_iff in Ai, Ac. unfold eps in Ai, Ac.
    destruct (rel_sign 8 _ _ ltac:(lra) Rr) as (Hpos & _ & _).
    specialize (Hpos (pos_product (N2R p) (IZR ii + IZR tc) (IZR hp)
                        ltac:(lra) ltac:(lra) ltac:(lra))).
    repeat split; apply ltb_correct; try assumption; try exact I; cbn [N2R]; lra.
Qed.

Lemma share_inv (ti sa hp : num) (r : ShareInvestment) :
  calculate_share_investment ti sa hp = Ok r ->
  exists fraction : num,
    truediv sa ti = Ok fraction /\ mul fraction (Int 100) = Ok (share_percentage r).
Proof.
  intros H. unfold calculate_share_investment in H.
  apply bind_Ok in H. destruct H as (fraction & Ef & H).
  apply bind_Ok in H. destruct H as (pct & Ep & H).
  apply bind_Ok in H. destruct H as (monthly & _ & H).
  apply bind_Ok in H. destruct H as (total & _ & H).
  apply bind_Ok in H. destruct H as (yearly & _ & H).
  apply bind_Ok in H. destruct H as (effective & _ & H).
  injection H as <-. cbn [share_percentage]. exists fraction. auto.
Qed.

(** The share on the page: a percentage in (0, 100], equal to 100 exactly
    when the whole total investment is taken. *)
Lemma page_share (ti sa hp : Z) :
  (350000 <= ti <= 57800000)%Z -> (100000 <= sa <= ti)%Z -> (1 <= hp <= 60)%Z ->
  exists r : ShareInvestment,
    calculate_share_investment (Int ti) (Int sa) (Int hp) = Ok r /\
    (Int 0 < share_percentage r)%py /\ (share_percentage r <= Int 100)%py /\
    (sa = ti -> share_percentage r = Float 100) /\
    ((sa < ti)%Z -> (share_percentage r < Int 100)%py).
Proof.
  intros Hti Hsa Hhp.
  assert (HT : (350000 <= IZR ti <= 57800000)%R) by (split; apply IZR_le; lia).
  assert (HS : (100000 <= IZR sa <= IZR ti)%R) by (split; apply IZR_le; lia).
  assert (HH : (1 <= IZR hp <= 60)%R) by (split; apply IZR_le; lia).
  assert (M26 : forall z : Z, (1 <= IZR z <= 57800000)%R -> mag 200 (N2R (Int z))).
  { intros z Hz. apply (mag_weaken 26); [lia|]. cbn [N2R].
    apply (mag_value 26 1 67108864); [lia | lra | | lra].
    change (IZR (2 ^ 26)) with 67108864%R. lra. }
  destruct (share_rel (Int ti) (Int sa) (Int hp) I I I) as (r & Er & Hfp & _ & _ & Rp & _);
    try (apply M26; lra).
  exists r. split; [exact Er|]. cbn [N2R] in Rp.
  set (q := (IZR sa / IZR ti)%R) in *.
  assert (Hq : (q * IZR ti = IZR sa)%R) by (unfold q; field; lra).
  assert (Hq0 : (1 / 1000 <= q <= 1)%R) by (split; nra).
  destruct Rp as (u & Ep & Hu). apply Rabs_le_iff in Hu. unfold eps in Hu.
  assert (Hlt : (sa < ti)%Z -> (N2R (share_percentage r) < 100)%R).
  { intros Hlt. assert (IZR sa <= IZR ti - 1)%R by (rewrite <- minus_IZR; apply IZR_le; lia).
    assert (q <= 1 - / 57800000)%R by nra.
    rewrite Ep. nra. }
  assert (Heq : sa = ti -> share_percentage r = Float 100).
  { intros ->. destruct (share_inv _ _ _ _ Er) as (fraction & Ef & Epct).
    unfold truediv in Ef.
    assert (E1 : int_truediv ti ti = Ok (of_Z 1)).
    { pose proof (int_truediv_exact ti 1 ltac:(lia) ltac:(lia)
                    ltac:(apply Z.ltb_lt; reflexivity)) as E.
      now rewrite Z.mul_1_r in E. }
    rewrite E1 in Ef. cbn [mbind result_bind] in Ef. injection Ef as <-.
    assert (Em : mul (Float (of_Z 1)) (Int 100) = Ok (Float 100))
      by (vm_compute; reflexivity).
    rewrite Em in Epct. injection Epct as Epct. now symmetry. }
  split; [apply ltb_correct; [exact I | exact Hfp |]; cbn [N2R]; rewrite Ep; nra|].
  split; [|split; [exact Heq|]].
  - destruct (Z.eq_dec sa ti) as [E | Hne].
    + rewrite (Heq E). vm_compute. reflexivity.
    + apply leb_correct; [exact Hfp | exact I |]. cbn [N2R]. left. apply Hlt. lia.
  - intros Hlt'. apply ltb_correct; [exact Hfp | exact I |]. cbn [N2R]. now apply Hlt.
Qed.

Lemma for_each_spec {A B : Type} (body : A -> result B) (P : A -> B -> Prop) (l : list A) :
  (forall a, In a l -> exists b, body a = Ok b /\ P a b) ->
  exists bs, Page.for_each body l = Ok bs /\ Forall2 P l bs.
Proof.
  induction l as [| a l IH]; intros H; cbn [Page.for_each].
  - exists []. split; [reflexivity | constructor].
  - destruct (H a (or_introl eq_refl)) as (b & -> & Hb). cbn [mbind result_bind].
    destruct IH as (bs & -> & Hbs); [intros a' Ha'; apply H; now right|].
    cbn [mbind result_bind]. exists (b :: bs). split; [reflexivity | now constructor].
Qed.

Lemma getitem_items (pv : PropertyValues) (k : string) :
  In k ["conservative"; "moderate"; "optimistic"] ->
  exists v : num,
    Page.getitem (Page.items pv) k = Ok v /\
    (v = conservative pv \/ v = moderate pv \/ v = optimistic pv).
Proof.
  intros [<- | [<- | [<- | []]]]; eexists; (split; [reflexivity|]); auto.
Qed.

(** The projection on the page: one point per month, starting at the
    initial investment and, from two months on, ending at the selected
    estimate. *)
Lemma scalar_of_bound (x : num) :
  (Rabs (N2R x) <= 4503599627370496)%R -> Np.scalar x.
Proof.
  destruct x as [z | f]; cbn [Np.scalar N2R]; [|auto].
  intros H. apply Rabs_le_iff in H. destruct H as [H1 H2].
  apply le_IZR in H2. rewrite <- opp_IZR in H1. apply le_IZR in H1.
  change (2 ^ 63)%Z with 9223372036854775808%Z.
  change (2 ^ 64)%Z with 18446744073709551616%Z. lia.
Qed.

Lemma page_chart (ii hp : Z) (v : num) :
  (200000 <= ii <= 50000000)%Z -> (1 <= hp <= 60)%Z ->
  num_finite v -> (0 <= N2R v <= 200000000)%R ->
  exists ys : list float,
    generate_monthly_projection (Int ii) v hp = Ok ys /\
    length ys = Z.to_nat hp /\
    (exists y0, ys !! 0%nat = Some y0 /\ (y0 =? of_Z ii)%float = true) /\
    ((2 <= hp)%Z -> ys !! (Z.to_nat hp - 1)%nat = Some (Np.float64 v)) /\
    (hp = 1%Z -> exists y0, ys = [y0]).
Proof.
  intros Hii Hhp Hfv Hv.
  assert (Hi : (200000 <= IZR ii <= 50000000)%R) by (split; apply IZR_le; lia).
  destruct (float64_exact v) as [Hfs Hvs].
  { apply exact_of_bound; [exact Hfv|]. rewrite Rabs_pos_eq by lra. lra. }
  destruct (of_Z_exact ii) as [Hfi Hvi].
  { change (2 ^ 53)%Z with 9007199254740992%Z. lia. }
  assert (H30 : (1073741824 <= bpow 1022)%R).
  { apply Rle_trans with (bpow 30); [rewrite (bpow_IZR 30) by lia|apply bpow_le; lia].
    change (IZR (2 ^ 30)) with 1073741824%R. lra. }
  assert (Hsub : rounded (B2R (Np.float64 v) - B2R (of_Z ii))
                         (Prim2SF (Np.float64 v - of_Z ii))).
  { apply sub_rounded; try assumption. rewrite Hvs, Hvi.
    assert (bpow 1022 < bpow 1023)%R by (apply bpow_lt; lia).
    apply Rabs_def1; lra. }
  assert (Hd : finite (Np.float64 v - of_Z ii)) by exact (rounded_finite _ _ Hsub).
  assert (Hdb : (Rabs (B2R (Np.float64 v - of_Z ii)) <= bpow 1022)%R).
  { pose proof (rounded_bound _ _ Hsub) as Hb. fold (B2R (Np.float64 v - of_Z ii)) in Hb.
    rewrite Hvs, Hvi, eps_u in Hb. pose proof eta_bound. unfold eps, eta in *.
    assert (Rabs (N2R v - IZR ii) <= 200000000)%R by (apply Rabs_le_iff; lra).
    pose proof (Rabs_triang_inv (B2R (Np.float64 v - of_Z ii)) (N2R v - IZR ii)). lra. }
  assert (H0 : (sample (of_Z ii) (Np.float64 v) (hp - 1) 0 =? of_Z ii)%float = true).
  { apply sample_0; [exact Hd | exact Hdb |]. apply Z.lt_trans with 64%Z; [lia|].
    apply Z.ltb_lt. reflexivity. }
  unfold generate_monthly_projection. rewrite linspace_samples; [| | |lia].
  2:{ cbn [Np.scalar]. change (2 ^ 63)%Z with 9223372036854775808%Z.
      change (2 ^ 64)%Z with 18446744073709551616%Z. lia. }
  2:{ apply scalar_of_bound. rewrite Rabs_pos_eq by lra. lra. }
  cbv zeta. change (Np.float64 (Int ii)) with (of_Z ii).
  set (n := Z.to_nat hp).
  set (y := map (sample (of_Z ii) (Np.float64 v) (hp - 1)) (seq 0 n)).
  assert (Hlen : length y = n) by (unfold y; now rewrite length_map, length_seq).
  assert (Hn : (1 <= n)%nat) by (unfold n; lia).
  assert (Hy0 : y !! 0%nat = Some (sample (of_Z ii) (Np.float64 v) (hp - 1) 0)).
  { unfold y. now rewrite lookup_map_seq by lia. }
  eexists. split; [reflexivity|].
  destruct (Z.ltb_spec 1 hp) as [Hlt | Hle].
  - split; [now rewrite length_insert|]. split; [|split].
    + eexists. split; [|exact H0].
      rewrite list_lookup_insert_ne by (unfold n in *; lia). exact Hy0.
    + intros _. rewrite Hlen. replace (n - 1)%nat with (pred n) by lia.
      apply list_lookup_insert_eq. lia.
    + intros ->. lia.
  - assert (hp = 1%Z) as -> by lia. split; [exact Hlen|]. split; [|split].
    + eexists. split; [exact Hy0 | exact H0].
    + intros H. lia.
    + intros _. eexists. reflexivity.
Qed.

(** One pass of the loop over the scenarios. *)
Lemma page_loop_body (fm : float) (ii tc base : Z) (v : num) :
  (200000 <= ii <= 50000000)%Z -> (150000 <= tc <= 7800000)%Z ->
  (Z.abs base <= 128)%Z ->
  num_finite v -> (114 / 100 * (IZR ii + IZR tc) <= N2R v <= 200000000)%R ->
  exists percent total_markup gain : num,
    mul (Float fm) (Int 100) = Ok percent /\
    add (Int base) percent = Ok total_markup /\
    sub v (Int ii) = Ok gain /\ (Int 0 < gain)%py.
Proof.
  intros Hii Htc Hbase Hfv Hv.
  assert (Hi : (200000 <= IZR ii <= 50000000)%R) by (split; apply IZR_le; lia).
  assert (Ht : (150000 <= IZR tc <= 7800000)%R) by (split; apply IZR_le; lia).
  destruct (binop_returns 7 Z.mul PrimFloat.mul (Float fm) (Int 100))
    as (percent & E1 & (f1 & ->)); [lia | exact I | exact (bounded_int_small 7 100 ltac:(lia) ltac:(lia)) |].
  destruct (binop_returns 7 Z.add PrimFloat.add (Int base) (Float f1))
    as (tm & E2 & _); [lia | exact Hbase | exact I |].
  destruct (sub_correct v (Int ii)) as (g & E3 & Hg).
  - apply exact_of_bound; [exact Hfv|]. rewrite Rabs_pos_eq by lra. lra.
  - cbn [exact_num]. change (2 ^ 53)%Z with 9007199254740992%Z. lia.
  - cbn [N2R]. rewrite Rabs_pos_eq by lra.
    apply Rle_trans with (bpow 30); [rewrite (bpow_IZR 30) by lia|apply bpow_le; lia].
    change (IZR (2 ^ 30)) with 1073741824%R. lra.
  - cbn [N2R] in Hg. pose proof (near_bounds_1 _ _ Hg ltac:(lra)) as Bg. unfold eps in Bg.
    exists (Float f1), tm, g. repeat split; try assumption.
    apply ltb_correct; [exact I | exact (near_finite _ _ Hg) |]. cbn [N2R]. lra.
Qed.

Lemma truediv_exact (b r : Z) :
  b <> 0%Z -> r <> 0%Z -> (Z.abs r < 2 ^ 53)%Z ->
  truediv (Int (b * r)) (Int b) = Ok (Float (of_Z r)).
Proof.
  intros Hb Hr Hlt. unfold truediv. now rewrite int_truediv_exact.
Qed.

(** Everything the page computes, on the values its widgets admit. *)
Lemma page_facts (w : Page.Widgets) :
  Page.admissible w ->
  exists (p : Page.Values) (rate : Z) (selected : num),
    Page.run w = Ok p /\
    base_costs_aed !! Page.quality_level w = Some rate /\
    Page.getitem (Page.items (Page.property_values p)) (Page.selected_scenario w)
    = Ok selected /\
    (Page.total_cost p = Int (Page.square_feet w * rate) /\
     Page.package_rate p = Float (of_Z rate)) /\
    ((conservative (Page.property_values p) < moderate (Page.property_values p))%py /\
     (moderate (Page.property_values p) < optimistic (Page.property_values p))%py /\
     Forall2 (fun a e => Page.scenario e = fst a /\ Page.value e = snd a /\
                         (Int 0 < Page.gain e)%py)
             (Page.items (Page.property_values p)) (Page.estimates p)) /\
    ((Int 0 <= dld_fee (Page.dubai_fees p))%py /\
     (Int 0 <= broker_fee (Page.dubai_fees p))%py /\
     (Rabs (N2R (total_fees (Page.dubai_fees p)) - (6 / 100 * N2R selected + 7780))
      <= bpow (-48) * (6 / 100 * N2R selected + 7780))%R) /\
    ((Int 0 < total_profit (Page.roi_data p))%py /\
     (Int 0 < company_profit (Page.roi_data p))%py /\
     (company_profit (Page.roi_data p) < investor_profit (Page.roi_data p))%py /\
     (Int 0 < annual_roi (Page.roi_data p))%py) /\
    (Page.total_investment p
     = Int (Page.initial_investment w + Page.square_feet w * rate) /\
     Page.share_max p = (Page.initial_investment w + Page.square_feet w * rate)%Z /\
     (100000 <= Page.share_max p)%Z) /\
    ((Int 0 < share_percentage (Page.share_data p))%py /\
     (share_percentage (Page.share_data p) <= Int 100)%py /\
     (Page.share_amount w = Page.share_max p ->
      share_percentage (Page.share_data p) = Float 100) /\
     ((Page.share_amount w < Page.share_max p)%Z ->
      (share_percentage (Page.share_data p) < Int 100)%py)) /\
    (length (Page.monthly_values p) = Z.to_nat (Page.holding_period w) /\
     length (Page.months p) = Z.to_nat (Page.holding_period w) /\
     (exists y0, Page.monthly_values p !! 0%nat = Some y0 /\
                 (y0 =? of_Z (Page.initial_investment w))%float = true) /\
     ((2 <= Page.holding_period w)%Z ->
      Page.monthly_values p !! (Z.to_nat (Page.holding_period w) - 1)%nat
      = Some (Np.float64 selected)) /\
     (Page.holding_period w = 1%Z -> exists y0, Page.monthly_values p = [y0])).
Proof.
  destruct w as [ii sf q s hp sel sa]. unfold Page.admissible.
  cbn [Page.initial_investment Page.square_feet Page.quality_level Page.market_appreciation
       Page.holding_period Page.selected_scenario Page.share_amount].
  intros (Hii & Hsf & Hq & Hs & Hhp & Hsel & Hsa0 & Hsa1).
  assert (Hrate : exists rate, base_costs_aed !! q = Some rate /\ (300 <= rate <= 780)%Z).
  { destruct Hq as [<- | [<- | [<- | []]]]; eexists; (split; [reflexivity | lia]). }
  destruct Hrate as (rate & Hrate & Hr).
  specialize (Hsa1 rate Hrate).
  set (tc := (sf * rate)%Z) in *.
  assert (Htc : (150000 <= tc <= 7800000)%Z) by (unfold tc; nia).
  assert (Hi : (200000 <= IZR ii <= 50000000)%R) by (split; apply IZR_le; lia).
  assert (Ht : (150000 <= IZR tc <= 7800000)%R) by (split; apply IZR_le; lia).
  destruct (market_factor_spec s Hs) as (fm & Efm & Hfm & Hm).
  destruct (page_estimates ii tc fm Hii Htc Hfm Hm) as (pv & Epv & O1 & O2 & Hvals).
  destruct (getitem_items pv sel Hsel) as (v & Ev & Hv).
  destruct (Hvals v Hv) as [Hfv Bv].
  destruct (dubai_fees_bounds v Hfv) as (fees & Efees & Hfd & Hfb & _ & Hd0 & Hb0 & _ & _ & Hfee).
  { split; [lra|]. apply Rle_trans with (bpow 30); [rewrite (bpow_IZR 30) by lia|apply bpow_le; lia].
    change (IZR (2 ^ 30)) with 1073741824%R. lra. }
  destruct (page_roi ii tc hp v Hii Htc Hhp Hfv Bv) as (roi & Eroi & R1 & R2 & R3 & R4).
  destruct (page_share (ii + tc) sa hp ltac:(lia) ltac:(lia) Hhp)
    as (share & Eshare & S1 & S2 & S3 & S4).
  destruct (page_chart ii hp v Hii Hhp Hfv ltac:(lra)) as (ys & Eys & C1 & C2 & C3 & C4).
  unfold Page.run.
  cbn [Page.initial_investment Page.square_feet Page.quality_level Page.market_appreciation
       Page.holding_period Page.selected_scenario Page.share_amount].
  rewrite Efm. cbn [mbind result_bind].
  rewrite (total_cost_Int q rate sf Hrate). cbn [mbind result_bind].
  rewrite truediv_exact; [|lia|lia|].
  2:{ apply Z.le_lt_trans with 780%Z; [lia|]. apply Z.ltb_lt. reflexivity. }
  cbn [mbind result_bind]. fold tc. rewrite Epv. cbn [mbind result_bind].
  match goal with |- context [Page.for_each ?body ?l] =>
    destruct (for_each_spec body
                (fun a e => Page.scenario e = fst a /\ Page.value e = snd a /\
                            (Int 0 < Page.gain e)%py) l) as (es & Ees & Hes)
  end.
  { intros [s0 v0] Hin.
    assert (Hv0 : v0 = conservative pv \/ v0 = moderate pv \/ v0 = optimistic pv).
    { cbn [Page.items In] in Hin.
      destruct Hin as [E | [E | [E | []]]]; injection E as _ <-; auto. }
    destruct (Hvals v0 Hv0) as [Hfv0 Bv0].
    set (base := if String.eqb s0 "conservative" then 15%Z
                 else if String.eqb s0 "moderate" then 25%Z else 35%Z).
    assert (Hbase : (Z.abs base <= 128)%Z).
    { unfold base. destruct (String.eqb s0 "conservative"); [lia|].
      destruct (String.eqb s0 "moderate"); lia. }
    destruct (page_loop_body fm ii tc base v0 Hii Htc Hbase Hfv0 Bv0)
      as (percent & tm & g & E1 & E2 & E3 & Hg).
    cbv zeta. fold base. rewrite E1. cbn [mbind result_bind].
    rewrite E2. cbn [mbind result_bind]. rewrite E3. cbn [mbind result_bind].
    eexists. split; [reflexivity|]. cbn [Page.scenario Page.value Page.gain fst snd]. auto. }
  rewrite Ees. cbn [mbind result_bind].
  rewrite Ev. cbn [mbind result_bind]. rewrite Efees. cbn [mbind result_bind].
  rewrite Eroi. cbn [mbind result_bind].
  change (add (Int ii) (Int tc)) with (@Ok num (Int (ii + tc))).
  cbn [mbind result_bind Page.int]. rewrite Eshare. cbn [mbind result_bind].
  rewrite Eys. cbn [mbind result_bind]. cbv zeta.
  eexists _, rate, v. split; [reflexivity|].
  cbn [Page.market_factor Page.total_cost Page.package_rate Page.property_values
       Page.estimates Page.dubai_fees Page.roi_data Page.total_investment Page.share_max
       Page.share_data Page.monthly_values Page.months].
  split; [exact Hrate|]. split; [exact Ev|].
  split; [split; reflexivity|].
  split; [auto|].
  split.
  { split; [apply leb_correct; [exact I | exact Hfd | exact Hd0]|].
    split; [apply leb_correct; [exact I | exact Hfb | exact Hb0]|]. exact Hfee. }
  split; [auto|].
  split; [repeat split; lia|].
  split; [auto|].
  split; [exact C1|]. split; [now rewrite length_map, length_seq|]. auto.
Qed.

(** *** The page, on every value its widgets admit *)

Ltac admissible_widgets :=
  unfold Page.admissible; cbn;
  repeat split; try lia; auto 6;
  let rate := fresh "rate" in
  let H := fresh "H" in
  intros rate H; vm_compute in H; injection H as <-; lia.

(** X7.  Whatever values the widgets of the page are set to, within the ranges
    and options the widgets allow, the whole computation of the page goes
    through: no step of it raises (no missing key, no division by zero, no
    overflow). *)
Theorem page_never_raises (w : Page.Widgets) :
  Page.admissible w -> exists p : Page.Values, Page.run w = Ok p.
Proof.
  intros Hw. destruct (page_facts w Hw) as (p & rate & selected & Hrun & _).
  now exists p.
Qed.

Lemma page_never_raises_witness :
  exists p : Page.Values,
    Page.run {| Page.initial_investment := 50000000; Page.square_feet := 10000;
                Page.quality_level := "luxury"; Page.market_appreciation := 100;
                Page.holding_period := 60; Page.selected_scenario := "optimistic";
                Page.share_amount := 100000 |} = Ok p.
Proof.
  apply (page_never_raises
           {| Page.initial_investment := 50000000; Page.square_feet := 10000;
              Page.quality_level := "luxury"; Page.market_appreciation := 100;
              Page.holding_period := 60; Page.selected_scenario := "optimistic";
              Page.share_amount := 100000 |}).
  admissible_widgets.
Defined.

(** X8.  The page lists the three estimates in the order conservative,
    moderate, optimistic; on admissible widget values they are strictly
    increasing in that order, and the gain displayed beside each one (the
    estimate less the initial property value) is positive. *)
Theorem page_estimates_increasing (w : Page.Widgets) :
  Page.admissible w ->
  exists p : Page.Values,
    Page.run w = Ok p /\
    map Page.scenario (Page.estimates p) = ["conservative"; "moderate"; "optimistic"] /\
    map Page.value (Page.estimates p)
    = [conservative (Page.property_values p); moderate (Page.property_values p);
       optimistic (Page.property_values p)] /\
    (conservative (Page.property_values p) < moderate (Page.property_values p))%py /\
    (moderate (Page.property_values p) < optimistic (Page.property_values p))%py /\
    Forall (fun e => (Int 0 < Page.gain e)%py) (Page.estimates p).
Proof.
  intros Hw.
  destruct (page_facts w Hw) as (p & rate & selected & Hrun & _ & _ & _ & (O1 & O2 & HF) & _).
  exists p. split; [exact Hrun|].
  unfold Page.items in HF.
  inversion HF as [|a1 e1 l1 es1 (S1 & V1 & G1) HF1]; subst.
  inversion HF1 as [|a2 e2 l2 es2 (S2 & V2 & G2) HF2]; subst.
  inversion HF2 as [|a3 e3 l3 es3 (S3 & V3 & G3) HF3]; subst.
  inversion HF3; subst.
  cbn [fst snd] in *. cbn [map]. rewrite S1, S2, S3, V1, V2, V3.
  repeat split; try assumption. repeat constructor; assumption.
Qed.

Lemma page_estimates_increasing_witness :
  exists p : Page.Values,
    Page.run {| Page.initial_investment := 1000000; Page.square_feet := 1500;
                Page.quality_level := "basic"; Page.market_appreciation := 0;
                Page.holding_period := 12; Page.selected_scenario := "moderate";
                Page.share_amount := 1450000 |} = Ok p /\
    map Page.scenario (Page.estimates p) = ["conservative"; "moderate"; "optimistic"] /\
    map Page.value (Page.estimates p)
    = [conservative (Page.property_values p); moderate (Page.property_values p);
       optimistic (Page.property_values p)] /\
    (conservative (Page.property_values p) < moderate (Page.property_values p))%py /\
    (moderate (Page.property_values p) < optimistic (Page.property_values p))%py /\
    Forall (fun e => (Int 0 < Page.gain e)%py) (Page.estimates p).
Proof.
  apply (page_estimates_increasing
           {| Page.initial_investment := 1000000; Page.square_feet := 1500;
              Page.quality_level := "basic"; Page.market_appreciation := 0;
              Page.holding_period := 12; Page.selected_scenario := "moderate";
              Page.share_amount := 1450000 |}).
  admissible_widgets.
Defined.

(** X9.  On admissible widget values, whichever scenario is selected, the
    profit split shown by the page is a gain: the total profit, the company's
    share, the investor's share and the annual return are all positive, and
    the investor's share is the larger of the two. *)
Theorem page_profit_positive (w : Page.Widgets) :
  Page.admissible w ->
  exists p : Page.Values,
    Page.run w = Ok p /\
    (Int 0 < total_profit (Page.roi_data p))%py /\
    (Int 0 < company_profit (Page.roi_data p))%py /\
    (company_profit (Page.roi_data p) < investor_profit (Page.roi_data p))%py /\
    (Int 0 < annual_roi (Page.roi_data p))%py.
Proof.
  intros Hw.
  destruct (page_facts w Hw) as (p & rate & selected & Hrun & _ & _ & _ & _ & _ & HR & _).
  exists p. split; [exact Hrun | exact HR].
Qed.

Lemma page_profit_positive_witness :
  exists p : Page.Values,
    Page.run {| Page.initial_investment := 200000; Page.square_feet := 10000;
                Page.quality_level := "luxury"; Page.market_appreciation := 0;
                Page.holding_period := 60; Page.selected_scenario := "conservative";
                Page.share_amount := 100000 |} = Ok p /\
    (Int 0 < total_profit (Page.roi_data p))%py /\
    (Int 0 < company_profit (Page.roi_data p))%py /\
    (company_profit (Page.roi_data p) < investor_profit (Page.roi_data p))%py /\
    (Int 0 < annual_roi (Page.roi_data p))%py.
Proof.
  apply (page_profit_positive
           {| Page.initial_investment := 200000; Page.square_feet := 10000;
              Page.quality_level := "luxury"; Page.market_appreciation := 0;
              Page.holding_period := 60; Page.selected_scenario := "conservative";
              Page.share_amount := 100000 |}).
  admissible_widgets.
Defined.

(** X10.  The largest share the page lets the user enter is the total
    investment (initial value plus package cost, an integer of at least
    100000, so the widget's range is not empty).  The share percentage shown
    is positive and at most 100; it is exactly 100.0 when the share is the
    whole investment and strictly below 100 when it is less. *)
Theorem page_share_percentage (w : Page.Widgets) :
  Page.admissible w ->
  exists (p : Page.Values) (rate : Z),
    Page.run w = Ok p /\
    base_costs_aed !! Page.quality_level w = Some rate /\
    Page.share_max p = (Page.initial_investment w + Page.square_feet w * rate)%Z /\
    (100000 <= Page.share_max p)%Z /\
    (Int 0 < share_percentage (Page.share_data p))%py /\
    (share_percentage (Page.share_data p) <= Int 100)%py /\
    (Page.share_amount w = Page.share_max p ->
     share_percentage (Page.share_data p) = Float 100) /\
    ((Page.share_amount w < Page.share_max p)%Z ->
     (share_percentage (Page.share_data p) < Int 100)%py).
Proof.
  intros Hw.
  destruct (page_facts w Hw)
    as (p & rate & selected & Hrun & Hrate & _ & _ & _ & _ & _ & (_ & M1 & M2) & HS & _).
  exists p, rate. split; [exact Hrun|]. split; [exact Hrate|].
  split; [exact M1|]. split; [exact M2|]. exact HS.
Qed.

Lemma page_share_percentage_witness :
  exists (p : Page.Values) (rate : Z),
    Page.run {| Page.initial_investment := 1000000; Page.square_feet := 1500;
                Page.quality_level := "medium"; Page.market_appreciation := 10;
                Page.holding_period := 12; Page.selected_scenario := "moderate";
                Page.share_amount := 1570000 |} = Ok p /\
    base_costs_aed !! "medium" = Some rate /\
    Page.share_max p = (1000000 + 1500 * rate)%Z /\
    (100000 <= Page.share_max p)%Z /\
    (Int 0 < share_percentage (Page.share_data p))%py /\
    (share_percentage (Page.share_data p) <= Int 100)%py /\
    (1570000%Z = Page.share_max p ->
     share_percentage (Page.share_data p) = Float 100) /\
    ((1570000 < Page.share_max p)%Z ->
     (share_percentage (Page.share_data p) < Int 100)%py).
Proof.
  apply (page_share_percentage
           {| Page.initial_investment := 1000000; Page.square_feet := 1500;
              Page.quality_level := "medium"; Page.market_appreciation := 10;
              Page.holding_period := 12; Page.selected_scenario := "moderate";
              Page.share_amount := 1570000 |}).
  admissible_widgets.
Defined.

(** X11.  The two series of the chart have the same length, the holding
    period, so every month has its value.  The first value equals the initial
    property value; with two months or more the last value is the estimate of
    the selected scenario, and with one month the series is a single point. *)
Theorem page_chart_series (w : Page.Widgets) :
  Page.admissible w ->
  exists (p : Page.Values) (selected : num),
    Page.run w = Ok p /\
    Page.getitem (Page.items (Page.property_values p)) (Page.selected_scenario w)
    = Ok selected /\
    length (Page.monthly_values p) = Z.to_nat (Page.holding_period w) /\
    length (Page.months p) = Z.to_nat (Page.holding_period w) /\
    (exists y0 : float,
        Page.monthly_values p !! 0%nat = Some y0 /\
        (y0 =? of_Z (Page.initial_investment w))%float = true) /\
    ((2 <= Page.holding_period w)%Z ->
     Page.monthly_values p !! (Z.to_nat (Page.holding_period w) - 1)%nat
     = Some (Np.float64 selected)) /\
    (Page.holding_period w = 1%Z -> exists y0 : float, Page.monthly_values p = [y0]).
Proof.
  intros Hw.
  destruct (page_facts w Hw)
    as (p & rate & selected & Hrun & _ & Hsel & _ & _ & _ & _ & _ & _ & HC).
  exists p, selected. split; [exact Hrun|]. split; [exact Hsel|]. exact HC.
Qed.

Lemma page_chart_series_witness :
  exists (p : Page.Values) (selected : num),
    Page.run {| Page.initial_investment := 1000000; Page.square_feet := 1500;
                Page.quality_level := "medium"; Page.market_appreciation := 0;
                Page.holding_period := 12; Page.selected_scenario := "optimistic";
                Page.share_amount := 500000 |} = Ok p /\
    Page.getitem (Page.items (Page.property_values p)) "optimistic" = Ok selected /\
    length (Page.monthly_values p) = Z.to_nat 12 /\
    length (Page.months p) = Z.to_nat 12 /\
    (exists y0 : float,
        Page.monthly_values p !! 0%nat = Some y0 /\
        (y0 =? of_Z 1000000)%float = true) /\
    ((2 <= 12)%Z ->
     Page.monthly_values p !! (Z.to_nat 12 - 1)%nat = Some (Np.float64 selected)) /\
    (12%Z = 1%Z -> exists y0 : float, Page.monthly_values p = [y0]).
Proof.
  apply (page_chart_series
           {| Page.initial_investment := 1000000; Page.square_feet := 1500;
              Page.quality_level := "medium"; Page.market_appreciation := 0;
              Page.holding_period := 12; Page.selected_scenario := "optimistic";
              Page.share_amount := 500000 |}).
  admissible_widgets.
Defined.

(** *** A flat projection *)





Lemma of_Z_small (z : Z) :
  (Z.abs z <= 2 ^ 64)%Z ->
  finite (of_Z z) /\ (Rabs (B2R (of_Z z)) <= bpow 65)%R /\
  (z <> 0%Z -> / 2 < Rabs (B2R (of_Z z)))%R.
Proof.
  intros Hz.
  assert (Hz' : (Rabs (IZR z) <= bpow 64)%R).
  { rewrite <- abs_IZR, (bpow_IZR 64) by lia. now apply IZR_le. }
  assert (Hr : (Rabs (IZR z) < bpow 1023)%R).
  { apply Rle_lt_trans with (bpow 64); [exact Hz'|]. apply bpow_lt. lia. }
  destruct (int_to_float_correct z Hr) as (_ & Hf & He & _).
  assert (Hu : (bpow (-53) <= / 4)%R) by (rewrite u_value; lra).
  destruct (rel_error _ _ _ (Rlt_le _ _ (bpow_pos (-53))) He) as (d & Hd1 & ->).
  apply Rabs_le_iff in Hd1. rewrite Rabs_mult.
  assert (Hd : (3 / 4 <= Rabs (1 + d) <= 5 / 4)%R) by (rewrite Rabs_pos_eq; lra).
  split; [exact Hf|]. split.
  - change 65%Z with (1 + 64)%Z. rewrite bpow_add, bpow_1.
    pose proof (Rabs_pos (IZR z)). nra.
  - intros Hnz. assert (1 <= Rabs (IZR z))%R by (apply IZR_abs_ge_1; lia). nra.
Qed.



(** Two [float]s that are [==], one of them finite, have the same value. *)
Lemma eqb_finite (y f : float) :
  (y =? f)%float = true -> finite f -> finite y /\ B2R y = B2R f.
Proof.
  intros He Hf.
  assert (Hy : finite y).
  { revert He Hf. unfold finite. rewrite FloatAxioms.eqb_spec. unfold SFeqb.
    destruct (Prim2SF y) as [sy | [|] | | sy my ey], (Prim2SF f) as [sf | sf | | sf mf ef];
      cbn [SFcompare is_finite_SF]; try discriminate; auto. }
  split; [exact Hy|].
  pose proof (compare_finite (Float y) (Float f) Hy Hf) as Hc.
  rewrite FloatAxioms.eqb_spec in He. unfold SFeqb in He. cbn [Py.compare N2R] in Hc.
  destruct (SFcompare (Prim2SF y) (Prim2SF f)) as [[| |]|]; try discriminate. exact Hc.
Qed.

(** Python's [==] between a [float] and a number of the same value. *)
Lemma eqb_value (y : float) (x : num) :
  finite y -> num_finite x -> B2R y = N2R x -> (Float y == x)%py.
Proof.
  intros Hy Hx E. pose proof (compare_finite (Float y) x Hy Hx) as Hc.
  unfold Py.eqb. cbn [N2R] in Hc.
  destruct (Py.compare (Float y) x) as [[| |]|]; first [reflexivity | lra | contradiction].
Qed.


(** A number that converts to a [float] exactly is [==] to that [float]. *)
Lemma float64_eqb (x : num) : exact_num x -> (Float (Np.float64 x) == x)%py.
Proof.
  intros Hx. destruct (float64_exact x Hx) as [Hf Hv].
  apply eqb_value; [exact Hf | now apply exact_num_finite | exact Hv].
Qed.



(** *** C5: the spacing of a projection *)

Lemma eta_K : bpow (-1075) = (bpow (-1022) * / 9007199254740992)%R.
Proof.
  change (-1075)%Z with (-1022 + -53)%Z. now rewrite bpow_add, u_value.
Qed.

Lemma bpow_m1020 : bpow (-1020) = (4 * bpow (-1022))%R.
Proof.
  change (-1020)%Z with (2 + -1022)%Z. rewrite bpow_add, (bpow_IZR 2) by lia.
  reflexivity.
Qed.

Lemma bpow_1023_1000 : bpow 1023 = (8388608 * bpow 1000)%R.
Proof.
  change 1023%Z with (23 + 1000)%Z. rewrite bpow_add, (bpow_IZR 23) by lia.
  reflexivity.
Qed.

(** The error of one correctly rounded operation, as an interval. *)
Lemma rounded_interval (v b : R) (q : float) :
  rounded v (Prim2SF q) -> (Rabs v <= b)%R ->
  finite q /\
  (Rabs (B2R q - v) <= / 9007199254740992 * b + bpow (-1075))%R /\
  (Rabs (B2R q) <= b + / 9007199254740992 * b + bpow (-1075))%R.
Proof.
  intros Hr Hv. pose proof (rounded_bound _ _ Hr) as Hb. fold (B2R q) in Hb.
  rewrite u_value in Hb. split; [exact (rounded_finite _ _ Hr)|].
  assert (H : (Rabs (B2R q - v) <= / 9007199254740992 * b + bpow (-1075))%R) by lra.
  split; [exact H|].
  replace (B2R q) with (B2R q - v + v)%R by ring.
  pose proof (Rabs_triang (B2R q - v) v). lra.
Qed.

Lemma scale_abs (t x b : R) :
  (0 <= t <= 1)%R -> (Rabs x <= b)%R -> (Rabs (t * x) <= b)%R.
Proof.
  intros Ht Hx. rewrite Rabs_mult, (Rabs_pos_eq t) by lra.
  pose proof (Rabs_pos x). nra.
Qed.

(** The error of the step, scaled by the index. *)
Lemma step_error (I N D st u e c : R) :
  (0 <= I <= N)%R -> (1 <= N)%R -> (I <= c)%R -> (0 <= u)%R -> (0 <= e)%R ->
  (Rabs (st - D / N) <= u * Rabs (D / N) + e)%R ->
  (Rabs (I * st - I / N * D) <= u * Rabs D + c * e)%R.
Proof.
  intros HI HN Hc Hu He H.
  replace (I * st - I / N * D)%R with (I * (st - D / N))%R by (field; lra).
  rewrite Rabs_mult, (Rabs_pos_eq I) by lra.
  unfold Rdiv in H at 2. rewrite Rabs_mult, (Rabs_pos_eq (/ N)) in H
    by (apply Rlt_le, Rinv_0_lt_compat; lra).
  pose proof (Rabs_pos D) as HD.
  set (x := Rabs (st - D / N)) in *. set (d := Rabs D) in *.
  assert (H1 : (I * x <= I * (u * (d * / N) + e))%R) by (apply Rmult_le_compat_l; lra).
  assert (H2 : (I * e <= c * e)%R) by (apply Rmult_le_compat_r; lra).
  assert (H3 : (I * / N <= 1)%R).
  { apply Rmult_le_reg_r with N; [lra|]. rewrite Rmult_assoc, Rinv_l by lra. lra. }
  assert (H4 : (0 <= I * / N)%R).
  { apply Rmult_le_pos; [lra|]. apply Rlt_le, Rinv_0_lt_compat. lra. }
  assert (H5 : (0 <= u * d)%R) by (apply Rmult_le_pos; lra).
  assert (H6 : (u * d * (I * / N) <= u * d * 1)%R) by (apply Rmult_le_compat_l; lra).
  replace (I * (u * (d * / N) + e))%R with (u * d * (I * / N) + I * e)%R in H1 by ring.
  lra.
Qed.

(** Every sample before the last is close to the point of the exact, evenly
    spaced subdivision: the four roundings on the way (the difference, the
    step, the product and the sum) each cost a relative [2 ^ -53]. *)
Lemma sample_spacing (start stop : float) (div : Z) (i : nat) :
  finite start -> finite stop ->
  (Rabs (B2R start) <= bpow 1000)%R -> (Rabs (B2R stop) <= bpow 1000)%R ->
  (1 <= div < 2 ^ 53)%Z -> (Z.of_nat i < div)%Z ->
  finite (sample start stop div i) /\
  (Rabs (B2R (sample start stop div i)
         - (B2R start + IZR (Z.of_nat i) / IZR div * (B2R stop - B2R start)))
   <= bpow (-50) * (Rabs (B2R start) + Rabs (B2R stop)) + bpow (-1020))%R.
Proof.
  intros Hfs Hft Bs Bt Hdiv Hi.
  destruct (of_Z_exact (Z.of_nat i)) as [Hfi Hvi]; [lia|].
  destruct (of_Z_exact div) as [Hfn Hvn]; [lia|].
  assert (HN : (1 <= IZR div)%R) by (apply IZR_le; lia).
  assert (HI : (0 <= IZR (Z.of_nat i) <= IZR div)%R) by (split; apply IZR_le; lia).
  assert (HIc : (IZR (Z.of_nat i) <= 9007199254740992)%R).
  { apply IZR_le. change 9007199254740992%Z with (2 ^ 53)%Z. lia. }
  assert (Hnz : is_zero (of_Z div) = false).
  { apply B2R_nonzero; [exact Hfn|]. rewrite Hvn. lra. }
  assert (HB : (9007199254740992 <= bpow 1000)%R).
  { apply Rle_trans with (bpow 53); [|apply bpow_le; lia].
    rewrite (bpow_IZR 53) by lia. apply Rle_refl. }
  pose proof bpow_1023_1000 as H1023. pose proof eta_K as HK.
  pose proof bpow_m1020 as H1020. pose proof (bpow_pos (-1022)) as HK0.
  assert (HK1 : (bpow (-1022) <= 1)%R) by (apply bpow_le_1; lia).
  rewrite bpow_m50, H1020. unfold eps.
  set (S := B2R start) in *. set (T := B2R stop) in *.
  set (I := IZR (Z.of_nat i)) in *. set (N := IZR div) in *.
  set (B := bpow 1000) in *. set (K := bpow (-1022)) in *.
  set (eta := bpow (-1075)) in *.
  pose proof (Rabs_pos S) as HS0. pose proof (Rabs_pos T) as HT0.
  set (a := (Rabs S + Rabs T)%R).
  assert (Ha : (0 <= a <= 2 * B)%R) by (unfold a; lra).
  assert (HSa : (Rabs S <= a)%R) by (unfold a; lra).
  assert (Ht : (0 <= I / N <= 1)%R).
  { split; [apply Rmult_le_pos; [lra | apply Rlt_le, Rinv_0_lt_compat; lra]|].
    apply Rmult_le_reg_r with N; [lra|].
    unfold Rdiv. rewrite Rmult_assoc, Rinv_l by lra. lra. }
  assert (H1N : (bpow 1023 * 1 <= bpow 1023 * Rabs N)%R).
  { apply Rmult_le_compat_l; [lra|]. rewrite Rabs_pos_eq; lra. }
  (* the difference *)
  assert (HvD : (Rabs (T - S) <= a)%R).
  { unfold a. replace (T - S)%R with (T + - S)%R by ring.
    pose proof (Rabs_triang T (- S)) as H. rewrite Rabs_Ropp in H. lra. }
  destruct (rounded_interval (T - S) a (stop - start)) as (Hfd & Ed & Bd);
    [apply sub_rounded; try assumption; fold S T; lra | exact HvD |].
  fold eta in Ed, Bd. set (D := B2R (stop - start)) in *.
  set (bD := (a + / 9007199254740992 * a + eta)%R) in *.
  assert (E1 : (Rabs (I / N * (D - (T - S))) <= / 9007199254740992 * a + eta)%R)
    by (apply scale_abs; assumption).
  assert (HtD : (Rabs (I / N * D) <= bD)%R) by (apply scale_abs; assumption).
  (* the step *)
  assert (Hst : rounded (D / N) (Prim2SF ((stop - start) / of_Z div))).
  { replace N with (B2R (of_Z div)) by exact Hvn.
    apply div_rounded; try assumption. rewrite Hvn. fold N D. unfold bD in Bd. lra. }
  unfold sample. cbv zeta.
  replace (0 <? div)%Z with true by (symmetry; apply Z.ltb_lt; lia).
  destruct ((stop - start) / of_Z div =? 0)%float.
  - (* the step is zero: [i / div * delta + start] *)
    assert (Hq : rounded (I / N) (Prim2SF (of_Z (Z.of_nat i) / of_Z div))).
    { replace N with (B2R (of_Z div)) by exact Hvn.
      replace I with (B2R (of_Z (Z.of_nat i))) by exact Hvi.
      apply div_rounded; try assumption. rewrite Hvn, Hvi. fold N I.
      rewrite (Rabs_pos_eq I) by lra. lra. }
    set (Q := B2R (of_Z (Z.of_nat i) / of_Z div)) in *.
    assert (HQ : (Rabs (Q - I / N) <= / 9007199254740992)%R).
    { destruct (Req_dec I 0) as [E0 | E0].
      - assert (Hz : (I / N = 0)%R) by (rewrite E0; unfold Rdiv; ring).
        rewrite Hz in Hq |- *.
        pose proof (rounded_nonneg _ _ Hq (Rle_refl 0)) as H0.
        pose proof (rounded_nonpos _ _ Hq (Rle_refl 0)) as H1.
        fold (B2R (of_Z (Z.of_nat i) / of_Z div)) in H0, H1. fold Q in H0, H1.
        replace (Q - 0)%R with 0%R by lra. rewrite Rabs_R0. lra.
      - assert (HI1 : (1 <= I)%R).
        { unfold I in *. apply IZR_le.
          assert (Z.of_nat i <> 0)%Z by (intros E; apply E0; now rewrite E). lia. }
        assert (HNc : (N <= 9007199254740992)%R).
        { apply IZR_le. change 9007199254740992%Z with (2 ^ 53)%Z. lia. }
        assert (Hlow : (/ 9007199254740992 <= I / N)%R).
        { apply Rle_trans with (/ N)%R; [apply Rinv_le_contravar; lra|].
          unfold Rdiv. rewrite <- (Rmult_1_l (/ N)) at 1.
          apply Rmult_le_compat_r; [apply Rlt_le, Rinv_0_lt_compat; lra | lra]. }
        pose proof (rounded_normal _ _ Hq) as Hn.
        fold (B2R (of_Z (Z.of_nat i) / of_Z div)) in Hn. fold Q in Hn.
        rewrite u_value, (Rabs_pos_eq (I / N)) in Hn by lra.
        assert (bpow (-1022) <= / 9007199254740992)%R.
        { rewrite <- u_value. apply bpow_le. lia. }
        fold K in H, Hn. specialize (Hn ltac:(lra)).
        apply Rle_trans with (/ 9007199254740992 * (I / N))%R; [exact Hn|]. lra. }
    assert (E2 : (Rabs (Q * D - I / N * D) <= / 9007199254740992 * bD)%R).
    { replace (Q * D - I / N * D)%R with ((Q - I / N) * D)%R by ring.
      rewrite Rabs_mult. pose proof (Rabs_pos D). pose proof (Rabs_pos (Q - I / N)).
      apply Rmult_le_compat; lra. }
    assert (HQD : (Rabs (Q * D) <= bD + / 9007199254740992 * bD)%R).
    { replace (Q * D)%R with ((Q * D - I / N * D) + I / N * D)%R by ring.
      pose proof (Rabs_triang (Q * D - I / N * D) (I / N * D)). lra. }
    destruct (rounded_interval (Q * D) (bD + / 9007199254740992 * bD)
                               (of_Z (Z.of_nat i) / of_Z div * (stop - start)))
      as (Hfp & Ep & Bp);
      [apply mul_rounded; [exact (rounded_finite _ _ Hq) | exact Hfd |];
       fold Q D; unfold bD in *; lra | exact HQD |].
    fold eta in Ep, Bp.
    set (P := B2R (of_Z (Z.of_nat i) / of_Z div * (stop - start))) in *.
    set (bP := (bD + / 9007199254740992 * bD
                + / 9007199254740992 * (bD + / 9007199254740992 * bD) + eta)%R) in *.
    assert (HPS : (Rabs (P + S) <= bP + a)%R).
    { pose proof (Rabs_triang P S). lra. }
    destruct (rounded_interval (P + S) (bP + a)
                (of_Z (Z.of_nat i) / of_Z div * (stop - start) + start))
      as (Hfy & Ey & _);
      [apply add_rounded; [exact Hfp | exact Hfs |]; fold P S;
       unfold bP, bD in *; lra | exact HPS |].
    fold eta in Ey. split; [exact Hfy|].
    set (Y := B2R (of_Z (Z.of_nat i) / of_Z div * (stop - start) + start)) in *.
    apply Rabs_le_iff in E1, E2, Ep, Ey. apply Rabs_le_iff.
    unfold bP, bD in *. fold a. lra.
  - (* the general case: [i * step + start] *)
    set (st := B2R ((stop - start) / of_Z div)) in *.
    assert (E2 : (Rabs (I * st - I / N * D) <= / 9007199254740992 * bD + K)%R).
    { pose proof (rounded_bound _ _ Hst) as Hb.
      fold (B2R ((stop - start) / of_Z div)) in Hb. fold st eta in Hb.
      rewrite u_value in Hb.
      pose proof (step_error I N D st (/ 9007199254740992) eta 9007199254740992
                             HI HN HIc ltac:(lra) ltac:(lra) Hb) as H.
      pose proof (Rabs_pos D). lra. }
    assert (HIst : (Rabs (I * st) <= bD + / 9007199254740992 * bD + K)%R).
    { replace (I * st)%R with ((I * st - I / N * D) + I / N * D)%R by ring.
      pose proof (Rabs_triang (I * st - I / N * D) (I / N * D)). lra. }
    destruct (rounded_interval (I * st) (bD + / 9007199254740992 * bD + K)
                               (of_Z (Z.of_nat i) * ((stop - start) / of_Z div)))
      as (Hfp & Ep & Bp);
      [replace I with (B2R (of_Z (Z.of_nat i))) by exact Hvi;
       apply mul_rounded; [exact Hfi | exact (rounded_finite _ _ Hst) |];
       rewrite Hvi; fold I st; unfold bD in *; lra | exact HIst |].
    fold eta in Ep, Bp.
    set (P := B2R (of_Z (Z.of_nat i) * ((stop - start) / of_Z div))) in *.
    set (bP := (bD + / 9007199254740992 * bD + K
                + / 9007199254740992 * (bD + / 9007199254740992 * bD + K) + eta)%R) in *.
    assert (HPS : (Rabs (P + S) <= bP + a)%R).
    { pose proof (Rabs_triang P S). lra. }
    destruct (rounded_interval (P + S) (bP + a)
                (of_Z (Z.of_nat i) * ((stop - start) / of_Z div) + start))
      as (Hfy & Ey & _);
      [apply add_rounded; [exact Hfp | exact Hfs |]; fold P S;
       unfold bP, bD in *; lra | exact HPS |].
    fold eta in Ey. split; [exact Hfy|].
    set (Y := B2R (of_Z (Z.of_nat i) * ((stop - start) / of_Z div) + start)) in *.
    apply Rabs_le_iff in E1, E2, Ep, Ey. apply Rabs_le_iff.
    unfold bP, bD in *. fold a. lra.
Qed.

(** The end points as [float]s: a machine [int] is small, a [float] is
    bounded by the comparison. *)
Lemma float64_bounded (x : num) :
  Np.scalar x -> (Int (- 2 ^ 1000) <= x)%py -> (x <= Int (2 ^ 1000))%py ->
  finite (Np.float64 x) /\ (Rabs (B2R (Np.float64 x)) <= bpow 1000)%R.
Proof.
  intros Hs Hlo Hhi. destruct x as [z | f]; cbn [Np.float64 Np.scalar] in *.
  - destruct (of_Z_small z) as (Hf & Hb & _).
    { change (2 ^ 63)%Z with 9223372036854775808%Z in Hs.
      change (2 ^ 64)%Z with 18446744073709551616%Z in *. lia. }
    split; [exact Hf|]. apply Rle_trans with (bpow 65); [exact Hb|]. apply bpow_le. lia.
  - exact (between_pow 1000 (Float f) ltac:(lia) Hlo Hhi).
Qed.

(** C5, as amended.  For [1 <= months < 2 ^ 53] and two values that are
    [float]s or machine [int]s, the projection has exactly [months]
    elements.  With [months >= 2] its last element is the final value
    converted to a [float], which is [==] to the final value when that is a
    finite [float] or an [int] below [2 ^ 53] in magnitude.  With
    [months = 1] the single element is [0 * (stop - start) + start]
    computed in binary64; it is the first and the last element, so the final
    value does not appear.  The first element is [==] to the initial value
    converted to a [float] (and so to the initial value itself, when the
    conversion is exact) whenever the difference of the two values is within
    [-2 ^ 1022, 2 ^ 1022].  The elements are evenly spaced up to rounding:
    with [months >= 2] and both values within [-2 ^ 1000, 2 ^ 1000], the
    element of index [i] is within
    [2 ^ -50 * (|start| + |stop|) + 2 ^ -1020] of
    [start + i * (stop - start) / (months - 1)], [start] and [stop] being the
    two values as [float]s.  And
    [generate_monthly_projection(100, 200, 3)] is [[100, 150, 200]]. *)
Theorem projection_shape (initial_value final_value : num) (months : Z) :
  Np.scalar initial_value -> Np.scalar final_value ->
  (1 <= months < 2 ^ 53)%Z ->
  exists ys : list float,
    generate_monthly_projection initial_value final_value months = Ok ys /\
    length ys = Z.to_nat months /\
    ((2 <= months)%Z ->
     ys !! (Z.to_nat months - 1)%nat = Some (Np.float64 final_value) /\
     (exact_num final_value -> (Float (Np.float64 final_value) == final_value)%py)) /\
    (months = 1%Z ->
     ys = [(0 * (Np.float64 final_value - Np.float64 initial_value)
            + Np.float64 initial_value)%float]) /\
    ((Float (- 0x1p1022) <= Float (Np.float64 final_value - Np.float64 initial_value))%py ->
     (Float (Np.float64 final_value - Np.float64 initial_value) <= Float 0x1p1022)%py ->
     exists y0 : float,
       ys !! 0%nat = Some y0 /\
       (y0 =? Np.float64 initial_value)%float = true /\
       (exact_num initial_value -> (Float y0 == initial_value)%py)) /\
    ((2 <= months)%Z ->
     (Int (- 2 ^ 1000) <= initial_value)%py -> (initial_value <= Int (2 ^ 1000))%py ->
     (Int (- 2 ^ 1000) <= final_value)%py -> (final_value <= Int (2 ^ 1000))%py ->
     forall (i : nat) (y : float),
       ys !! i = Some y ->
       finite y /\
       (Rabs (B2R y
              - (B2R (Np.float64 initial_value)
                 + IZR (Z.of_nat i) / IZR (months - 1)
                   * (B2R (Np.float64 final_value) - B2R (Np.float64 initial_value))))
        <= bpow (-50) * (Rabs (B2R (Np.float64 initial_value))
                         + Rabs (B2R (Np.float64 final_value)))
           + bpow (-1020))%R) /\
    generate_monthly_projection (Int 100) (Int 200) 3 = Ok [100; 150; 200]%float.
Proof.
  intros Hsi Hsf Hm. unfold generate_monthly_projection at 1.
  rewrite linspace_samples by (try assumption; lia). cbv zeta.
  set (start := Np.float64 initial_value). set (stop := Np.float64 final_value).
  set (n := Z.to_nat months).
  set (y := map (sample start stop (months - 1)) (seq 0 n)).
  assert (Hlen : length y = n) by (unfold y; now rewrite length_map, length_seq).
  assert (Hn : (1 <= n)%nat) by (unfold n; lia).
  assert (Hy : forall i, (i < n)%nat -> y !! i = Some (sample start stop (months - 1) i)).
  { intros i Hi. unfold y. now rewrite lookup_map_seq. }
  assert (Hfirst : forall y0 : float,
             (y0 =? start)%float = true -> exact_num initial_value ->
             (Float y0 == initial_value)%py).
  { intros y0 E Hx. destruct (float64_exact _ Hx) as [Hf Hv]. fold start in Hf, Hv.
    destruct (eqb_finite y0 start E Hf) as [Hf0 Hv0].
    apply eqb_value; [exact Hf0 | now apply exact_num_finite | congruence]. }
  eexists. split; [reflexivity|].
  destruct (Z.ltb_spec 1 months) as [Hlt | Hle].
  - split; [now rewrite length_insert|].
    split; [|split; [|split; [|split]]].
    + intros _. split; [|apply float64_eqb].
      rewrite Hlen. replace (n - 1)%nat with (pred n) by lia.
      apply list_lookup_insert_eq. lia.
    + intros ->. lia.
    + intros Hlo Hhi. exists (sample start stop (months - 1) 0).
      destruct (between_pow_1022 _ Hlo Hhi) as [Hf Hb].
      assert (E : (sample start stop (months - 1) 0 =? start)%float = true)
        by (apply sample_0; [exact Hf | exact Hb | lia]).
      split; [|split; [exact E | now apply Hfirst]].
      rewrite list_lookup_insert_ne by (unfold n in *; lia). apply Hy. lia.
    + intros _ Hi1 Hi2 Hf1 Hf2 i v Hv.
      destruct (float64_bounded _ Hsi Hi1 Hi2) as [Hfs Bs].
      destruct (float64_bounded _ Hsf Hf1 Hf2) as [Hft Bt].
      fold start in Hfs, Bs. fold stop in Hft, Bt.
      rewrite Hlen in Hv.
      assert (Hi : (i < n)%nat).
      { pose proof (lookup_lt_Some _ _ _ Hv) as Hl.
        now rewrite length_insert, Hlen in Hl. }
      destruct (Nat.eq_dec i (pred n)) as [-> | Hne].
      * rewrite list_lookup_insert_eq in Hv by lia. injection Hv as <-.
        split; [exact Hft|].
        replace (Z.of_nat (pred n)) with (months - 1)%Z by (unfold n; lia).
        assert (HN : (1 <= IZR (months - 1))%R) by (apply IZR_le; lia).
        replace (B2R start + IZR (months - 1) / IZR (months - 1) * (B2R stop - B2R start))%R
          with (B2R stop) by (field; lra).
        rewrite Rminus_diag, Rabs_R0.
        pose proof (bpow_pos (-50)). pose proof (bpow_pos (-1020)).
        pose proof (Rabs_pos (B2R start)). pose proof (Rabs_pos (B2R stop)). nra.
      * rewrite list_lookup_insert_ne in Hv by lia. rewrite Hy in Hv by lia.
        injection Hv as <-.
        apply sample_spacing; try assumption; unfold n in *; lia.
    + vm_compute. reflexivity.
  - assert (months = 1%Z) as -> by lia.
    split; [exact Hlen|]. split; [|split; [|split; [|split]]].
    + intros H. lia.
    + intros _. reflexivity.
    + intros Hlo Hhi. exists (sample start stop (1 - 1) 0).
      destruct (between_pow_1022 _ Hlo Hhi) as [Hf Hb].
      assert (E : (sample start stop (1 - 1) 0 =? start)%float = true)
        by (apply sample_0; [exact Hf | exact Hb | lia]).
      split; [reflexivity|]. split; [exact E | now apply Hfirst].
    + intros H. lia.
    + vm_compute. reflexivity.
Qed.

Lemma projection_shape_witness :
  exists ys : list float,
    generate_monthly_projection (Int 100) (Int 200) 3 = Ok ys /\
    length ys = 3%nat /\ ys !! 2%nat = Some 200%float /\
    (exists y0 : float, ys !! 0%nat = Some y0 /\ (Float y0 == Int 100)%py) /\
    (forall (i : nat) (y : float),
        ys !! i = Some y ->
        (Rabs (B2R y - (B2R 100 + IZR (Z.of_nat i) / IZR (3 - 1) * (B2R 200 - B2R 100)))
         <= bpow (-50) * (Rabs (B2R 100) + Rabs (B2R 200)) + bpow (-1020))%R).
Proof.
  destruct (projection_shape (Int 100) (Int 200) 3)
    as (ys & H & Hlen & Hlast & _ & Hfirst & Hspace & _).
  - cbn [Np.scalar]. lia.
  - cbn [Np.scalar]. lia.
  - lia.
  - exists ys. split; [exact H|]. split; [exact Hlen|].
    split; [apply Hlast; lia|]. split.
    + destruct Hfirst as (y0 & H0 & _ & Hx); [reflexivity | reflexivity |].
      exists y0. split; [exact H0|]. apply Hx. cbn [exact_num]. lia.
    + intros i y Hy.
      apply (Hspace ltac:(lia) eq_refl eq_refl eq_refl eq_refl i y Hy).
Defined.
